(** * express-yui: the seed resolver ([exposeSeed] of lib/seed.js)

    A shallow embedding of the seed extension of the [yui] middleware and
    of the part of lib/yui.js it calls ([yui.config]), followed by the
    properties of the resolution pass: which script descriptors are
    emitted, in which order, how runs of combinable modules are merged,
    and what the call leaves behind.

    Conventions of the embedding.
    - JavaScript objects used as dictionaries ([this._map],
      [config.groups], [FILTERS_MAP]) are finite maps over strings, which
      hold their own properties.  They are ordinary objects: a read
      [o[k]] that finds no own property goes on to [Object.prototype],
      and an assignment to [o['__proto__']] adds no own property.
    - A property that may be missing from an object is an [option]:
      [None] is JavaScript's [undefined].
    - The local variables shared by the closures of [exposeSeed]
      ([seedCache], [stack], [prevGroup]) and the console are threaded
      explicitly in a [Frame]; a JavaScript exception is the [Throw]
      outcome. *)

From stdpp Require Import gmap strings list.

Set Default Proof Using "Type".

(** ** Outcomes: a value or a thrown exception *)

Inductive Outcome (A : Type) : Type :=
| Ok (a : A)
| Throw (message : string).
Arguments Ok {A} a.
Arguments Throw {A} message.

Definition bind {A B : Type} (o : Outcome A) (k : A → Outcome B) : Outcome B :=
  match o with
  | Ok a => k a
  | Throw e => Throw e
  end.

Notation "'let*' x ':=' o 'in' k" := (bind o (λ x, k))
  (at level 10, x name, o at level 100, k at level 200, only parsing).
Notation "'let*' ' p ':=' o 'in' k" := (bind o (λ x, let 'p := x in k))
  (at level 10, p pattern, o at level 100, k at level 200, only parsing).

(** ** JavaScript primitives used by the resolver *)

(** Truthiness of a string: only the empty string is falsy. *)
Definition truthy (s : string) : bool := negb (bool_decide (s = "")).

(** [ToString] of a property that holds a string or is missing. *)
Definition ToString (v : option string) : string := default "undefined" v.

(** [v + s] where the right operand is a string: concatenation after
    [ToString] of the left operand. *)
Definition js_add (v : option string) (s : string) : string := ToString v +:+ s.

(** Concatenation of the elements with [sep] between neighbours. *)
Fixpoint join_with (sep : string) (l : list string) : string :=
  match l with
  | [] => ""
  | x :: rest =>
      match rest with
      | [] => x
      | _ :: _ => x +:+ sep +:+ join_with sep rest
      end
  end.

(** [Array.prototype.join]: a missing separator is a comma. *)
Definition join (l : list string) (sep : option string) : string :=
  join_with (default "," sep) l.

(** The properties of [Object.prototype].  Every ordinary object inherits
    them: read from an object that has no own property of that name, each
    is a built-in function, and [__proto__] is [Object.prototype]
    itself. *)
Definition Object_prototype : list string :=
  ["constructor"; "hasOwnProperty"; "isPrototypeOf"; "propertyIsEnumerable";
   "toLocaleString"; "toString"; "valueOf"; "__proto__";
   "__defineGetter__"; "__defineSetter__"; "__lookupGetter__";
   "__lookupSetter__"].

(** What a read [o[k]] finds: an own property, a built-in inherited from
    [Object.prototype], or nothing. *)
Inductive Property (V : Type) : Type :=
| Own (v : V)
| Builtin
| Undefined.
Arguments Own {V} v.
Arguments Builtin {V}.
Arguments Undefined {V}.

Definition read {V : Type} (o : gmap string V) (k : string) : Property V :=
  match o !! k with
  | Some v => Own v
  | None => if bool_decide (k ∈ Object_prototype) then Builtin else Undefined
  end.

(** [o[k] = v] on the own properties of [o].  For [__proto__], unless
    [o] has an own property of that name, the inherited setter takes the
    value and no own property is created. *)
Definition assign {V : Type} (k : string) (v : V) (o : gmap string V)
  : gmap string V :=
  if bool_decide (k = "__proto__" ∧ o !! k = None) then o else <[k := v]> o.

(** ** Data model *)

(** The properties of a group that the resolver reads.  [combine] is only
    ever used as a condition, so its truthiness is recorded. *)
Record Group : Type := mkGroup {
  base : option string;
  combine : bool;
  comboBase : option string;
  comboSep : option string;
  root : option string
}.

Global Instance Group_eq_dec : EqDecision Group.
Proof. solve_decision. Defined.

(** What the resolver reads of a built-in used as a group: none of these
    properties exists on a built-in function or on [Object.prototype]. *)
Definition builtin_group : Group :=
  {| base := None; combine := false; comboBase := None; comboSep := None;
     root := None |}.

(** [groups[name]] as the resolver uses it: an object or [undefined]. *)
Definition group_read (catalog : gmap string Group) (name : string)
  : option Group :=
  match read catalog name with
  | Own g => Some g
  | Builtin => Some builtin_group
  | Undefined => None
  end.

(** An entry of [this._map]: the name of the module's group and its path. *)
Record ModuleEntry : Type := mkModuleEntry {
  group : string;
  path : string
}.

(** The static configuration.  The same object serves as the group of the
    modules that have no entry in [this._map]; [as_group] collects the
    properties read in that role. *)
Record Config : Type := mkConfig {
  seed : option (list string);
  filter : option string;
  groups : option (gmap string Group);
  as_group : Group
}.

(** The object [{}]. *)
Definition empty_config : Config :=
  {| seed := None; filter := None; groups := None;
     as_group := {| base := None; combine := false; comboBase := None;
                    comboSep := None; root := None |} |}.

(** [yui.locals], and the properties of the [yui] function object that
    the seed extension reads. *)
Record Locals : Type := mkLocals {
  yui : option Config
}.

Record Store : Type := mkStore {
  locals : option Locals;
  _map : option (gmap string ModuleEntry)
}.

(** An element of the array exposed as [res.locals.yui_seed]. *)
Record Descriptor : Type := mkDescriptor {
  src : string
}.

Global Instance Descriptor_eq_dec : EqDecision Descriptor.
Proof. solve_decision. Defined.

(** What is written to the console: [console.log] of a group object and
    [console.warn] of a message. *)
Inductive Event : Type :=
| Log (g : Group)
| Warn (message : string).

(** The values a seed method hands back to its caller: [false], or the
    middleware closure together with the array it captured.  Arrays are
    what the middleware stores in [res.locals.yui_seed]. *)
Inductive Value : Type :=
| VFalse
| VArray (elements : list Descriptor)
| VFunction (captured : list Descriptor).

(** [res.locals.yui_seed = seedCache; next()] *)
Definition call_middleware (v : Value) : option Value :=
  match v with
  | VFunction seedCache => Some (VArray seedCache)
  | _ => None
  end.

(** ** lib/yui.js: [yui.config] called without supplier *)

Definition config (s : Store) : Outcome (Config * Store) :=
  match locals s with
  | None => Throw "yui() should happen before."
  | Some l =>
      match yui l with
      | Some cfg => Ok (cfg, s)
      | None =>
          Ok (empty_config,
              {| locals := Some {| yui := Some empty_config |};
                 _map := _map s |})
      end
  end.

(** ** lib/seed.js *)

Definition FILTERS_MAP : gmap string string :=
  <["raw" := ""]> (<["min" := "-min"]> (<["debug" := "-debug"]> ∅)).

Definition DEFAULT_FILTER : string := "-min".

Definition getDefaultSeed : list string := ["yui-base"].

(** The variables of [exposeSeed] that its closures and its loop update,
    together with the console. *)
Record Frame : Type := mkFrame {
  seedCache : list Descriptor;
  stack : list string;
  prevGroup : option Group;
  console : list Event
}.

Definition flush (newGroup : option Group) (f : Frame) : Outcome Frame :=
  if bool_decide (0 < length (stack f)) then
    match prevGroup f with
    | None => Throw "TypeError: Cannot read property 'comboBase' of undefined"
    | Some pg =>
        Ok {| seedCache :=
                seedCache f ++
                [{| src := js_add (comboBase pg) (join (stack f) (comboSep pg)) |}];
              stack := [];
              prevGroup := prevGroup f;
              console := console f ++ [Log pg] |}
    end
  else
    Ok {| seedCache := seedCache f; stack := [];
          prevGroup := prevGroup f; console := console f |}.

Definition isSimilarGroup (f : Frame) (newGroup : option Group) : bool :=
  match newGroup, prevGroup f with
  | Some ng, Some pg =>
      combine ng && combine pg &&
      bool_decide (comboBase ng = comboBase pg) &&
      bool_decide (comboSep ng = comboSep pg)
  | _, _ => false
  end.

(** [config.filter && FILTERS_MAP.hasOwnProperty(config.filter) ?
     FILTERS_MAP[config.filter] : DEFAULT_FILTER] *)
Definition default_filter (cfg : Config) : string :=
  match filter cfg with
  | Some name =>
      if truthy name then
        match FILTERS_MAP !! name with
        | Some suffix => suffix
        | None => DEFAULT_FILTER
        end
      else DEFAULT_FILTER
  | None => DEFAULT_FILTER
  end.

Section Resolution.

(** The values [exposeSeed] computes before its loop. *)
Variable cfg : Config.
Variable map : gmap string ModuleEntry.
Variable catalog : gmap string Group.
Variable suffix : string.

(** Lines 249-260: the group and the path of module [m].  When [map[m]]
    is a built-in inherited from [Object.prototype] it is truthy, its
    [group] is undefined, which [groups[...]] reads as the name
    ["undefined"], and its [path] is undefined: a path is only used
    after the test of line 261, so the empty string stands for it. *)
Definition lookup_module (m : string) : option Group * string :=
  match read map m with
  | Own entry => (group_read catalog (group entry), path entry)
  | Builtin => (group_read catalog "undefined", "")
  | Undefined => (Some (as_group cfg), m +:+ "/" +:+ m +:+ suffix +:+ ".js")
  end.

Definition skip_message (m : string) : string :=
  "Skipping module [" +:+ m +:+ "] form " +:+
  "seed due to invalid group resolution.".

(** Line 261, [if (path && group)]: the group and path a module is
    processed with, or [None] when the module is skipped. *)
Definition resolved (m : string) : option (Group * string) :=
  let '(g, p) := lookup_module m in
  match g with
  | Some grp => if truthy p then Some (grp, p) else None
  | None => None
  end.

(** One iteration of the loop. *)
Definition visit (f : Frame) (m : string) : Outcome Frame :=
  let '(g, p) := lookup_module m in
  match g with
  | Some grp =>
      if truthy p then
        let* f1 := (if isSimilarGroup f (Some grp) then Ok f else flush (Some grp) f) in
        let f2 :=
          if combine grp then
            {| seedCache := seedCache f1;
               stack := stack f1 ++ [js_add (root grp) p];
               prevGroup := prevGroup f1; console := console f1 |}
          else
            {| seedCache := seedCache f1 ++ [{| src := js_add (base grp) p |}];
               stack := stack f1;
               prevGroup := prevGroup f1; console := console f1 |} in
        Ok {| seedCache := seedCache f2; stack := stack f2;
              prevGroup := Some grp; console := console f2 |}
      else
        Ok {| seedCache := seedCache f; stack := stack f;
              prevGroup := prevGroup f;
              console := console f ++ [Warn (skip_message m)] |}
  | None =>
      Ok {| seedCache := seedCache f; stack := stack f;
            prevGroup := prevGroup f;
            console := console f ++ [Warn (skip_message m)] |}
  end.

(** [for (i = 0; i < modules.length; i += 1) { ... }] *)
Fixpoint loop (modules : list string) (f : Frame) : Outcome Frame :=
  match modules with
  | [] => Ok f
  | m :: rest => let* f' := visit f m in loop rest f'
  end.

(** The loop and the final flush, from fresh variables. *)
Definition resolve (modules : list string) (out : list Event) : Outcome Frame :=
  let* f := loop modules
              {| seedCache := []; stack := []; prevGroup := None;
                 console := out |} in
  flush None f.

(** The loop followed by the final flush, from any frame. *)
Definition finish (modules : list string) (f : Frame) : Outcome Frame :=
  let* f1 := loop modules f in flush None f1.

(** The modules the loop skips. *)
Definition skipped (modules : list string) : list string :=
  List.filter (λ m, bool_decide (resolved m = None)) modules.

End Resolution.

Definition exposeSeed (s : Store) (out : list Event)
  : Outcome (Value * Store * list Event) :=
  let* '(cfg, s1) := config s in
  let modules := default getDefaultSeed (seed cfg) in
  let map := default ∅ (_map s1) in
  let catalog := default ∅ (groups cfg) in
  let suffix := default_filter cfg in
  let* f := resolve cfg map catalog suffix modules out in
  Ok (if bool_decide (0 < length (seedCache f))
      then VFunction (seedCache f) else VFalse,
      s1, console f).

(** The store after [yui(config)] has run: [yui.locals.yui] holds the
    static configuration. *)
Definition initialised (cfg : Config) (reg : option (gmap string ModuleEntry))
  : Store :=
  {| locals := Some {| yui := Some cfg |}; _map := reg |}.

(** [config.seed = modules], as [yui.seed(modules)] leaves it. *)
Definition with_seed (modules : list string) (cfg : Config) : Config :=
  {| seed := Some modules; filter := filter cfg; groups := groups cfg;
     as_group := as_group cfg |}.

(** The module list, registry, catalog and suffix that [exposeSeed]
    derives from the configuration. *)
Definition modules_of (cfg : Config) : list string :=
  default getDefaultSeed (seed cfg).

Definition resolvedIn (cfg : Config) (reg : option (gmap string ModuleEntry))
  (m : string) : option (Group * string) :=
  resolved cfg (default ∅ reg) (default ∅ (groups cfg)) (default_filter cfg) m.

(** The value returned for a given [seedCache]. *)
Definition returned (seedCache : list Descriptor) : Value :=
  if bool_decide (0 < length seedCache) then VFunction seedCache else VFalse.

(** ** The vocabulary of the specification *)

(** The path fragment a resolved module adds to a combo URL. *)
Definition fragment (x : Group * string) : string := js_add (root x.1) x.2.

(** Two groups are compatible when both are combinable and agree on
    [comboBase] and [comboSep]. *)
Definition compatible (g1 g2 : Group) : bool :=
  combine g1 && combine g2 &&
  bool_decide (comboBase g1 = comboBase g2) &&
  bool_decide (comboSep g1 = comboSep g2).

Definition joins (x : Group * string) (run : list (Group * string)) : bool :=
  match run with
  | y :: _ => compatible x.1 y.1
  | [] => false
  end.

(** The resolved modules cut into maximal runs of consecutive modules
    with compatible groups; a module of a non-combinable group is a run
    of its own. *)
Fixpoint runs (l : list (Group * string)) : list (list (Group * string)) :=
  match l with
  | [] => []
  | x :: rest =>
      match runs rest with
      | run :: others =>
          if joins x run then (x :: run) :: others else [x] :: run :: others
      | [] => [[x]]
      end
  end.

(** The descriptor a run is rendered as: one combo URL for a run of
    combinable modules, the plain URL for a non-combinable module. *)
Definition descriptor_of_run (run : list (Group * string)) : list Descriptor :=
  match run with
  | [] => []
  | (g, p) :: _ =>
      if combine g then
        [{| src := js_add (comboBase g) (join (fragment <$> run) (comboSep g)) |}]
      else [{| src := js_add (base g) p |}]
  end.

(** The suffix selected by a filter, as the specification words it. *)
Definition spec_suffix (f : option string) : string :=
  if decide (f = Some "raw") then ""
  else if decide (f = Some "debug") then "-debug"
  else "-min".

(** ** Frames during the pass *)

(** The variables as [exposeSeed] declares them. *)
Definition fresh (out : list Event) : Frame :=
  {| seedCache := []; stack := []; prevGroup := None; console := out |}.

(** The frame after the skip branch: only the console has grown. *)
Definition warned (f : Frame) (m : string) : Frame :=
  {| seedCache := seedCache f; stack := stack f; prevGroup := prevGroup f;
     console := console f ++ [Warn (skip_message m)] |}.

(** The frame after lines 266-273, once the flush decision is taken. *)
Definition accepted (f : Frame) (g : Group) (p : string) : Frame :=
  {| seedCache :=
       if combine g then seedCache f
       else seedCache f ++ [{| src := js_add (base g) p |}];
     stack := if combine g then stack f ++ [js_add (root g) p] else stack f;
     prevGroup := Some g;
     console := console f |}.

(** A frame on which [flush] cannot fail: a pending buffer always comes
    with the combinable group that filled it. *)
Definition frame_ok (f : Frame) : Prop :=
  stack f ≠ [] → ∃ pg, prevGroup f = Some pg ∧ combine pg = true.

(** The frame holds the run [block] in its buffer: the buffer lists the
    fragments of [block], [prevGroup] is the group of its last module and
    every module of [block] is compatible with it.  With an empty buffer,
    [prevGroup] is not combinable. *)
Definition pending (f : Frame) (block : list (Group * string)) : Prop :=
  stack f = fragment <$> block ∧
  match last block with
  | None => ∀ pg, prevGroup f = Some pg → combine pg = false
  | Some x =>
      prevGroup f = Some x.1 ∧ Forall (λ y, compatible y.1 x.1 = true) block
  end.

(** ** Runs and their rendering *)

(** The descriptors the specification asks for: one per run, in order. *)
Definition render (l : list (Group * string)) : list Descriptor :=
  concat (descriptor_of_run <$> runs l).

(** A run is not empty, and the modules of a run of several are compatible
    with its first module (hence with each other). *)
Definition run_ok (run : list (Group * string)) : Prop :=
  match run with
  | [] => False
  | [x] => True
  | x :: _ => Forall (λ y, compatible x.1 y.1 = true) run
  end.

(** Neighbouring runs cannot be merged: the last module of a run is not
    compatible with the first module of the next. *)
Fixpoint apart (rs : list (list (Group * string))) : Prop :=
  match rs with
  | r1 :: rest =>
      match rest with
      | r2 :: _ =>
          (∀ x y, last r1 = Some x → head r2 = Some y →
                  compatible x.1 y.1 = false) ∧ apart rest
      | [] => True
      end
  | [] => True
  end.

(** ** The console and the seed as a whole *)

(** The messages of the warnings on a console. *)
Definition warnings (out : list Event) : list string :=
  omap (λ e, match e with Warn message => Some message | Log _ => None end) out.

(** The modules of a list that [exposeSeed] skips. *)
Definition skippedIn (cfg : Config) (reg : option (gmap string ModuleEntry))
  (modules : list string) : list string :=
  skipped cfg (default ∅ reg) (default ∅ (groups cfg)) (default_filter cfg) modules.

(** The resolved modules of the configured seed, in input order. *)
Definition resolved_seed (cfg : Config) (reg : option (gmap string ModuleEntry))
  : list (Group * string) :=
  omap (resolvedIn cfg reg) (modules_of cfg).

(** ** A catalog, a registry and configurations to evaluate the resolver on *)

Definition app_group : Group :=
  {| base := Some "/app/"; combine := true; comboBase := Some "/combo?";
     comboSep := Some "&"; root := Some "r/" |}.

(** Another group served by the same combo endpoint. *)
Definition lib_group : Group :=
  {| base := Some "/lib/"; combine := true; comboBase := Some "/combo?";
     comboSep := Some "&"; root := Some "l/" |}.

Definition plain_group : Group :=
  {| base := Some "/static/"; combine := false; comboBase := None;
     comboSep := None; root := None |}.

Definition sample_catalog : gmap string Group :=
  <["app" := app_group]> (<["lib" := lib_group]> (<["plain" := plain_group]> ∅)).

(** [a] and [d] belong to one combinable group, [b] to a second one served
    by the same endpoint and [c] to a non-combinable group; the group of
    [zz] is not in the catalog and the path of [e] is empty. *)
Definition sample_registry : gmap string ModuleEntry :=
  <["a" := {| group := "app"; path := "pathA" |}]>
  (<["b" := {| group := "lib"; path := "pathB" |}]>
  (<["c" := {| group := "plain"; path := "pathC" |}]>
  (<["d" := {| group := "app"; path := "pathD" |}]>
  (<["zz" := {| group := "nowhere"; path := "pathZ" |}]>
  (<["e" := {| group := "app"; path := "" |}]> ∅))))).

Definition sample_config (top : Group) (f : option string)
  (modules : list string) : Config :=
  {| seed := Some modules; filter := f; groups := Some sample_catalog;
     as_group := top |}.

(** [config.filter = f], as an [applyConfig({filter: f})] leaves it. *)
Definition with_filter (f : option string) (cfg : Config) : Config :=
  {| seed := seed cfg; filter := f; groups := groups cfg;
     as_group := as_group cfg |}.

(** The groups printed by [console.log] on a console. *)
Definition logged (out : list Event) : list Group :=
  omap (λ e, match e with Log g => Some g | Warn _ => None end) out.

(** The group [flush] prints for a run: the group of its last module,
    when the run is combinable. *)
Definition log_of_run (run : list (Group * string)) : list Group :=
  match last run with
  | Some x => if combine x.1 then [x.1] else []
  | None => []
  end.

(** The groups printed during a pass over the resolved modules [l]. *)
Definition run_logs (l : list (Group * string)) : list Group :=
  concat (log_of_run <$> runs l).

(** ** The rest of lib/yui.js and lib/seed.js

    These functions read and write more of the [yui] function object
    than [exposeSeed] does: [yui.YUI], [yui.version], [yui.path] and the
    [core] and [version] properties of the static configuration.  A call
    may throw after it has written to an object, so a completion carries
    the state in both cases. *)

Inductive Completion (S A : Type) : Type :=
| Returns (a : A) (s : S)
| Throws (message : string) (s : S).
Arguments Returns {S A} a s.
Arguments Throws {S A} message s.

(** The object [YUI.YUI] of the required package, as far as it is read:
    [YUI.version] and [YUI.Env.core]. *)
Record YUIGlobal : Type := mkYUIGlobal {
  YUI_version : string;
  Env_core : list string
}.

(** What [require(path)] returns: [.YUI] and the result of [.path()]. *)
Record Package : Type := mkPackage {
  package_YUI : YUIGlobal;
  package_path : string
}.

(** The double-quote character of the messages. *)
Definition dquote : string := String (Ascii.ascii_of_nat 34) EmptyString.

Module App.

Section Environment.

(** What the model leaves open: the remaining properties of the static
    configuration, the objects callers pass in, [utils.extend] (the
    target after [utils.extend(target, ...sources)]), Node's [require]
    ([None] when it throws) and [__dirname]. *)
Context {Other Obj : Type}.
Variable no_other : Other.
Variable require : string → option Package.
Variable __dirname : string.

(** The static configuration [yui.locals.yui]: the properties read by
    the seed resolver, [core], [version] and the rest. *)
Record Static : Type := mkStatic {
  resolver : Config;
  core : option (list string);
  version : option string;
  other : Other
}.

(** The object [{}]. *)
Definition empty_static : Static :=
  {| resolver := empty_config; core := None; version := None;
     other := no_other |}.

(** The objects handed to [yui.config]: the literals built by [seed] and
    [debugMode], and objects supplied by the caller. *)
Inductive Supplier : Type :=
| seed_literal (modules : list string)
| debug_literal
| supplied (o : Obj).

Variable extend : Static → list (option Supplier) → Static.

(** The [yui] function object.  [y_locals] is [None] while [yui.locals]
    is undefined, [Some None] for [yui.locals = {}]; [y_out] lists the
    lines printed by [console.log]. *)
Record Yui : Type := mkYui {
  y_locals : option (option Static);
  y_map : option (gmap string ModuleEntry);
  y_YUI : option YUIGlobal;
  y_version : option string;
  y_path : option string;
  y_out : list string
}.

(** The part of the object that [exposeSeed] works on. *)
Definition store_of (y : Yui) : Store :=
  mkStore
    (match y_locals y with
     | Some l => Some (mkLocals (match l with
                                 | Some c => Some (resolver c)
                                 | None => None
                                 end))
     | None => None
     end)
    (y_map y).

(** [yui.locals.yui = c] *)
Definition set_static (c : Static) (y : Yui) : Yui :=
  {| y_locals := Some (Some c); y_map := y_map y; y_YUI := y_YUI y;
     y_version := y_version y; y_path := y_path y; y_out := y_out y |}.

(** lib/yui.js, [yui.config(supplier, ...)]: [args] are the arguments of
    the call. *)
Definition config (args : list (option Supplier)) (y : Yui)
  : Completion Yui Static :=
  match y_locals y with
  | None => Throws "yui() should happen before." y
  | Some l =>
      let c := default empty_static l in
      let c' := match args with
                | Some _ :: _ => extend c args
                | _ => c
                end in
      Returns c' (set_static c' y)
  end.

(** lib/yui.js, [yui.applyConfig(supplier, ...)] *)
Definition applyConfig (args : list (option Supplier)) (y : Yui)
  : Completion Yui Value :=
  match y_locals y with
  | None => Throws "yui() should happen before." y
  | Some l =>
      let c := default empty_static l in
      let c' := match args with
                | Some _ :: _ => extend c args
                | _ => c
                end in
      Returns VFalse (set_static c' y)
  end.

(** lib/yui.js, [yui.debugMode(config)] *)
Definition debugMode (config_arg : option Supplier) (y : Yui)
  : Completion Yui Value :=
  match config [Some debug_literal; config_arg] y with
  | Returns _ y' => Returns VFalse y'
  | Throws e y' => Throws e y'
  end.

Definition customize_hint : string :=
  " To customize this use " +:+
  "`modown.yui({}, " +:+ dquote +:+ "to/custom/yui/" +:+ dquote +:+
  ")` to control it.".

(** lib/yui.js, [yui(config, path)] *)
Definition yui (config_arg : option Supplier) (path_arg : option string)
  (y : Yui) : Completion Yui unit :=
  match y_locals y with
  | Some _ =>
      Throws ("Multiple attemps to call `yui()`." +:+
              "Only one `yui` is allow per app.") y
  | None =>
      let y1 := {| y_locals := Some None; y_map := y_map y; y_YUI := y_YUI y;
                   y_version := y_version y; y_path := y_path y;
                   y_out := y_out y |} in
      match config [config_arg] y1 with
      | Throws e y' => Throws e y'
      | Returns c y2 =>
          let wanted :=
            match path_arg with
            | Some p =>
                if truthy p then
                  (p, "Error trying to require() yui from " +:+ p)
                else
                  (__dirname +:+ "/../../yui",
                   "Error trying to require() yui from the app folder. " +:+
                   "You can install yui at the app level or specify the path by doing " +:+
                   "`modown.yui({}, " +:+ dquote +:+ "to/custom/yui/" +:+ dquote +:+ ")`")
            | None =>
                (__dirname +:+ "/../../yui",
                 "Error trying to require() yui from the app folder. " +:+
                 "You can install yui at the app level or specify the path by doing " +:+
                 "`modown.yui({}, " +:+ dquote +:+ "to/custom/yui/" +:+ dquote +:+ ")`")
            end in
          match require wanted.1 with
          | None => Throws wanted.2 y2
          | Some pkg =>
              let line :=
                "Using yui@" +:+ YUI_version (package_YUI pkg) +:+ " from [" +:+
                package_path pkg +:+ "]." +:+
                match path_arg with
                | Some p => if truthy p then customize_hint else p
                | None => "undefined"
                end in
              let c' :=
                {| resolver := resolver c; core := core c;
                   version := match version c with
                              | Some v =>
                                  if truthy v then Some v
                                  else Some (YUI_version (package_YUI pkg))
                              | None => Some (YUI_version (package_YUI pkg))
                              end;
                   other := other c |} in
              Returns tt
                {| y_locals := Some (Some c'); y_map := y_map y2;
                   y_YUI := Some (package_YUI pkg);
                   y_version := Some (YUI_version (package_YUI pkg));
                   y_path := Some (package_path pkg);
                   y_out := y_out y2 ++ [line] |}
          end
      end
  end.

(** lib/seed.js, [getDefaultCore]: a copy of [this.YUI.Env.core]. *)
Definition getDefaultCore (y : Yui) : Completion Yui (list string) :=
  match y_YUI y with
  | Some Y => Returns (Env_core Y) y
  | None => Throws "TypeError: Cannot read property 'Env' of undefined" y
  end.

(** lib/seed.js, [addModuleToSeed(moduleName)] *)
Definition addModuleToSeed (moduleName : string) (y : Yui)
  : Completion Yui unit :=
  match config [] y with
  | Throws e y' => Throws e y'
  | Returns c y1 =>
      let c1 :=
        {| resolver :=
             with_seed (default getDefaultSeed (seed (resolver c)) ++ [moduleName])
               (resolver c);
           core := core c; version := version c; other := other c |} in
      let y2 := set_static c1 y1 in
      match core c1 with
      | Some listed =>
          Returns tt
            (set_static
               {| resolver := resolver c1; core := Some (listed ++ [moduleName]);
                  version := version c1; other := other c1 |} y2)
      | None =>
          match getDefaultCore y2 with
          | Throws e y' => Throws e y'
          | Returns listed y3 =>
              Returns tt
                (set_static
                   {| resolver := resolver c1;
                      core := Some (listed ++ [moduleName]);
                      version := version c1; other := other c1 |} y3)
          end
      end
  end.

(** lib/seed.js, [seed(modules)] *)
Definition seed (modules : list string) (y : Yui) : Completion Yui Value :=
  match config [Some (seed_literal modules)] y with
  | Returns _ y' => Returns VFalse y'
  | Throws e y' => Throws e y'
  end.

(** [addModuleToSeed] for each module of a list, in order, stopping at
    the first call that throws. *)
Fixpoint addModulesToSeed (names : list string) (y : Yui) : Completion Yui unit :=
  match names with
  | [] => Returns tt y
  | m :: rest =>
      match addModuleToSeed m y with
      | Returns _ y' => addModulesToSeed rest y'
      | Throws e y' => Throws e y'
      end
  end.

End Environment.

End App.

(** The state a call leaves behind, however it completes. *)
Definition state_after {S A : Type} (c : Completion S A) : S :=
  match c with
  | Returns _ s => s
  | Throws _ s => s
  end.

(** An environment to evaluate these functions in: a package found only
    under the path [custom], and an [extend] that copies the properties
    of the literals it is given. *)
Definition sample_package : Package :=
  {| package_YUI := {| YUI_version := "3.10.0"; Env_core := ["get"; "features"] |};
     package_path := "/node_modules/yui" |}.

Definition sample_require (p : string) : option Package :=
  if bool_decide (p = "custom") then Some sample_package else None.

Definition sample_extend (c : @App.Static unit)
  (args : list (option (@App.Supplier unit))) : @App.Static unit :=
  foldl (λ acc arg,
           match arg with
           | Some (App.seed_literal modules) =>
               App.mkStatic (with_seed modules (App.resolver acc))
                 (App.core acc) (App.version acc) (App.other acc)
           | Some App.debug_literal =>
               App.mkStatic (with_filter (Some "debug") (App.resolver acc))
                 (App.core acc) (App.version acc) (App.other acc)
           | _ => acc
           end) c args.

(** A [yui] object on which nothing has been called yet, with the sample
    registry. *)
Definition untouched : @App.Yui unit :=
  App.mkYui None (Some sample_registry) None None None [].

(** The [yui] object with the static configuration [cfg] and no package
    loaded. *)
Definition configured (cfg : Config) (listed : option (list string))
  : @App.Yui unit :=
  App.mkYui (Some (Some (App.mkStatic cfg listed None tt)))
    (Some sample_registry) None None None [].

(** ** lib/server.js: [registerModules] and [attachModules]

    The module keeps two queues, [groupsQueue] and [modulesQueue], and
    works on the tables of the YUI runtime: [this._Y.Env] and
    [this.YUI.Env].  A table that is missing is [None]; reading a
    property of a missing object, or deleting from it, throws. *)

Module Server.

Section Runtime.

(** What the model leaves open: the values kept in the tables, the
    errors [Y.use] may throw, the rest of the YUI runtime, and [Y.use]
    itself (the runtime it leaves, and the error it throws if any). *)
Context {Meta Err Rest : Type}.

(** [Y.Env._loader] *)
Record Loader : Type := mkLoader {
  loaded : option (gmap string Meta);
  inserted : option (gmap string Meta);
  required : option (gmap string Meta)
}.

(** [this._Y.Env] *)
Record YEnv : Type := mkYEnv {
  _attached : option (gmap string bool);
  _used : option (gmap string Meta);
  _loader : option Loader
}.

(** [this.YUI.Env] *)
Record YUIEnv : Type := mkYUIEnv {
  _loaded : option (gmap string (gmap string Meta));
  mods : option (gmap string Meta)
}.

(** The two environments [registerModules] cleans up. *)
Record Envs : Type := mkEnvs {
  YEnv_of : YEnv;
  YUIEnv_of : YUIEnv
}.

(** What is printed by [console.error]. *)
Inductive ErrorLine : Type :=
| message_line (text : string)
| error_line (e : Err)
| stack_line (e : Err).

(** The module variables and the properties of [this] that are used.
    [YUI] and [_Y] are [None] when the object is missing and [Some None]
    when it has no [Env].  A group is queued with the own properties of
    its [groupModules] in enumeration order, or with [None] when
    [groupModules] is undefined; the metadata of a module is an object,
    not a function.  [groupsQueue] holds the own properties of the
    object: the group name [__proto__] sets its prototype instead, which
    neither method reads. *)
Record State : Type := mkState {
  groupsQueue : gmap string (option (list (string * Meta)));
  modulesQueue : list string;
  YUI : option (option YUIEnv);
  version : option string;
  _Y : option (option YEnv);
  rest : Rest;
  errors : list ErrorLine
}.

Variable Y_use : list string → State → State * option Err.

Definition type_error : string := "TypeError".

(** [delete table[k]] for a table that may be missing. *)
Definition delete_in {V : Type} (table : option (gmap string V)) (k : string)
  : option (gmap string V) :=
  match table with
  | Some t => Some (delete k t)
  | None => None
  end.

(** The statements of the loop body, one by one.  Each throws when the
    object it deletes from is missing, and otherwise deletes [k] there. *)
Definition delete_attached (k : string) (e : Envs) : Completion Envs unit :=
  match _attached (YEnv_of e) with
  | Some t =>
      Returns tt
        {| YEnv_of := {| _attached := Some (delete k t);
                         _used := _used (YEnv_of e);
                         _loader := _loader (YEnv_of e) |};
           YUIEnv_of := YUIEnv_of e |}
  | None => Throws type_error e
  end.

Definition delete_used (k : string) (e : Envs) : Completion Envs unit :=
  match _used (YEnv_of e) with
  | Some t =>
      Returns tt
        {| YEnv_of := {| _attached := _attached (YEnv_of e);
                         _used := Some (delete k t);
                         _loader := _loader (YEnv_of e) |};
           YUIEnv_of := YUIEnv_of e |}
  | None => Throws type_error e
  end.

Definition with_loader (l : Loader) (e : Envs) : Envs :=
  {| YEnv_of := {| _attached := _attached (YEnv_of e);
                   _used := _used (YEnv_of e);
                   _loader := Some l |};
     YUIEnv_of := YUIEnv_of e |}.

Definition delete_loaded (k : string) (e : Envs) : Completion Envs unit :=
  match _loader (YEnv_of e) with
  | Some l =>
      match loaded l with
      | Some t =>
          Returns tt
            (with_loader {| loaded := Some (delete k t);
                            inserted := inserted l; required := required l |} e)
      | None => Throws type_error e
      end
  | None => Throws type_error e
  end.

Definition delete_inserted (k : string) (e : Envs) : Completion Envs unit :=
  match _loader (YEnv_of e) with
  | Some l =>
      match inserted l with
      | Some t =>
          Returns tt
            (with_loader {| loaded := loaded l;
                            inserted := Some (delete k t);
                            required := required l |} e)
      | None => Throws type_error e
      end
  | None => Throws type_error e
  end.

Definition delete_required (k : string) (e : Envs) : Completion Envs unit :=
  match _loader (YEnv_of e) with
  | Some l =>
      match required l with
      | Some t =>
          Returns tt
            (with_loader {| loaded := loaded l; inserted := inserted l;
                            required := Some (delete k t) |} e)
      | None => Throws type_error e
      end
  | None => Throws type_error e
  end.

(** [delete YUIEnv._loaded[version][k]].  When [_loaded] has no table of
    its own for the version and the version is named like a property of
    [Object.prototype], the delete is applied to the built-in, which is
    not part of the state; in strict mode it throws for the one property
    that cannot be deleted, [Object.prototype]. *)
Definition delete_global_loaded (ver : option string) (k : string) (e : Envs)
  : Completion Envs unit :=
  match _loaded (YUIEnv_of e) with
  | Some byVersion =>
      match read byVersion (ToString ver) with
      | Own t =>
          Returns tt
            {| YEnv_of := YEnv_of e;
               YUIEnv_of :=
                 {| _loaded := Some (<[ToString ver := delete k t]> byVersion);
                    mods := mods (YUIEnv_of e) |} |}
      | Builtin =>
          if bool_decide (ToString ver = "constructor" ∧ k = "prototype")
          then Throws type_error e else Returns tt e
      | Undefined => Throws type_error e
      end
  | None => Throws type_error e
  end.

Definition delete_mods (k : string) (e : Envs) : Completion Envs unit :=
  match mods (YUIEnv_of e) with
  | Some t =>
      Returns tt
        {| YEnv_of := YEnv_of e;
           YUIEnv_of := {| _loaded := _loaded (YUIEnv_of e);
                           mods := Some (delete k t) |} |}
  | None => Throws type_error e
  end.

(** Statements in sequence: the first throw ends the sequence. *)
Fixpoint in_sequence {S : Type} (steps : list (S → Completion S unit)) (s : S)
  : Completion S unit :=
  match steps with
  | [] => Returns tt s
  | step :: more =>
      match step s with
      | Returns _ s' => in_sequence more s'
      | Throws e s' => Throws e s'
      end
  end.

(** [YEnv._attached && YEnv._attached[k]]: a built-in inherited from
    [Object.prototype] is truthy. *)
Definition is_attached (k : string) (e : Envs) : bool :=
  match _attached (YEnv_of e) with
  | Some t =>
      match read t k with
      | Own b => b
      | Builtin => true
      | Undefined => false
      end
  | None => false
  end.

(** The body of the loop for the module [k]. *)
Definition forget (ver : option string) (k : string) (e : Envs)
  : Completion Envs unit :=
  if is_attached k e then
    in_sequence
      [delete_attached k; delete_used k; delete_loaded k; delete_inserted k;
       delete_required k; delete_global_loaded ver k; delete_mods k] e
  else Returns tt e.

(** [this.YUI && this.YUI.Env], and the like for [this._Y]. *)
Definition env_of {E : Type} (object : option (option E)) : option E :=
  match object with
  | Some env => env
  | None => None
  end.

(** lib/server.js, [registerModules(groupName, groupModules)].  The loop
    tests every key with [groupModules.hasOwnProperty(module)]: for the
    own keys that [for ... in] enumerates the inherited function answers
    [true], and when the group has a module named [hasOwnProperty] the
    property read is that module's metadata, which is not a function, so
    the first test throws. *)
Definition registerModules (groupName : string)
  (groupModules : option (list (string * Meta))) (s : State)
  : Completion State unit :=
  let queued := assign groupName groupModules (groupsQueue s) in
  match env_of (_Y s), env_of (YUI s) with
  | Some yenv, Some yuienv =>
      let names := (default [] groupModules).*1 in
      let done :=
        if bool_decide ("hasOwnProperty" ∈ names) then
          Throws type_error {| YEnv_of := yenv; YUIEnv_of := yuienv |}
        else
          in_sequence (forget (version s) <$> names)
            {| YEnv_of := yenv; YUIEnv_of := yuienv |} in
      let s' :=
        {| groupsQueue := queued; modulesQueue := modulesQueue s;
           YUI := Some (Some (YUIEnv_of (state_after done)));
           version := version s;
           _Y := Some (Some (YEnv_of (state_after done)));
           rest := rest s; errors := errors s |} in
      match done with
      | Returns _ _ => Returns tt s'
      | Throws e _ => Throws e s'
      end
  | _, _ =>
      Returns tt
        {| groupsQueue := queued; modulesQueue := modulesQueue s;
           YUI := YUI s; version := version s; _Y := _Y s;
           rest := rest s; errors := errors s |}
  end.

(** lib/server.js, [attachModules(mods)] *)
Definition attachModules (mods_arg : option (list string)) (s : State) : State :=
  let queue := modulesQueue s ++ default [] mods_arg in
  let s1 :=
    {| groupsQueue := groupsQueue s; modulesQueue := queue; YUI := YUI s;
       version := version s; _Y := _Y s; rest := rest s; errors := errors s |} in
  match _Y s with
  | Some _ =>
      let '(s2, thrown) := Y_use queue s1 in
      {| groupsQueue := groupsQueue s2; modulesQueue := [];
         YUI := YUI s2; version := version s2; _Y := _Y s2; rest := rest s2;
         errors :=
           match thrown with
           | Some e =>
               errors s2 ++
               [message_line ("error attaching modules: " +:+
                              match mods_arg with
                              | Some l => join_with "," l
                              | None => "undefined"
                              end);
                error_line e; stack_line e]
           | None => errors s2
           end |}
  | None => s1
  end.

(** [attachModules] for each list of a sequence of calls. *)
Definition attachAll (calls : list (option (list string))) (s : State) : State :=
  foldl (λ acc mods_arg, attachModules mods_arg acc) s calls.

(** What is left of a table once the keys of [gone] are deleted. *)
Definition without {V : Type} (gone : list string) (t : gmap string V)
  : gmap string V :=
  foldr delete t gone.

(** The modules of a group that are attached. *)
Definition attached_of (e : Envs) (names : list string) : list string :=
  List.filter (λ k, is_attached k e) names.

(** The environments once the modules [gone] are deleted from every
    table, the table of the version [ver] included. *)
Definition prune (ver : option string) (gone : list string) (e : Envs) : Envs :=
  {| YEnv_of :=
       {| _attached := without gone <$> _attached (YEnv_of e);
          _used := without gone <$> _used (YEnv_of e);
          _loader :=
            (λ l, {| loaded := without gone <$> loaded l;
                     inserted := without gone <$> inserted l;
                     required := without gone <$> required l |}) <$>
            _loader (YEnv_of e) |};
     YUIEnv_of :=
       {| _loaded := alter (without gone) (ToString ver) <$> _loaded (YUIEnv_of e);
          mods := without gone <$> mods (YUIEnv_of e) |} |}.

(** Every table that the loop body deletes from exists. *)
Definition complete (ver : option string) (e : Envs) : Prop :=
  is_Some (_used (YEnv_of e)) ∧
  (∃ l, _loader (YEnv_of e) = Some l ∧
        is_Some (loaded l) ∧ is_Some (inserted l) ∧ is_Some (required l)) ∧
  (∃ byVersion, _loaded (YUIEnv_of e) = Some byVersion ∧
                is_Some (byVersion !! ToString ver)) ∧
  is_Some (mods (YUIEnv_of e)).

End Runtime.

End Server.

(** A runtime to evaluate lib/server.js on: three modules are known, two
    of them attached, and a [Y.use] that marks the modules it is given as
    attached and throws when asked for the module [broken]. *)
Definition sample_table : gmap string nat :=
  <["app-a" := 1]> (<["app-b" := 2]> (<["lib-c" := 3]> ∅)).

Definition sample_envs : @Server.Envs nat :=
  {| Server.YEnv_of :=
       {| Server._attached :=
            Some (<["app-a" := true]> (<["app-b" := false]> (<["lib-c" := true]> ∅)));
          Server._used := Some sample_table;
          Server._loader :=
            Some {| Server.loaded := Some sample_table;
                    Server.inserted := Some sample_table;
                    Server.required := Some sample_table |} |};
     Server.YUIEnv_of :=
       {| Server._loaded := Some (<["3.10.0" := sample_table]> ∅);
          Server.mods := Some sample_table |} |}.

Definition sample_server (instance : bool) (queue : list string)
  : @Server.State nat string unit :=
  {| Server.groupsQueue := ∅; Server.modulesQueue := queue;
     Server.YUI := Some (Some (Server.YUIEnv_of sample_envs));
     Server.version := Some "3.10.0";
     Server._Y := if instance then Some (Some (Server.YEnv_of sample_envs)) else None;
     Server.rest := tt; Server.errors := [] |}.

Definition sample_Y_use (names : list string) (s : @Server.State nat string unit)
  : @Server.State nat string unit * option string :=
  if bool_decide ("broken" ∈ names) then (s, Some "cannot attach broken")
  else
    ({| Server.groupsQueue := Server.groupsQueue s;
        Server.modulesQueue := Server.modulesQueue s;
        Server.YUI := Server.YUI s; Server.version := Server.version s;
        Server._Y :=
          match Server._Y s with
          | Some (Some env) =>
              Some (Some {| Server._attached :=
                              Some (foldr (λ k t, <[k := true]> t)
                                      (default ∅ (Server._attached env)) names);
                            Server._used := Server._used env;
                            Server._loader := Server._loader env |})
          | other => other
          end;
        Server.rest := Server.rest s; Server.errors := Server.errors s |}, None).

(** ** lib/hashfiles.js: [process]

    [process] starts [fs.readdir]; everything else happens in callbacks:
    [afterReaddir] once the directory is read, then [afterHash] for each
    hash that completes.  The job is the state shared by these callbacks
    ([hashes], [invalid], [count]), together with a record of the calls
    made to [hashfile] and to the caller's [callback]. *)

Module Hashfiles.

Section Job.

(** What the model leaves open: the hashes, the error codes and the
    errors of [fs.readdir]; Node's [path.join] with three arguments; and
    [hashfile] of lib/hashfile.js, which either calls its callback before
    it returns, with [Some] completion, or defers it ([None]). *)
Context {Hash Code ReaddirError Algo : Type}.
Variable path_join : string → string → string → string.

(** The error handed to [afterHash]: [err.path] and [err.code]. *)
Record HashError : Type := mkHashError {
  path : option string;
  code : Code
}.

(** The arguments of one call of [afterHash]. *)
Record Done : Type := mkDone {
  err : option HashError;
  hash : Hash;
  pathname : option string
}.

Variable hashfile : string → Algo → option Done.

(** A call of the caller's [callback]: [callback(err, null)] or
    [callback(null, hashes, invalid)]. *)
Inductive Call : Type :=
| error_call (e : ReaddirError)
| result_call (hashes : gmap string Hash) (invalid : gmap string Code).

Record Job : Type := mkJob {
  hashes : gmap string Hash;
  invalid : gmap string Code;
  count : Z;
  started : list string;
  calls : list Call
}.

(** [var hashes = {}, invalid = {}, count = 0] *)
Definition start : Job :=
  {| hashes := ∅; invalid := ∅; count := 0; started := []; calls := [] |}.

(** [pathname || err.path] as a property name; [None] when [err] is
    missing and reading [err.path] throws. *)
Definition key_of (d : Done) : option string :=
  let fallback :=
    match err d with
    | Some e => Some (ToString (path e))
    | None => None
    end in
  match pathname d with
  | Some p => if truthy p then Some p else fallback
  | None => fallback
  end.

(** [afterHash(err, hash, pathname)]: the result is assigned under its
    key in [invalid] or in [hashes], then [count] is decremented and the
    callback called when it reaches zero. *)
Definition afterHash (d : Done) (j : Job) : Completion Job unit :=
  match key_of d with
  | None => Throws "TypeError" j
  | Some k =>
      let j1 :=
        match err d with
        | Some e =>
            {| hashes := hashes j; invalid := assign k (code e) (invalid j);
               count := count j; started := started j; calls := calls j |}
        | None =>
            {| hashes := assign k (hash d) (hashes j); invalid := invalid j;
               count := count j; started := started j; calls := calls j |}
        end in
      let n := (count j1 - 1)%Z in
      Returns tt
        {| hashes := hashes j1; invalid := invalid j1; count := n;
           started := started j1;
           calls :=
             if bool_decide (n = 0%Z) then
               calls j1 ++ [result_call (hashes j1) (invalid j1)]
             else calls j1 |}
  end.

(** The function returned by [eachFile(dir, suffix, cb)], applied to
    [item]. *)
Definition eachFile (dir suffix : string) (algo : Algo) (item : string) (j : Job)
  : Completion Job unit :=
  let pathname := path_join dir item (item +:+ suffix) in
  let j1 :=
    {| hashes := hashes j; invalid := invalid j; count := (count j + 1)%Z;
       started := started j ++ [pathname]; calls := calls j |} in
  match hashfile pathname algo with
  | Some d => afterHash d j1
  | None => Returns tt j1
  end.

(** [files.forEach(f)]: the first throw ends the iteration. *)
Fixpoint forEach (f : string → Job → Completion Job unit) (files : list string)
  (j : Job) : Completion Job unit :=
  match files with
  | [] => Returns tt j
  | item :: more =>
      match f item j with
      | Returns _ j' => forEach f more j'
      | Throws e j' => Throws e j'
      end
  end.

Definition afterReaddir (buildDir suffix : string) (algo : Algo)
  (error : option ReaddirError) (files : option (list string)) (j : Job)
  : Completion Job unit :=
  let j1 :=
    match error with
    | Some e =>
        {| hashes := hashes j; invalid := invalid j; count := count j;
           started := started j; calls := calls j ++ [error_call e] |}
    | None => j
    end in
  match files with
  | Some listing => forEach (eachFile buildDir suffix algo) listing j1
  | None => Throws "TypeError" j1
  end.

(** The deferred completions, delivered one after the other; an
    exception in a callback ends the run. *)
Fixpoint deliver (completions : list Done) (j : Job) : Completion Job unit :=
  match completions with
  | [] => Returns tt j
  | d :: more =>
      match afterHash d j with
      | Returns _ j' => deliver more j'
      | Throws e j' => Throws e j'
      end
  end.

(** [process(buildDir, suffix, algo, callback)] followed by the events it
    waits for: the answer of [fs.readdir], then the completions. *)
Definition process (buildDir suffix : string) (algo : Algo)
  (error : option ReaddirError) (files : option (list string))
  (completions : list Done) : Completion Job unit :=
  match afterReaddir buildDir suffix algo error files start with
  | Returns _ j => deliver completions j
  | Throws e j => Throws e j
  end.

(** What a completion adds to [hashes] or to [invalid]. *)
Definition record (acc : gmap string Hash * gmap string Code) (d : Done)
  : gmap string Hash * gmap string Code :=
  match key_of d with
  | Some k =>
      match err d with
      | Some e => (acc.1, assign k (code e) acc.2)
      | None => (assign k (hash d) acc.1, acc.2)
      end
  | None => acc
  end.

Definition tally (completions : list Done) : gmap string Hash * gmap string Code :=
  foldl record (∅, ∅) completions.

End Job.

End Hashfiles.

(** A build directory to evaluate [process] on: [path.join] on plain
    names, a [hashfile] that always defers its callback, and the
    completions of two hashes, one of them failed. *)
Definition sample_path_join (dir item file : string) : string :=
  dir +:+ "/" +:+ item +:+ "/" +:+ file.

Definition sample_hashfile (pathname algo : string)
  : option (@Hashfiles.Done string string) := None.

Definition sample_immediate_hashfile (pathname algo : string)
  : option (@Hashfiles.Done string string) :=
  Some {| Hashfiles.err := None; Hashfiles.hash := algo +:+ ":" +:+ pathname;
          Hashfiles.pathname := Some pathname |}.

Definition sample_completions : list (@Hashfiles.Done string string) :=
  [ {| Hashfiles.err := None; Hashfiles.hash := "4e55";
       Hashfiles.pathname := Some "build/a/a-min.js" |};
    {| Hashfiles.err :=
         Some {| Hashfiles.path := Some "build/b/b-min.js";
                 Hashfiles.code := "ENOTDIR" |};
       Hashfiles.hash := "undefined"; Hashfiles.pathname := None |} ].

(** ** Basic facts *)

Lemma exposeSeed_initialised cfg reg out :
  exposeSeed (initialised cfg reg) out =
  let* f := resolve cfg (default ∅ reg) (default ∅ (groups cfg))
              (default_filter cfg) (modules_of cfg) out in
  Ok (returned (seedCache f), initialised cfg reg, console f).
Proof. reflexivity. Qed.

(** A pass over a mixed seed: [a] and [b] share a combo URL, [zz] is
    skipped, [c] ends the run, [d] starts another one, and the
    unregistered [foo] is served from the configuration itself. *)
Example mixed_seed :
  exposeSeed
    (initialised
       (sample_config plain_group (Some "debug") ["a"; "b"; "zz"; "c"; "d"; "foo"])
       (Some sample_registry)) [] =
  Ok (VFunction [{| src := "/combo?r/pathA&l/pathB" |};
                 {| src := "/static/pathC" |};
                 {| src := "/combo?r/pathD" |};
                 {| src := "/static/foo/foo-debug.js" |}],
      initialised
        (sample_config plain_group (Some "debug") ["a"; "b"; "zz"; "c"; "d"; "foo"])
        (Some sample_registry),
      [Warn "Skipping module [zz] form seed due to invalid group resolution.";
       Log lib_group; Log app_group]).
Proof. vm_compute. reflexivity. Qed.

(** Before any configuration is supplied, the default seed is served
    from the empty configuration object. *)
Example default_seed_of_empty_config :
  exposeSeed {| locals := Some {| yui := None |}; _map := None |} [] =
  Ok (VFunction [{| src := "undefinedyui-base/yui-base-min.js" |}],
      initialised empty_config None, []).
Proof. vm_compute. reflexivity. Qed.

(** Without [yui.locals] the call throws. *)
Example not_initialised :
  exposeSeed {| locals := None; _map := None |} [] =
  Throw "yui() should happen before.".
Proof. reflexivity. Qed.

Lemma FILTERS_MAP_lookup name :
  FILTERS_MAP !! name =
  if decide (name = "raw") then Some ""
  else if decide (name = "min") then Some "-min"
  else if decide (name = "debug") then Some "-debug"
  else None.
Proof.
  unfold FILTERS_MAP.
  rewrite !lookup_insert, lookup_empty.
  repeat case_decide; congruence.
Qed.

Lemma default_filter_spec cfg : default_filter cfg = spec_suffix (filter cfg).
Proof.
  unfold default_filter, spec_suffix.
  destruct (filter cfg) as [name|]; [|by repeat case_decide].
  rewrite FILTERS_MAP_lookup. unfold truthy, DEFAULT_FILTER.
  repeat (case_decide || case_bool_decide); simplify_eq; done.
Qed.

(** ** The loop, one iteration at a time *)

Section Loop.

Variable cfg : Config.
Variable map : gmap string ModuleEntry.
Variable catalog : gmap string Group.
Variable suffix : string.

Lemma visit_unresolved f m :
  resolved cfg map catalog suffix m = None →
  visit cfg map catalog suffix f m = Ok (warned f m).
Proof.
  unfold resolved, visit. intros H.
  destruct (lookup_module _ _ _ _ m) as [[grp|] p]; [|done].
  by destruct (truthy p).
Qed.

Lemma visit_resolved f m g p :
  resolved cfg map catalog suffix m = Some (g, p) →
  visit cfg map catalog suffix f m =
  let* f1 := (if isSimilarGroup f (Some g) then Ok f else flush (Some g) f) in
  Ok (accepted f1 g p).
Proof.
  unfold resolved, visit. intros H.
  destruct (lookup_module _ _ _ _ m) as [[grp|] q]; [|done].
  destruct (truthy q); [|done]. simplify_eq.
  destruct (isSimilarGroup f (Some g)); simpl.
  - unfold accepted. by destruct (combine g).
  - destruct (flush (Some g) f) as [f1|e]; simpl; [|done].
    unfold accepted. by destruct (combine g).
Qed.

Lemma finish_unfold modules f :
  finish cfg map catalog suffix modules f =
  let* f1 := loop cfg map catalog suffix modules f in flush None f1.
Proof. reflexivity. Qed.

Lemma finish_nil f : finish cfg map catalog suffix [] f = flush None f.
Proof. reflexivity. Qed.

Lemma finish_cons m modules f :
  finish cfg map catalog suffix (m :: modules) f =
  let* f1 := visit cfg map catalog suffix f m in
  finish cfg map catalog suffix modules f1.
Proof. unfold finish. simpl. by destruct (visit _ _ _ _ f m). Qed.

Lemma finish_app l1 l2 f :
  finish cfg map catalog suffix (l1 ++ l2) f =
  let* f1 := loop cfg map catalog suffix l1 f in
  finish cfg map catalog suffix l2 f1.
Proof.
  unfold finish. revert f. induction l1 as [|m l1 IH]; intros f; simpl; [done|].
  destruct (visit _ _ _ _ f m) as [f'|e]; simpl; [apply IH|done].
Qed.

Lemma resolve_finish modules out :
  resolve cfg map catalog suffix modules out =
  finish cfg map catalog suffix modules (fresh out).
Proof. reflexivity. Qed.

Local Abbreviation resolved := (resolved cfg map catalog suffix).
Local Abbreviation visit := (visit cfg map catalog suffix).
Local Abbreviation loop := (loop cfg map catalog suffix).
Local Abbreviation resolve := (resolve cfg map catalog suffix).
Local Abbreviation finish := (finish cfg map catalog suffix).

Lemma isSimilarGroup_compatible f g :
  isSimilarGroup f (Some g) =
  match prevGroup f with Some pg => compatible g pg | None => false end.
Proof. by destruct f as [sc st [pg|] co]. Qed.

Lemma flush_empty ng f :
  stack f = [] →
  flush ng f = Ok {| seedCache := seedCache f; stack := [];
                     prevGroup := prevGroup f; console := console f |}.
Proof. unfold flush. intros ->. by rewrite bool_decide_false by (simpl; lia). Qed.

Lemma flush_pending ng f pg :
  stack f ≠ [] → prevGroup f = Some pg →
  flush ng f =
  Ok {| seedCache :=
          seedCache f ++
          [{| src := js_add (comboBase pg) (join (stack f) (comboSep pg)) |}];
        stack := []; prevGroup := Some pg; console := console f ++ [Log pg] |}.
Proof.
  unfold flush. intros Hst ->.
  rewrite bool_decide_true; [done|].
  destruct (stack f); [done|simpl; lia].
Qed.

(** [flush] succeeds on a well-formed frame, empties the buffer, keeps
    what was emitted and never touches [prevGroup]. *)
Lemma flush_ok ng f :
  frame_ok f →
  ∃ f', flush ng f = Ok f' ∧ stack f' = [] ∧ prevGroup f' = prevGroup f ∧
        (∃ more, seedCache f' = seedCache f ++ more) ∧
        (∃ logs, console f' = console f ++ logs ∧
                 Forall (λ e, ∃ g, e = Log g) logs).
Proof.
  intros Hok. destruct (decide (stack f = [])) as [He|Hne].
  - rewrite (flush_empty _ _ He). eexists; split; [done|]. simpl.
    repeat split; [by exists []; rewrite app_nil_r|].
    exists []. by rewrite app_nil_r.
  - destruct (Hok Hne) as (pg & Hpg & _).
    rewrite (flush_pending _ _ _ Hne Hpg). eexists; split; [done|]. simpl.
    split_and!; [done|done|by eexists|].
    eexists; split; [done|]. repeat constructor. by eexists.
Qed.

Lemma warned_ok f m : frame_ok f → frame_ok (warned f m).
Proof. done. Qed.

(** Every iteration succeeds on a well-formed frame and leaves one. *)
Lemma visit_ok f m :
  frame_ok f →
  ∃ f', visit f m = Ok f' ∧ frame_ok f' ∧
        ∃ more, seedCache f' = seedCache f ++ more.
Proof.
  intros Hok. destruct (resolved m) as [[g p]|] eqn:Hr.
  - rewrite (visit_resolved _ _ _ _ Hr).
    destruct (isSimilarGroup f (Some g)) eqn:Hs; simpl.
    + eexists; split; [done|]. split.
      * unfold frame_ok, accepted; simpl. intros _.
        rewrite isSimilarGroup_compatible in Hs.
        destruct (prevGroup f); [|done]. unfold compatible in Hs.
        exists g. split; [done|]. by destruct (combine g).
      * unfold accepted; simpl. destruct (combine g);
          [by exists []; rewrite app_nil_r|by eexists].
    + destruct (flush_ok (Some g) f Hok) as (f1 & -> & Hst & Hpg & [more Hsc] & _).
      simpl. eexists; split; [done|]. split.
      * unfold frame_ok, accepted; simpl. rewrite Hst.
        destruct (combine g) eqn:Hc; [by eauto|done].
      * unfold accepted; simpl. rewrite Hsc.
        destruct (combine g); [by eexists|].
        eexists. by rewrite <- app_assoc.
  - rewrite (visit_unresolved _ _ Hr). eexists; split; [done|].
    split; [done|]. exists []. by rewrite app_nil_r.
Qed.

Lemma loop_app l1 l2 f :
  loop (l1 ++ l2) f = let* f1 := loop l1 f in loop l2 f1.
Proof.
  revert f. induction l1 as [|m l1 IH]; intros f; simpl; [done|].
  destruct (visit f m) as [f'|e]; simpl; [apply IH|done].
Qed.

(** The loop never throws, and what is emitted is never taken back. *)
Lemma loop_ok modules f :
  frame_ok f →
  ∃ f', loop modules f = Ok f' ∧ frame_ok f' ∧
        ∃ more, seedCache f' = seedCache f ++ more.
Proof.
  revert f. induction modules as [|m modules IH]; intros f Hok; simpl.
  - eexists; split; [done|]. split; [done|]. exists []. by rewrite app_nil_r.
  - destruct (visit_ok f m Hok) as (f1 & -> & Hok1 & more1 & Hsc1). simpl.
    destruct (IH f1 Hok1) as (f2 & -> & Hok2 & more2 & Hsc2).
    eexists; split; [done|]. split; [done|].
    exists (more1 ++ more2). by rewrite Hsc2, Hsc1, app_assoc.
Qed.

Lemma fresh_ok out : frame_ok (fresh out).
Proof. by intros ?. Qed.

Lemma finish_ok modules f :
  frame_ok f →
  ∃ f', finish modules f = Ok f' ∧ stack f' = [] ∧
        ∃ more, seedCache f' = seedCache f ++ more.
Proof.
  intros Hok. rewrite finish_unfold.
  destruct (loop_ok modules f Hok) as (f1 & -> & Hok1 & more1 & Hsc1). simpl.
  destruct (flush_ok None f1 Hok1) as (f2 & -> & Hst & _ & [more2 Hsc2] & _).
  eexists; split; [done|]. split; [done|].
  exists (more1 ++ more2). by rewrite Hsc2, Hsc1, app_assoc.
Qed.

End Loop.

(** ** Compatibility and runs *)

Lemma compatible_spec g1 g2 :
  compatible g1 g2 = true ↔
  combine g1 = true ∧ combine g2 = true ∧
  comboBase g1 = comboBase g2 ∧ comboSep g1 = comboSep g2.
Proof.
  unfold compatible. rewrite !andb_true_iff, !bool_decide_eq_true. tauto.
Qed.

Lemma compatible_refl g : combine g = true → compatible g g = true.
Proof. intros. by apply compatible_spec. Qed.

Lemma compatible_sym g1 g2 : compatible g1 g2 = compatible g2 g1.
Proof.
  apply eq_true_iff_eq. rewrite !compatible_spec. intuition congruence.
Qed.

Lemma compatible_trans g1 g2 g3 :
  compatible g1 g2 = true → compatible g2 g3 = true → compatible g1 g3 = true.
Proof. rewrite !compatible_spec. intuition congruence. Qed.

Lemma compatible_not_combine_r g1 g2 : combine g2 = false → compatible g1 g2 = false.
Proof.
  intros H. apply not_true_is_false. rewrite compatible_spec. intuition congruence.
Qed.

Lemma compatible_not_combine_l g1 g2 : combine g1 = false → compatible g1 g2 = false.
Proof. intros H. rewrite compatible_sym. by apply compatible_not_combine_r. Qed.

Lemma runs_nil_inv l : runs l = [] → l = [].
Proof.
  destruct l as [|x rest]; [done|]. simpl.
  destruct (runs rest) as [|run others]; [done|]. by destruct (joins x run).
Qed.

(** The first run starts with the first module. *)
Lemma runs_head l run others : runs l = run :: others → head run = head l.
Proof.
  destruct l as [|x rest]; [done|]. simpl.
  destruct (runs rest) as [|run' others'].
  - by intros [= <- <-].
  - destruct (joins x run'); by intros [= <- <-].
Qed.

Lemma runs_cons_apart x rest :
  (∀ y, head rest = Some y → compatible x.1 y.1 = false) →
  runs (x :: rest) = [x] :: runs rest.
Proof.
  intros H. simpl. destruct (runs rest) as [|run others] eqn:Hr; [done|].
  apply runs_head in Hr. unfold joins.
  destruct run as [|y run']; [done|]. simpl in Hr.
  by rewrite (H y).
Qed.

Lemma runs_cons_together x y rest run others :
  compatible x.1 y.1 = true → runs (y :: rest) = run :: others →
  runs (x :: y :: rest) = (x :: run) :: others.
Proof.
  intros Hc Hr. change (runs (x :: y :: rest)) with
    (match runs (y :: rest) with
     | run :: others =>
         if joins x run then (x :: run) :: others else [x] :: run :: others
     | [] => [[x]]
     end).
  rewrite Hr. apply runs_head in Hr. destruct run as [|y' run']; [done|].
  simpl in Hr. simplify_eq. simpl. by rewrite Hc.
Qed.

(** A block of modules compatible with one group, followed by a module
    that is not, is a run. *)
Lemma runs_block g block rest :
  block ≠ [] →
  Forall (λ y, compatible y.1 g = true) block →
  (∀ h, head rest = Some h → compatible h.1 g = false) →
  runs (block ++ rest) = block :: runs rest.
Proof.
  intros Hne Hall Hrest. induction block as [|x block IH]; [done|].
  inversion Hall as [|? ? Hx Hall']; subst.
  destruct block as [|y block].
  - simpl. apply runs_cons_apart. intros h Hh.
    apply not_true_is_false. intros Hxh. specialize (Hrest h Hh).
    rewrite (compatible_trans h.1 x.1 g) in Hrest; [done| |done].
    by rewrite compatible_sym.
  - assert (Hxy : compatible x.1 y.1 = true).
    { inversion Hall'; subst. apply (compatible_trans _ g); [done|].
      by rewrite compatible_sym. }
    change ((x :: y :: block) ++ rest) with (x :: y :: (block ++ rest)).
    apply (runs_cons_together x y); [done|]. by apply IH.
Qed.

Lemma descriptor_of_block g block :
  block ≠ [] →
  Forall (λ y, compatible y.1 g = true) block →
  descriptor_of_run block =
  [{| src := js_add (comboBase g) (join (fragment <$> block) (comboSep g)) |}].
Proof.
  intros Hne Hall. destruct block as [|[g1 p1] block]; [done|].
  inversion Hall as [|? ? Hx _]; subst. simpl in Hx.
  apply compatible_spec in Hx as (Hc & _ & Hb & Hs).
  unfold descriptor_of_run. by rewrite Hc, Hb, Hs.
Qed.

Lemma concat_runs l : concat (runs l) = l.
Proof.
  induction l as [|x rest IH]; [done|]. simpl.
  destruct (runs rest) as [|run others].
  - simpl in IH. by subst.
  - destruct (joins x run); simpl in *; by rewrite IH.
Qed.

Lemma render_cons_apart x rest :
  (∀ y, head rest = Some y → compatible x.1 y.1 = false) →
  render (x :: rest) = descriptor_of_run [x] ++ render rest.
Proof. intros H. unfold render. by rewrite runs_cons_apart. Qed.

Lemma render_block g block rest :
  Forall (λ y, compatible y.1 g = true) block →
  (∀ h, head rest = Some h → compatible h.1 g = false) →
  render (block ++ rest) = descriptor_of_run block ++ render rest.
Proof.
  intros Hall Hrest. destruct (decide (block = [])) as [->|Hne]; [done|].
  unfold render. by rewrite (runs_block g).
Qed.

(** ** The loop computes the runs *)

Section Refinement.

Variable cfg : Config.
Variable map : gmap string ModuleEntry.
Variable catalog : gmap string Group.
Variable suffix : string.

Local Abbreviation resolved := (resolved cfg map catalog suffix).
Local Abbreviation visit := (visit cfg map catalog suffix).
Local Abbreviation finish := (finish cfg map catalog suffix).

Lemma pending_fresh out : pending (fresh out) [].
Proof. split; [done|]. simpl. by intros pg [=]. Qed.

Lemma pending_warned f block m : pending f block → pending (warned f m) block.
Proof. done. Qed.

Lemma flush_of_pending ng f block :
  pending f block →
  ∃ f1, flush ng f = Ok f1 ∧ stack f1 = [] ∧ prevGroup f1 = prevGroup f ∧
        seedCache f1 = seedCache f ++ descriptor_of_run block.
Proof.
  intros [Hst Hlast]. destruct (last block) as [x|] eqn:Hl.
  - destruct Hlast as [Hpg Hall].
    assert (Hne : block ≠ []) by (by intros ->).
    assert (Hsne : stack f ≠ []).
    { rewrite Hst. by destruct block. }
    rewrite (flush_pending _ _ _ Hsne Hpg). eexists; split; [done|]. simpl.
    split_and!; [done|done|].
    by rewrite (descriptor_of_block x.1), Hst.
  - apply last_None in Hl as ->. simpl in Hst.
    rewrite (flush_empty _ _ Hst). eexists; split; [done|]. simpl.
    by rewrite app_nil_r.
Qed.

Lemma finish_runs modules f block :
  pending f block →
  ∃ f', finish modules f = Ok f' ∧
        seedCache f' = seedCache f ++ render (block ++ omap resolved modules).
Proof.
  revert f block. induction modules as [|m modules IH]; intros f block Hp.
  - rewrite finish_nil. simpl. rewrite app_nil_r.
    destruct (flush_of_pending None f block Hp) as (f1 & -> & _ & _ & Hsc).
    eexists; split; [done|]. rewrite Hsc. f_equal.
    destruct Hp as [_ Hlast]. destruct (last block) as [x|] eqn:Hl.
    + destruct Hlast as [_ Hall].
      rewrite <- (app_nil_r block) at 2.
      rewrite (render_block x.1); [by rewrite app_nil_r|done|done].
    + by apply last_None in Hl as ->.
  - rewrite finish_cons.
    replace (omap resolved (m :: modules)) with
      (match resolved m with
       | Some x => x :: omap resolved modules
       | None => omap resolved modules
       end) by done.
    destruct (resolved m) as [[g p]|] eqn:Hr.
    2:{ rewrite (visit_unresolved _ _ _ _ _ _ Hr). simpl.
        apply (IH (warned f m) block). by apply pending_warned. }
    rewrite (visit_resolved _ _ _ _ _ _ _ _ Hr).
    rewrite isSimilarGroup_compatible.
    destruct (flush_of_pending (Some g) f block Hp)
      as (f1 & Hflush & Hst1 & _ & Hsc1).
    destruct Hp as [Hst Hlast].
    destruct (prevGroup f) as [pg|] eqn:Hpg;
      [destruct (compatible g pg) eqn:Hc|].
    + (* the module joins the pending run *)
      simpl. apply compatible_spec in Hc as Hc'. destruct Hc' as (Hg & Hcpg & _).
      destruct (last block) as [x|] eqn:Hl.
      2:{ rewrite (Hlast pg) in Hcpg; done. }
      destruct Hlast as [[= ->] Hall].
      destruct (IH (accepted f g p) (block ++ [(g, p)])) as (f' & -> & Hsc).
      { split.
        - unfold accepted; simpl. by rewrite Hg, Hst, fmap_app.
        - rewrite last_snoc. split; [done|]. simpl.
          apply Forall_app. split.
          + eapply Forall_impl; [exact Hall|]. simpl. intros y Hy.
            apply (compatible_trans _ x.1); [done|]. by rewrite compatible_sym.
          + constructor; [|done]. simpl. by apply compatible_refl. }
      eexists; split; [done|]. rewrite Hsc. unfold accepted; simpl.
      by rewrite Hg, <- app_assoc.
    + (* the pending run ends here *)
      rewrite Hflush. simpl.
      assert (Hsplit : render (block ++ (g, p) :: omap resolved modules) =
                descriptor_of_run block ++ render ((g, p) :: omap resolved modules)).
      { destruct (last block) as [x|] eqn:Hl.
        - destruct Hlast as [Hx Hall]. simplify_eq.
          apply (render_block x.1); [done|]. by intros h [= <-].
        - by apply last_None in Hl as ->. }
      rewrite Hsplit. clear Hsplit.
      destruct (combine g) eqn:Hg.
      * destruct (IH (accepted f1 g p) [(g, p)]) as (f' & -> & Hsc).
        { split; [unfold accepted; simpl; by rewrite Hg, Hst1|].
          simpl. split; [done|]. constructor; [|done]. by apply compatible_refl. }
        eexists; split; [done|]. rewrite Hsc. unfold accepted; simpl.
        by rewrite Hg, Hsc1, <- app_assoc.
      * destruct (IH (accepted f1 g p) []) as (f' & -> & Hsc).
        { split; [unfold accepted; simpl; by rewrite Hg, Hst1|].
          simpl. by intros ? [= <-]. }
        eexists; split; [done|]. rewrite Hsc. unfold accepted; simpl.
        rewrite Hg, Hsc1, <- !app_assoc. do 2 f_equal.
        rewrite render_cons_apart.
        -- unfold descriptor_of_run. by rewrite Hg.
        -- intros y _. by apply compatible_not_combine_l.
    + (* first module accepted *)
      rewrite Hflush. simpl.
      assert (block = []) as ->.
      { destruct (last block) as [x|] eqn:Hl; [by destruct Hlast|].
        by apply last_None. }
      simpl in *. rewrite app_nil_r in Hsc1.
      destruct (combine g) eqn:Hg.
      * destruct (IH (accepted f1 g p) [(g, p)]) as (f' & -> & Hsc).
        { split; [unfold accepted; simpl; by rewrite Hg, Hst1|].
          simpl. split; [done|]. constructor; [|done]. by apply compatible_refl. }
        eexists; split; [done|]. rewrite Hsc. unfold accepted; simpl.
        by rewrite Hg, Hsc1.
      * destruct (IH (accepted f1 g p) []) as (f' & -> & Hsc).
        { split; [unfold accepted; simpl; by rewrite Hg, Hst1|].
          simpl. by intros ? [= <-]. }
        eexists; split; [done|]. rewrite Hsc. unfold accepted; simpl.
        rewrite Hg, Hsc1, <- !app_assoc. f_equal.
        rewrite render_cons_apart.
        -- unfold descriptor_of_run. by rewrite Hg.
        -- intros y _. by apply compatible_not_combine_l.
Qed.

(** The descriptors of a whole resolution are those of the runs of the
    resolved modules. *)
Lemma resolve_render modules out :
  ∃ f, resolve cfg map catalog suffix modules out = Ok f ∧
       seedCache f = render (omap resolved modules).
Proof.
  rewrite resolve_finish.
  destruct (finish_runs modules (fresh out) [] (pending_fresh out))
    as (f & Hf & Hsc).
  by exists f.
Qed.

End Refinement.

(** ** What the runs look like *)

Lemma runs_ok l : Forall run_ok (runs l).
Proof.
  induction l as [|x rest IH]; simpl; [done|].
  destruct (runs rest) as [|run others]; [by repeat constructor|].
  inversion IH as [|? ? Hrun Hothers]; subst.
  destruct (joins x run) eqn:Hj; [|by repeat constructor].
  constructor; [|done].
  destruct run as [|y run']; [done|]. simpl in Hj.
  apply compatible_spec in Hj as Hj'. destruct Hj' as (Hx & _).
  simpl. constructor; [by apply compatible_refl|].
  constructor; [done|].
  destruct run' as [|z run'']; [done|].
  simpl in Hrun. inversion Hrun as [|? ? _ Hrest]; subst.
  eapply Forall_impl; [exact Hrest|]. simpl.
  intros w Hw. by apply (compatible_trans _ y.1).
Qed.

Lemma runs_apart l : apart (runs l).
Proof.
  induction l as [|x rest IH]; simpl; [done|].
  pose proof (runs_ok rest) as Hok.
  destruct (runs rest) as [|run others]; [done|].
  inversion Hok as [|? ? Hrun _]; subst.
  destruct (joins x run) eqn:Hj.
  - destruct others as [|r2 others']; [done|].
    destruct IH as [Hlast IH]. split; [|done].
    intros a b Ha Hb. apply (Hlast a b); [|done].
    destruct run; [done|]. by rewrite last_cons_cons in Ha.
  - split; [|done]. intros a b [= <-] Hb.
    destruct run as [|y run']; [done|]. simpl in *. by simplify_eq.
Qed.

Lemma apart_lookup rs i r1 r2 x y :
  apart rs → rs !! i = Some r1 → rs !! S i = Some r2 →
  last r1 = Some x → head r2 = Some y → compatible x.1 y.1 = false.
Proof.
  revert i. induction rs as [|r rs IH]; intros i Hap H1 H2 Hx Hy; [done|].
  destruct rs as [|r' rs']; [done|]. destruct Hap as [Hhere Hap].
  destruct i as [|i]; simpl in *.
  - simplify_eq. by apply Hhere.
  - by apply (IH i).
Qed.

(** Every run is rendered as exactly one descriptor. *)
Lemma render_one_per_run l :
  Forall2 (λ run d, descriptor_of_run run = [d]) (runs l) (render l).
Proof.
  unfold render. pose proof (runs_ok l) as Hok.
  induction (runs l) as [|run rs IH]; simpl; [constructor|].
  inversion Hok as [|? ? Hrun Hrs]; subst.
  destruct run as [|[g p] run']; [done|].
  unfold descriptor_of_run at 2.
  destruct (combine g) eqn:Hg; simpl; (constructor; [|by apply IH]);
    unfold descriptor_of_run; by rewrite Hg.
Qed.

(** Without combinable groups every module is its own run. *)
Lemma render_no_combine l :
  Forall (λ x, combine x.1 = false) l →
  render l = (λ x, {| src := js_add (base x.1) x.2 |}) <$> l.
Proof.
  induction 1 as [|[g p] rest Hx Hrest IH]; [done|].
  rewrite render_cons_apart.
  - simpl in *. unfold descriptor_of_run. rewrite Hx, IH. done.
  - intros y _. by apply compatible_not_combine_l.
Qed.

Lemma render_nil_inv l : render l = [] → l = [].
Proof.
  intros H. pose proof (render_one_per_run l) as H2. rewrite H in H2.
  apply Forall2_nil_inv_r in H2. by apply runs_nil_inv.
Qed.

(** ** Warnings on the console *)

Lemma warnings_app out1 out2 : warnings (out1 ++ out2) = warnings out1 ++ warnings out2.
Proof. apply omap_app. Qed.

Lemma warnings_logs logs :
  Forall (λ e, ∃ g, e = Log g) logs → warnings logs = [].
Proof. induction 1 as [|e logs [g ->] _ IH]; [done|]. exact IH. Qed.

Section Console.

Variable cfg : Config.
Variable map : gmap string ModuleEntry.
Variable catalog : gmap string Group.
Variable suffix : string.

Local Abbreviation resolved := (resolved cfg map catalog suffix).
Local Abbreviation visit := (visit cfg map catalog suffix).
Local Abbreviation loop := (loop cfg map catalog suffix).
Local Abbreviation finish := (finish cfg map catalog suffix).

Lemma flush_warnings ng f :
  frame_ok f →
  ∃ f', flush ng f = Ok f' ∧ frame_ok f' ∧
        warnings (console f') = warnings (console f).
Proof.
  intros Hok.
  destruct (flush_ok ng f Hok) as (f' & Hf & Hst & _ & _ & logs & Hco & Hlogs).
  exists f'. split; [done|]. split; [by intros ?|].
  by rewrite Hco, warnings_app, (warnings_logs logs), app_nil_r.
Qed.

Lemma visit_warnings f m :
  frame_ok f →
  ∃ f', visit f m = Ok f' ∧ frame_ok f' ∧
        warnings (console f') = warnings (console f) ++ (skip_message <$> skipped cfg map catalog suffix [m]).
Proof.
  intros Hok. destruct (visit_ok cfg map catalog suffix f m Hok)
    as (f' & Hv & Hok' & _).
  exists f'. split; [done|]. split; [done|]. unfold skipped. simpl.
  destruct (resolved m) as [[g p]|] eqn:Hr.
  - rewrite bool_decide_false by done. simpl. rewrite app_nil_r.
    rewrite (visit_resolved _ _ _ _ _ _ _ _ Hr) in Hv.
    destruct (isSimilarGroup f (Some g)); simpl in Hv.
    + by simplify_eq.
    + destruct (flush_warnings (Some g) f Hok) as (f1 & Hf1 & _ & Hw).
      rewrite Hf1 in Hv. simpl in Hv. by simplify_eq.
  - rewrite bool_decide_true by done. simpl.
    rewrite (visit_unresolved _ _ _ _ _ _ Hr) in Hv. simplify_eq.
    unfold warned; simpl. by rewrite warnings_app.
Qed.

Lemma skipped_cons m modules :
  skipped cfg map catalog suffix (m :: modules) =
  skipped cfg map catalog suffix [m] ++ skipped cfg map catalog suffix modules.
Proof. unfold skipped. simpl. by destruct (bool_decide _). Qed.

(** One warning per skipped module, in input order, and no other. *)
Lemma finish_warnings modules f :
  frame_ok f →
  ∃ f', finish modules f = Ok f' ∧
        warnings (console f') =
        warnings (console f) ++ (skip_message <$> skipped cfg map catalog suffix modules).
Proof.
  revert f. induction modules as [|m modules IH]; intros f Hok.
  - rewrite finish_nil. destruct (flush_warnings None f Hok) as (f' & -> & _ & Hw).
    exists f'. split; [done|]. unfold skipped. simpl. by rewrite app_nil_r.
  - rewrite finish_cons.
    destruct (visit_warnings f m Hok) as (f1 & -> & Hok1 & Hw1). cbn [bind].
    destruct (IH f1 Hok1) as (f' & -> & Hw).
    exists f'. split; [done|].
    by rewrite (skipped_cons m modules), fmap_app, Hw, Hw1, app_assoc.
Qed.

(** A combinable module ends up at the end of the buffer, and the pass
    emits nothing for it at that point. *)
Lemma visit_combinable f m g p :
  frame_ok f → resolved m = Some (g, p) → combine g = true →
  ∃ f1, (if isSimilarGroup f (Some g) then Ok f else flush (Some g) f) = Ok f1 ∧
        visit f m =
        Ok {| seedCache := seedCache f1;
              stack := stack f1 ++ [js_add (root g) p];
              prevGroup := Some g; console := console f1 |}.
Proof.
  intros Hok Hr Hg. rewrite (visit_resolved _ _ _ _ _ _ _ _ Hr).
  destruct (isSimilarGroup f (Some g)).
  - exists f. split; [done|]. simpl. unfold accepted. by rewrite Hg.
  - destruct (flush_ok (Some g) f Hok) as (f1 & -> & _).
    exists f1. split; [done|]. simpl. unfold accepted. by rewrite Hg.
Qed.

(** Whatever sits in the buffer is emitted, as a prefix of one combo URL
    built from the [comboBase] and [comboSep] of the group that filled it. *)
Lemma buffer_emitted modules f pg :
  stack f ≠ [] → prevGroup f = Some pg → combine pg = true →
  ∃ f' post,
    finish modules f = Ok f' ∧
    {| src := js_add (comboBase pg) (join (stack f ++ post) (comboSep pg)) |}
      ∈ seedCache f'.
Proof.
  revert f pg. induction modules as [|m modules IH]; intros f pg Hne Hpg Hc.
  - rewrite finish_nil, (flush_pending _ _ _ Hne Hpg).
    eexists _, []. split; [done|]. simpl. rewrite app_nil_r.
    apply elem_of_app. right. by apply list_elem_of_singleton.
  - rewrite finish_cons.
    destruct (resolved m) as [[g p]|] eqn:Hr.
    2:{ rewrite (visit_unresolved _ _ _ _ _ _ Hr). simpl.
        by apply (IH (warned f m) pg). }
    rewrite (visit_resolved _ _ _ _ _ _ _ _ Hr).
    rewrite isSimilarGroup_compatible, Hpg.
    destruct (compatible g pg) eqn:Hcomp; simpl.
    + apply compatible_spec in Hcomp as (Hg & _ & Hb & Hs).
      destruct (IH (accepted f g p) g) as (f' & post & Hf & Hin).
      { unfold accepted; simpl. rewrite Hg. by destruct (stack f). }
      { done. } { done. }
      exists f', (js_add (root g) p :: post). split; [done|].
      unfold accepted in Hin; simpl in Hin.
      by rewrite Hg, Hb, Hs, <- app_assoc in Hin.
    + rewrite (flush_pending _ _ _ Hne Hpg). simpl.
      set (f1 := {| seedCache := _; stack := []; prevGroup := Some pg;
                    console := _ |}).
      destruct (finish_ok cfg map catalog suffix modules (accepted f1 g p))
        as (f' & Hf & _ & more & Hsc).
      { unfold frame_ok, accepted; simpl.
        destruct (combine g) eqn:Hg; [by eauto|done]. }
      exists f', []. split; [done|]. rewrite Hsc, app_nil_r.
      apply elem_of_app. left. unfold accepted; simpl.
      destruct (combine g); [|apply elem_of_app; left];
        (apply elem_of_app; right; by apply list_elem_of_singleton).
Qed.

End Console.

(** ** [exposeSeed] on an initialised store *)

Lemma returned_nonempty d ds : d ∈ ds → returned ds = VFunction ds.
Proof.
  intros Hd. unfold returned. rewrite bool_decide_true; [done|].
  destruct ds; [by apply elem_of_nil in Hd|simpl; lia].
Qed.

Lemma returned_false ds : returned ds = VFalse ↔ ds = [].
Proof.
  unfold returned. destruct ds as [|d ds]; [done|].
  rewrite bool_decide_true by (simpl; lia). done.
Qed.

Lemma warnings_elem message out : message ∈ warnings out → Warn message ∈ out.
Proof.
  unfold warnings. rewrite list_elem_of_omap. intros (e & He & Hm).
  destruct e; by simplify_eq.
Qed.

(** The whole call: it succeeds, leaves the store as it found it, returns
    the descriptors of the runs of the resolved modules and warns once per
    skipped module. *)
Lemma exposeSeed_spec cfg reg out :
  ∃ out',
    exposeSeed (initialised cfg reg) out =
      Ok (returned (render (resolved_seed cfg reg)), initialised cfg reg, out') ∧
    warnings out' =
      warnings out ++ (skip_message <$> skippedIn cfg reg (modules_of cfg)).
Proof.
  rewrite exposeSeed_initialised.
  destruct (resolve_render cfg (default ∅ reg) (default ∅ (groups cfg))
              (default_filter cfg) (modules_of cfg) out) as (f & Hf & Hsc).
  destruct (finish_warnings cfg (default ∅ reg) (default ∅ (groups cfg))
              (default_filter cfg) (modules_of cfg) (fresh out) (fresh_ok out))
    as (f' & Hf' & Hw).
  rewrite <- resolve_finish, Hf in Hf'. simplify_eq.
  rewrite Hf. simpl. exists (console f'). by rewrite Hsc.
Qed.

Lemma default_path_truthy m rest : truthy (m +:+ "/" +:+ rest) = true.
Proof. unfold truthy. by destruct m. Qed.

(** Decides whether a given name is one of [Object_prototype]. *)
Ltac decide_name := apply (bool_decide_unpack _); vm_compute; exact I.

Lemma read_own {V} (o : gmap string V) k v : o !! k = Some v → read o k = Own v.
Proof. intros H. unfold read. by rewrite H. Qed.

Lemma read_builtin {V} (o : gmap string V) k :
  o !! k = None → k ∈ Object_prototype → read o k = Builtin.
Proof. intros H Hk. unfold read. by rewrite H, bool_decide_true. Qed.

Lemma read_undefined {V} (o : gmap string V) k :
  o !! k = None → k ∉ Object_prototype → read o k = Undefined.
Proof. intros H Hk. unfold read. by rewrite H, bool_decide_false. Qed.

Lemma assign_lookup {V} (o : gmap string V) k v k' :
  assign k v o !! k' =
  if bool_decide (k = "__proto__" ∧ o !! k = None) then o !! k'
  else if decide (k = k') then Some v else o !! k'.
Proof.
  unfold assign. case_bool_decide; [done|]. by rewrite lookup_insert.
Qed.

Lemma assign_ordinary {V} (o : gmap string V) k v :
  k ≠ "__proto__" → assign k v o = <[k := v]> o.
Proof. intros Hk. unfold assign. rewrite bool_decide_false; [done|]. by intros [? _]. Qed.

Lemma assign_setter {V} (o : gmap string V) k v :
  k = "__proto__" → o !! k = None → assign k v o = o.
Proof. intros ? ?. unfold assign. by rewrite bool_decide_true. Qed.

Lemma assign_insert {V} (o : gmap string V) k v :
  ¬ (k = "__proto__" ∧ o !! k = None) → assign k v o = <[k := v]> o.
Proof. intros ?. unfold assign. by rewrite bool_decide_false. Qed.

Lemma assign_commute {V} (o : gmap string V) k1 v1 k2 v2 :
  k1 ≠ k2 → assign k1 v1 (assign k2 v2 o) = assign k2 v2 (assign k1 v1 o).
Proof.
  intros Hne.
  destruct (decide (k1 = "__proto__" ∧ o !! k1 = None)) as [[H1 H1']|H1];
    destruct (decide (k2 = "__proto__" ∧ o !! k2 = None)) as [[H2 H2']|H2].
  - congruence.
  - rewrite (assign_setter o k1) by done.
    rewrite (assign_insert o k2) by done.
    apply assign_setter; [done|]. by rewrite lookup_insert_ne.
  - rewrite (assign_setter o k2) by done.
    rewrite (assign_insert o k1) by done.
    symmetry. apply assign_setter; [done|]. by rewrite lookup_insert_ne.
  - rewrite (assign_insert o k1), (assign_insert o k2) by done.
    rewrite !assign_insert.
    + by apply insert_insert_ne.
    + by rewrite lookup_insert_ne.
    + by rewrite lookup_insert_ne.
Qed.

Lemma assign_assign {V} (o : gmap string V) k v :
  assign k v (assign k v o) = assign k v o.
Proof.
  destruct (decide (k = "__proto__" ∧ o !! k = None)) as [[Hk Hnone]|Hk].
  - by rewrite !(assign_setter o k).
  - rewrite (assign_insert o k) by done.
    rewrite assign_insert; [by rewrite insert_insert_eq|].
    intros [_ Hnone]. by rewrite lookup_insert_eq in Hnone.
Qed.

Lemma resolvedIn_unregistered cfg reg m :
  default ∅ reg !! m = None → m ∉ Object_prototype →
  resolvedIn cfg reg m =
  Some (as_group cfg, m +:+ "/" +:+ m +:+ default_filter cfg +:+ ".js").
Proof.
  intros H Hm. unfold resolvedIn, resolved, lookup_module.
  rewrite (read_undefined _ _ H Hm). by rewrite default_path_truthy.
Qed.

(** A module that has no entry and is named like a property of
    [Object.prototype] reads as registered, without path. *)
Lemma resolvedIn_inherited cfg reg m :
  default ∅ reg !! m = None → m ∈ Object_prototype →
  resolvedIn cfg reg m = None.
Proof.
  intros H Hm. unfold resolvedIn, resolved, lookup_module.
  rewrite (read_builtin _ _ H Hm).
  by destruct (group_read _ _).
Qed.

Lemma resolvedIn_registered cfg reg m entry g :
  default ∅ reg !! m = Some entry →
  default ∅ (groups cfg) !! group entry = Some g →
  path entry ≠ "" →
  resolvedIn cfg reg m = Some (g, path entry).
Proof.
  intros Hm Hg Hp. unfold resolvedIn, resolved, lookup_module, group_read.
  rewrite (read_own _ _ _ Hm), (read_own _ _ _ Hg).
  unfold truthy. by rewrite bool_decide_false.
Qed.

Lemma resolvedIn_no_group cfg reg m entry :
  default ∅ reg !! m = Some entry →
  default ∅ (groups cfg) !! group entry = None →
  group entry ∉ Object_prototype →
  resolvedIn cfg reg m = None.
Proof.
  intros Hm Hg Hn. unfold resolvedIn, resolved, lookup_module, group_read.
  by rewrite (read_own _ _ _ Hm), (read_undefined _ _ Hg Hn).
Qed.

(** An entry whose group is not in the catalog but is named like a
    property of [Object.prototype] resolves, to the built-in. *)
Lemma resolvedIn_builtin_group cfg reg m entry :
  default ∅ reg !! m = Some entry →
  default ∅ (groups cfg) !! group entry = None →
  group entry ∈ Object_prototype →
  path entry ≠ "" →
  resolvedIn cfg reg m = Some (builtin_group, path entry).
Proof.
  intros Hm Hg Hn Hp. unfold resolvedIn, resolved, lookup_module, group_read.
  rewrite (read_own _ _ _ Hm), (read_builtin _ _ Hg Hn).
  unfold truthy. by rewrite bool_decide_false.
Qed.

Lemma resolvedIn_no_path cfg reg m entry :
  default ∅ reg !! m = Some entry → path entry = "" →
  resolvedIn cfg reg m = None.
Proof.
  intros Hm Hp. unfold resolvedIn, resolved, lookup_module.
  rewrite (read_own _ _ _ Hm), Hp.
  by destruct (group_read _ _).
Qed.

(** Removing a skipped module from the seed changes nothing but the
    console. *)
Lemma exposeSeed_skip cfg reg out l1 m l2 :
  modules_of cfg = l1 ++ m :: l2 →
  resolvedIn cfg reg m = None →
  ∃ v out' out'',
    exposeSeed (initialised cfg reg) out = Ok (v, initialised cfg reg, out') ∧
    Warn (skip_message m) ∈ out' ∧
    exposeSeed (initialised (with_seed (l1 ++ l2) cfg) reg) out =
      Ok (v, initialised (with_seed (l1 ++ l2) cfg) reg, out'').
Proof.
  intros Hmods Hm.
  destruct (exposeSeed_spec cfg reg out) as (out' & He & Hw).
  destruct (exposeSeed_spec (with_seed (l1 ++ l2) cfg) reg out) as (out'' & He' & _).
  exists (returned (render (resolved_seed cfg reg))), out', out''.
  split; [done|]. split.
  - apply warnings_elem. rewrite Hw, Hmods. apply elem_of_app. right.
    apply list_elem_of_fmap. exists m. split; [done|].
    unfold skippedIn, skipped. apply list_elem_of_In, filter_In. split.
    + apply in_app_iff. right. by left.
    + by apply bool_decide_eq_true.
  - rewrite He'. replace (resolved_seed (with_seed (l1 ++ l2) cfg) reg)
      with (resolved_seed cfg reg); [done|].
    unfold resolved_seed. rewrite Hmods.
    change (modules_of (with_seed (l1 ++ l2) cfg)) with (l1 ++ l2).
    change (resolvedIn (with_seed (l1 ++ l2) cfg) reg) with (resolvedIn cfg reg).
    rewrite !omap_app. simpl. by rewrite Hm.
Qed.

(** ** Where a combinable module ends up *)

Section Merging.

Variable cfg : Config.
Variable map : gmap string ModuleEntry.
Variable catalog : gmap string Group.
Variable suffix : string.

Local Abbreviation resolved := (resolved cfg map catalog suffix).
Local Abbreviation visit := (visit cfg map catalog suffix).
Local Abbreviation loop := (loop cfg map catalog suffix).
Local Abbreviation finish := (finish cfg map catalog suffix).

(** A combinable module is emitted inside a combo URL of its own group's
    [comboBase] and [comboSep]. *)
Lemma combinable_emitted l1 m l2 g p f0 :
  frame_ok f0 → resolved m = Some (g, p) → combine g = true →
  ∃ f' pre post,
    finish (l1 ++ m :: l2) f0 = Ok f' ∧
    {| src := js_add (comboBase g)
                (join (pre ++ js_add (root g) p :: post) (comboSep g)) |}
      ∈ seedCache f'.
Proof.
  intros Hok Hr Hg. rewrite finish_app.
  destruct (loop_ok cfg map catalog suffix l1 f0 Hok) as (f1 & -> & Hok1 & _).
  cbn [bind]. rewrite finish_cons.
  destruct (visit_combinable cfg map catalog suffix f1 m g p Hok1 Hr Hg)
    as (f2 & _ & ->). cbn [bind].
  set (f3 := {| seedCache := seedCache f2; stack := _; prevGroup := Some g;
                console := _ |}).
  destruct (buffer_emitted cfg map catalog suffix l2 f3 g) as (f' & post & -> & Hin).
  { simpl. by destruct (stack f2). } { done. } { done. }
  exists f', (stack f2), post. split; [done|].
  simpl in Hin. by rewrite <- app_assoc in Hin.
Qed.

(** Two compatible modules separated by a skipped one are emitted side
    by side in one combo URL. *)
Lemma merged_across_skip l1 a u b l2 ga pa gb pb f0 :
  frame_ok f0 →
  resolved a = Some (ga, pa) → resolved u = None → resolved b = Some (gb, pb) →
  compatible ga gb = true →
  ∃ f' pre post,
    finish (l1 ++ a :: u :: b :: l2) f0 = Ok f' ∧
    {| src := js_add (comboBase ga)
                (join (pre ++ js_add (root ga) pa :: js_add (root gb) pb :: post)
                   (comboSep ga)) |}
      ∈ seedCache f'.
Proof.
  intros Hok Ha Hu Hb Hc.
  apply compatible_spec in Hc as Hc'. destruct Hc' as (Hga & Hgb & Hbase & Hsep).
  rewrite finish_app.
  destruct (loop_ok cfg map catalog suffix l1 f0 Hok) as (f1 & -> & Hok1 & _).
  cbn [bind]. rewrite finish_cons.
  destruct (visit_combinable cfg map catalog suffix f1 a ga pa Hok1 Ha Hga)
    as (f2 & _ & ->). cbn [bind].
  rewrite finish_cons, (visit_unresolved _ _ _ _ _ _ Hu). cbn [bind].
  rewrite finish_cons, (visit_resolved _ _ _ _ _ _ _ _ Hb).
  rewrite isSimilarGroup_compatible. cbn [warned prevGroup].
  rewrite (compatible_sym gb ga), Hc. cbn [bind].
  unfold accepted, warned. cbn [seedCache stack prevGroup console].
  rewrite Hgb.
  set (f3 := {| seedCache := seedCache f2; stack := _; prevGroup := Some gb;
                console := _ |}).
  destruct (buffer_emitted cfg map catalog suffix l2 f3 gb) as (f' & post & -> & Hin).
  { simpl. by destruct (stack f2). } { done. } { done. }
  exists f', (stack f2), post. split; [done|].
  simpl in Hin. by rewrite <- !app_assoc, <- Hbase, <- Hsep in Hin.
Qed.

End Merging.

Lemma omap_cons_Some {A B} (f : A → option B) x y l :
  f x = Some y → omap f (x :: l) = y :: omap f l.
Proof. intros H. simpl. by rewrite H. Qed.

Lemma omap_cons_None {A B} (f : A → option B) x l :
  f x = None → omap f (x :: l) = omap f l.
Proof. intros H. simpl. by rewrite H. Qed.

Lemma render_single x : render [x] = descriptor_of_run [x].
Proof. unfold render. simpl. by rewrite app_nil_r. Qed.

Lemma render_pair x y :
  compatible x.1 y.1 = true → render [x; y] = descriptor_of_run [x; y].
Proof. intros H. unfold render. simpl. rewrite H. simpl. by rewrite app_nil_r. Qed.

(** The value returned holds every descriptor the pass emitted. *)
Lemma exposeSeed_emitted cfg reg out f d :
  finish cfg (default ∅ reg) (default ∅ (groups cfg)) (default_filter cfg)
    (modules_of cfg) (fresh out) = Ok f →
  d ∈ seedCache f →
  seedCache f = render (resolved_seed cfg reg) ∧
  ∃ out', exposeSeed (initialised cfg reg) out =
            Ok (VFunction (seedCache f), initialised cfg reg, out').
Proof.
  intros Hf Hd.
  destruct (resolve_render cfg (default ∅ reg) (default ∅ (groups cfg))
              (default_filter cfg) (modules_of cfg) out) as (f' & Hf' & Hsc).
  rewrite resolve_finish, Hf in Hf'. simplify_eq. split; [done|].
  destruct (exposeSeed_spec cfg reg out) as (out' & He & _).
  exists out'. rewrite He.
  replace (render (resolved_seed cfg reg)) with (seedCache f') by done.
  by rewrite (returned_nonempty d).
Qed.

(** ** The properties *)

(** A module without registry entry whose name is not that of a property
    of [Object.prototype] is resolved with the path
    [m + '/' + m + suffix + '.js'], where the suffix is [''] for the filter
    [raw], ['-debug'] for [debug] and ['-min'] for every other filter
    value and for a missing filter. *)
Lemma default_suffix cfg reg m :
  default ∅ reg !! m = None → m ∉ Object_prototype →
  ∃ sfx,
    lookup_module cfg (default ∅ reg) (default ∅ (groups cfg))
      (default_filter cfg) m =
      (Some (as_group cfg), m +:+ "/" +:+ m +:+ sfx +:+ ".js") ∧
    resolvedIn cfg reg m = Some (as_group cfg, m +:+ "/" +:+ m +:+ sfx +:+ ".js") ∧
    (filter cfg = Some "raw" → sfx = "") ∧
    (filter cfg = Some "debug" → sfx = "-debug") ∧
    (filter cfg ≠ Some "raw" → filter cfg ≠ Some "debug" → sfx = "-min").
Proof.
  intros Hm Hn. exists (default_filter cfg). split_and!.
  - unfold lookup_module. by rewrite (read_undefined _ _ Hm Hn).
  - by apply resolvedIn_unregistered.
  - rewrite default_filter_spec. by intros ->.
  - rewrite default_filter_spec. by intros ->.
  - rewrite default_filter_spec. unfold spec_suffix. intros ? ?.
    by repeat case_decide.
Qed.

Lemma default_suffix_witness :
  resolvedIn (sample_config plain_group None ["foo"]) (Some sample_registry) "foo"
    = Some (plain_group, "foo/foo-min.js") ∧
  resolvedIn (sample_config plain_group (Some "min") ["foo"]) None "foo"
    = Some (plain_group, "foo/foo-min.js") ∧
  resolvedIn (sample_config plain_group (Some "compressed") ["foo"]) None "foo"
    = Some (plain_group, "foo/foo-min.js") ∧
  resolvedIn (sample_config plain_group (Some "debug") ["foo"]) None "foo"
    = Some (plain_group, "foo/foo-debug.js") ∧
  resolvedIn (sample_config plain_group (Some "raw") ["foo"]) None "foo"
    = Some (plain_group, "foo/foo.js").
Proof.
  split_and!.
  - destruct (default_suffix (sample_config plain_group None ["foo"])
                (Some sample_registry) "foo") as (sfx & _ & -> & _ & _ & Hmin);
      [vm_compute; reflexivity|decide_name|].
    rewrite Hmin; [reflexivity|discriminate|discriminate].
  - destruct (default_suffix (sample_config plain_group (Some "min") ["foo"])
                None "foo") as (sfx & _ & -> & _ & _ & Hmin);
      [vm_compute; reflexivity|decide_name|].
    rewrite Hmin; [reflexivity|discriminate|discriminate].
  - destruct (default_suffix (sample_config plain_group (Some "compressed") ["foo"])
                None "foo") as (sfx & _ & -> & _ & _ & Hmin);
      [vm_compute; reflexivity|decide_name|].
    rewrite Hmin; [reflexivity|discriminate|discriminate].
  - destruct (default_suffix (sample_config plain_group (Some "debug") ["foo"])
                None "foo") as (sfx & _ & -> & _ & Hdebug & _);
      [vm_compute; reflexivity|decide_name|].
    rewrite Hdebug; reflexivity.
  - destruct (default_suffix (sample_config plain_group (Some "raw") ["foo"])
                None "foo") as (sfx & _ & -> & Hraw & _);
      [vm_compute; reflexivity|decide_name|].
    rewrite Hraw; reflexivity.
Defined.

(** C4, as the specification states it, fails for a module named like a
    property of [Object.prototype].  [map[m]] at line 250 is read without the
    [hasOwnProperty] test that guards [FILTERS_MAP] at line 243: it finds
    the built-in and the module is taken for a registered one, without
    path.  With no registry at all and the filter [debug], the module
    [constructor] is skipped and the call returns [false], where [foo]
    is resolved to [foo/foo-debug.js]. *)
Theorem default_suffix_inherited_name :
  default ∅ (@None (gmap string ModuleEntry)) !! "constructor" = None ∧
  resolvedIn (sample_config plain_group (Some "debug") ["constructor"]) None
    "constructor" = None ∧
  exposeSeed (initialised (sample_config plain_group (Some "debug") ["constructor"])
                None) [] =
    Ok (VFalse,
        initialised (sample_config plain_group (Some "debug") ["constructor"]) None,
        [Warn (skip_message "constructor")]) ∧
  exposeSeed (initialised (sample_config plain_group (Some "debug") ["foo"])
                None) [] =
    Ok (VFunction [{| src := "/static/foo/foo-debug.js" |}],
        initialised (sample_config plain_group (Some "debug") ["foo"]) None,
        []).
Proof. split_and!; vm_compute; reflexivity. Qed.

(** C5.  A module that cannot be resolved is skipped: the call still
    succeeds, the console carries the warning that names the module, and
    the value returned is the one returned for the seed without that
    module, which is made of the descriptors of all the other modules. *)
Theorem unresolvable_module_skipped cfg reg out l1 m l2 :
  modules_of cfg = l1 ++ m :: l2 →
  resolvedIn cfg reg m = None →
  ∃ v out' out'',
    exposeSeed (initialised cfg reg) out = Ok (v, initialised cfg reg, out') ∧
    Warn (skip_message m) ∈ out' ∧
    warnings out' =
      warnings out ++ (skip_message <$> skippedIn cfg reg (l1 ++ m :: l2)) ∧
    exposeSeed (initialised (with_seed (l1 ++ l2) cfg) reg) out =
      Ok (v, initialised (with_seed (l1 ++ l2) cfg) reg, out'') ∧
    v = returned (render (omap (resolvedIn cfg reg) (l1 ++ l2))).
Proof.
  intros Hmods Hm.
  destruct (exposeSeed_skip cfg reg out l1 m l2 Hmods Hm)
    as (v & out' & out'' & He & Hin & He').
  destruct (exposeSeed_spec cfg reg out) as (out1 & He1 & Hw).
  destruct (exposeSeed_spec (with_seed (l1 ++ l2) cfg) reg out) as (out2 & He2 & _).
  rewrite He in He1. rewrite He' in He2. simplify_eq.
  eexists _, out1, out2. split_and!; try done.
  by rewrite Hw, Hmods.
Qed.

Lemma unresolvable_module_skipped_witness :
  ∃ v out' out'',
    exposeSeed (initialised (sample_config plain_group None ["a"; "zz"; "b"])
                  (Some sample_registry)) [] =
      Ok (v, initialised (sample_config plain_group None ["a"; "zz"; "b"])
               (Some sample_registry), out') ∧
    Warn (skip_message "zz") ∈ out' ∧
    warnings out' =
      warnings [] ++
      (skip_message <$> skippedIn (sample_config plain_group None ["a"; "zz"; "b"])
                          (Some sample_registry) (["a"] ++ "zz" :: ["b"])) ∧
    exposeSeed (initialised
                  (with_seed (["a"] ++ ["b"])
                     (sample_config plain_group None ["a"; "zz"; "b"]))
                  (Some sample_registry)) [] =
      Ok (v, initialised
               (with_seed (["a"] ++ ["b"])
                  (sample_config plain_group None ["a"; "zz"; "b"]))
               (Some sample_registry), out'') ∧
    v = returned (render (omap (resolvedIn
                                  (sample_config plain_group None ["a"; "zz"; "b"])
                                  (Some sample_registry)) (["a"] ++ ["b"]))).
Proof.
  apply (unresolvable_module_skipped
           (sample_config plain_group None ["a"; "zz"; "b"])
           (Some sample_registry) [] ["a"] "zz" ["b"]).
  - reflexivity.
  - vm_compute. reflexivity.
Defined.

(** C6, as the specification states it, fails: with an empty seed no
    module resolves, and the value returned is [false], not an empty
    array. *)
Lemma empty_seed_returns_false :
  resolved_seed (sample_config plain_group None []) (Some sample_registry) = [] ∧
  exposeSeed (initialised (sample_config plain_group None [])
                (Some sample_registry)) [] =
    Ok (VFalse,
        initialised (sample_config plain_group None []) (Some sample_registry),
        []) ∧
  VFalse ≠ VArray [].
Proof. split_and!; [reflexivity|reflexivity|discriminate]. Qed.

(** C6, amended.  The call returns [false] exactly when no module of the
    seed resolves, in particular for an empty seed; otherwise it returns
    the middleware, whose captured array is not empty and is what the
    middleware exposes.  It never returns an array. *)
Theorem nothing_resolved_returns_false cfg reg out :
  ∃ v out',
    exposeSeed (initialised cfg reg) out = Ok (v, initialised cfg reg, out') ∧
    (v = VFalse ↔ resolved_seed cfg reg = []) ∧
    (seed cfg = Some [] → v = VFalse) ∧
    (∀ ds, v ≠ VArray ds) ∧
    (v = VFalse ∨
     ∃ ds, ds ≠ [] ∧ v = VFunction ds ∧ call_middleware v = Some (VArray ds)).
Proof.
  destruct (exposeSeed_spec cfg reg out) as (out' & He & _).
  exists (returned (render (resolved_seed cfg reg))), out'.
  split; [done|]. split_and!.
  - rewrite returned_false. split; [apply render_nil_inv|by intros ->].
  - intros Hs. apply returned_false. unfold resolved_seed, modules_of.
    by rewrite Hs.
  - intros ds. unfold returned. by case_bool_decide.
  - unfold returned. case_bool_decide as Hlen; [right|by left].
    eexists. split; [|done]. intros Hnil. rewrite Hnil in Hlen. simpl in Hlen. lia.
Qed.

(** C7.  A call changes nothing that a later call reads: the store it
    leaves is the store of an initialised [yui] (it is the same store
    unless [yui.locals.yui] was missing, in which case the call has
    created the empty configuration that it used), the registry is
    untouched, and a second call on the store left behind, whatever the
    console holds, returns the same value and leaves the same store. *)
Theorem exposeSeed_repeatable s out v s' out' :
  exposeSeed s out = Ok (v, s', out') →
  (∀ out2, ∃ out2', exposeSeed s' out2 = Ok (v, s', out2')) ∧
  (∀ out2, ∃ out2', exposeSeed s out2 = Ok (v, s', out2')) ∧
  _map s' = _map s ∧
  (∀ cfg, locals s = Some {| yui := Some cfg |} → s' = s) ∧
  (∃ cfg, s' = initialised cfg (_map s) ∧ config s = Ok (cfg, s') ∧
          config s' = Ok (cfg, s')).
Proof.
  destruct s as [[[[cfg|]]|] reg]; [| |done].
  - change {| locals := _; _map := reg |} with (initialised cfg reg).
    intros He. destruct (exposeSeed_spec cfg reg out) as (o & He1 & _).
    rewrite He in He1. simplify_eq.
    split_and!; try done.
    + intros out2. destruct (exposeSeed_spec cfg reg out2) as (o2 & -> & _). eauto.
    + intros out2. destruct (exposeSeed_spec cfg reg out2) as (o2 & -> & _). eauto.
    + by exists cfg.
  - change (exposeSeed _ out) with (exposeSeed (initialised empty_config reg) out).
    intros He. destruct (exposeSeed_spec empty_config reg out) as (o & He1 & _).
    rewrite He in He1. simplify_eq.
    split_and!; try done.
    + intros out2.
      destruct (exposeSeed_spec empty_config reg out2) as (o2 & -> & _). eauto.
    + intros out2.
      change (exposeSeed _ out2) with (exposeSeed (initialised empty_config reg) out2).
      destruct (exposeSeed_spec empty_config reg out2) as (o2 & -> & _). eauto.
    + by exists empty_config.
Qed.

Lemma exposeSeed_repeatable_witness :
  (∀ out2, ∃ out2',
     exposeSeed (initialised (sample_config plain_group None ["a"; "b"; "c"])
                   (Some sample_registry)) out2 =
     Ok (VFunction [{| src := "/combo?r/pathA&l/pathB" |};
                    {| src := "/static/pathC" |}],
         initialised (sample_config plain_group None ["a"; "b"; "c"])
           (Some sample_registry), out2')) ∧
  (∀ out2, ∃ out2',
     exposeSeed {| locals := Some {| yui := None |}; _map := None |} out2 =
     Ok (VFunction [{| src := "undefinedyui-base/yui-base-min.js" |}],
         initialised empty_config None, out2')).
Proof.
  split.
  - apply (exposeSeed_repeatable
             (initialised (sample_config plain_group None ["a"; "b"; "c"])
                (Some sample_registry)) []
             (VFunction [{| src := "/combo?r/pathA&l/pathB" |};
                         {| src := "/static/pathC" |}])
             (initialised (sample_config plain_group None ["a"; "b"; "c"])
                (Some sample_registry))
             [Log lib_group]).
    vm_compute. reflexivity.
  - apply (exposeSeed_repeatable
             {| locals := Some {| yui := None |}; _map := None |} []
             (VFunction [{| src := "undefinedyui-base/yui-base-min.js" |}])
             (initialised empty_config None) []).
    vm_compute. reflexivity.
Defined.

(** A module whose registry entry names a group that the catalog does not
    have, and that is not the name of a property of [Object.prototype],
    is skipped, whatever path the entry carries, and so is a module whose
    registry entry has the empty path: such a module does not resolve,
    its visit only adds the warning, and the call returns what it returns
    for the seed without the module. *)
Lemma registered_without_group_or_path_skipped cfg reg out l1 m l2 entry :
  modules_of cfg = l1 ++ m :: l2 →
  default ∅ reg !! m = Some entry →
  (default ∅ (groups cfg) !! group entry = None ∧
   group entry ∉ Object_prototype) ∨ path entry = "" →
  resolvedIn cfg reg m = None ∧
  (∀ f, visit cfg (default ∅ reg) (default ∅ (groups cfg)) (default_filter cfg) f m =
        Ok {| seedCache := seedCache f; stack := stack f;
              prevGroup := prevGroup f;
              console := console f ++ [Warn (skip_message m)] |}) ∧
  ∃ v out' out'',
    exposeSeed (initialised cfg reg) out = Ok (v, initialised cfg reg, out') ∧
    Warn (skip_message m) ∈ out' ∧
    exposeSeed (initialised (with_seed (l1 ++ l2) cfg) reg) out =
      Ok (v, initialised (with_seed (l1 ++ l2) cfg) reg, out'').
Proof.
  intros Hmods Hm Hbad.
  assert (Hr : resolvedIn cfg reg m = None).
  { destruct Hbad as [[Hg Hn]|Hp].
    - by apply (resolvedIn_no_group _ _ _ entry).
    - by apply (resolvedIn_no_path _ _ _ entry). }
  split; [done|]. split.
  - intros f. by rewrite (visit_unresolved _ _ _ _ _ _ Hr).
  - by apply exposeSeed_skip.
Qed.

Lemma registered_without_group_or_path_skipped_witness :
  (resolvedIn (sample_config plain_group None ["a"; "zz"; "c"])
     (Some sample_registry) "zz" = None ∧
   ∃ v out' out'',
     exposeSeed (initialised (sample_config plain_group None ["a"; "zz"; "c"])
                   (Some sample_registry)) [] =
       Ok (v, initialised (sample_config plain_group None ["a"; "zz"; "c"])
                (Some sample_registry), out') ∧
     Warn (skip_message "zz") ∈ out' ∧
     exposeSeed (initialised
                   (with_seed (["a"] ++ ["c"])
                      (sample_config plain_group None ["a"; "zz"; "c"]))
                   (Some sample_registry)) [] =
       Ok (v, initialised
                (with_seed (["a"] ++ ["c"])
                   (sample_config plain_group None ["a"; "zz"; "c"]))
                (Some sample_registry), out'')) ∧
  resolvedIn (sample_config plain_group None ["e"])
    (Some sample_registry) "e" = None.
Proof.
  split.
  - destruct (registered_without_group_or_path_skipped
                (sample_config plain_group None ["a"; "zz"; "c"])
                (Some sample_registry) [] ["a"] "zz" ["c"]
                {| group := "nowhere"; path := "pathZ" |})
      as (Hr & _ & Hskip).
    + reflexivity.
    + vm_compute. reflexivity.
    + left. split; [vm_compute; reflexivity|decide_name].
    + split; [exact Hr|exact Hskip].
  - destruct (registered_without_group_or_path_skipped
                (sample_config plain_group None ["e"])
                (Some sample_registry) [] [] "e" []
                {| group := "app"; path := "" |})
      as (Hr & _ & _).
    + reflexivity.
    + vm_compute. reflexivity.
    + right. reflexivity.
    + exact Hr.
Defined.

(** C10, as the specification states it, fails for a registry entry whose
    group is named like a property of [Object.prototype].
    [groups[...]] at line 252 is read
    without a [hasOwnProperty] test, so for the group name [constructor],
    which the catalog does not have, it yields the built-in: the group is
    truthy and not combinable, and the module is not skipped but emitted
    as [undefined + path], without a warning. *)
Theorem registered_inherited_group_emitted :
  sample_catalog !! "constructor" = None ∧
  resolvedIn (sample_config plain_group None ["x"])
    (Some (<["x" := {| group := "constructor"; path := "pathX" |}]> sample_registry))
    "x" = Some (builtin_group, "pathX") ∧
  exposeSeed
    (initialised (sample_config plain_group None ["x"])
       (Some (<["x" := {| group := "constructor"; path := "pathX" |}]>
                sample_registry))) [] =
    Ok (VFunction [{| src := "undefinedpathX" |}],
        initialised (sample_config plain_group None ["x"])
          (Some (<["x" := {| group := "constructor"; path := "pathX" |}]>
                   sample_registry)),
        []).
Proof. split_and!; vm_compute; reflexivity. Qed.

(** C1, as the specification states it, fails when a registry path is
    empty: [e] and [b] are mapped to combinable groups with the same
    [comboBase] and [comboSep], yet [e] is skipped and the only descriptor
    is the combo URL of [b] alone, not the URL built from both paths. *)
Lemma merge_two_empty_path :
  modules_of (sample_config plain_group None ["e"; "b"]) = ["e"; "b"] ∧
  sample_registry !! "e" = Some {| group := "app"; path := "" |} ∧
  sample_registry !! "b" = Some {| group := "lib"; path := "pathB" |} ∧
  sample_catalog !! "app" = Some app_group ∧
  sample_catalog !! "lib" = Some lib_group ∧
  combine app_group = true ∧ combine lib_group = true ∧
  comboBase app_group = comboBase lib_group ∧
  comboSep app_group = comboSep lib_group ∧
  exposeSeed (initialised (sample_config plain_group None ["e"; "b"])
                (Some sample_registry)) [] =
    Ok (VFunction [{| src := "/combo?l/pathB" |}],
        initialised (sample_config plain_group None ["e"; "b"])
          (Some sample_registry),
        [Warn (skip_message "e"); Log lib_group]) ∧
  js_add (comboBase app_group)
    (join [js_add (root app_group) ""; js_add (root lib_group) "pathB"]
       (comboSep app_group)) = "/combo?r/&l/pathB" ∧
  "/combo?l/pathB" ≠ "/combo?r/&l/pathB".
Proof. split_and!; try (vm_compute; reflexivity). discriminate. Qed.

(** C1, amended.  For a seed of two modules whose registry entries have
    non-empty paths and name groups of the catalog (the same group or two
    groups) that are combinable and agree on [comboBase] and [comboSep],
    the call exposes exactly one descriptor: [comboBase], then the root
    and path of the first module, the separator, and the root and path of
    the second module. *)
Theorem merge_two cfg reg out a b ea eb gA gB :
  modules_of cfg = [a; b] →
  default ∅ reg !! a = Some ea → default ∅ reg !! b = Some eb →
  default ∅ (groups cfg) !! group ea = Some gA →
  default ∅ (groups cfg) !! group eb = Some gB →
  combine gA = true → combine gB = true →
  comboBase gA = comboBase gB → comboSep gA = comboSep gB →
  path ea ≠ "" → path eb ≠ "" →
  ∃ out',
    exposeSeed (initialised cfg reg) out =
    Ok (VFunction
          [{| src := ToString (comboBase gA) +:+
                     (ToString (root gA) +:+ path ea) +:+
                     default "," (comboSep gA) +:+
                     (ToString (root gB) +:+ path eb) |}],
        initialised cfg reg, out').
Proof.
  intros Hmods Ha Hb HgA HgB HcA HcB Hbase Hsep Hpa Hpb.
  destruct (exposeSeed_spec cfg reg out) as (out' & He & _).
  exists out'. rewrite He. unfold resolved_seed. rewrite Hmods.
  rewrite (omap_cons_Some _ a (gA, path ea))
    by by apply (resolvedIn_registered _ _ _ ea).
  rewrite (omap_cons_Some _ b (gB, path eb))
    by by apply (resolvedIn_registered _ _ _ eb).
  change (omap _ []) with (@nil (Group * string)).
  rewrite render_pair by (by apply compatible_spec).
  unfold descriptor_of_run. rewrite HcA. done.
Qed.

Lemma merge_two_witness :
  ∃ out',
    exposeSeed (initialised (sample_config plain_group None ["a"; "b"])
                  (Some sample_registry)) [] =
    Ok (VFunction [{| src := "/combo?r/pathA&l/pathB" |}],
        initialised (sample_config plain_group None ["a"; "b"])
          (Some sample_registry), out').
Proof.
  apply (merge_two (sample_config plain_group None ["a"; "b"])
           (Some sample_registry) [] "a" "b"
           {| group := "app"; path := "pathA" |}
           {| group := "lib"; path := "pathB" |} app_group lib_group);
    try (vm_compute; reflexivity); discriminate.
Defined.

(** C2.  The descriptors exposed are those of the runs of the resolved
    modules, one descriptor per run and in the order of the runs.  The
    runs are consecutive pieces of the resolved seed, in seed order; a
    run of several modules consists of modules with compatible groups;
    neighbouring runs cannot be merged.  When no resolved module has a
    combinable group, there is one descriptor per resolved module, in
    seed order, with [src = base + path]. *)
Theorem order_preserved cfg reg out :
  ∃ ds out',
    exposeSeed (initialised cfg reg) out =
      Ok (returned ds, initialised cfg reg, out') ∧
    Forall2 (λ run d, descriptor_of_run run = [d])
      (runs (resolved_seed cfg reg)) ds ∧
    concat (runs (resolved_seed cfg reg)) = resolved_seed cfg reg ∧
    Forall run_ok (runs (resolved_seed cfg reg)) ∧
    (∀ i r1 r2 x y,
       runs (resolved_seed cfg reg) !! i = Some r1 →
       runs (resolved_seed cfg reg) !! S i = Some r2 →
       last r1 = Some x → head r2 = Some y → compatible x.1 y.1 = false) ∧
    (Forall (λ x, combine x.1 = false) (resolved_seed cfg reg) →
     ds = (λ x, {| src := js_add (base x.1) x.2 |}) <$> resolved_seed cfg reg).
Proof.
  destruct (exposeSeed_spec cfg reg out) as (out' & He & _).
  exists (render (resolved_seed cfg reg)), out'. split_and!.
  - done.
  - apply render_one_per_run.
  - apply concat_runs.
  - apply runs_ok.
  - intros i r1 r2 x y. apply apart_lookup, runs_apart.
  - apply render_no_combine.
Qed.

(** C3.  For a seed [a, b, c] where [a] and [c] resolve to one combinable
    group and [b] to a non-combinable group, three descriptors are
    exposed: the combo URL of [a] alone, the plain URL of [b] and the
    combo URL of [c] alone.  More generally, visiting a combinable module
    when the previous group is not combinable leaves a buffer that holds
    this module only. *)
Theorem run_boundary cfg reg out a b c g gb pa pb pc :
  modules_of cfg = [a; b; c] →
  resolvedIn cfg reg a = Some (g, pa) →
  resolvedIn cfg reg b = Some (gb, pb) →
  resolvedIn cfg reg c = Some (g, pc) →
  combine g = true → combine gb = false →
  (∃ out',
     exposeSeed (initialised cfg reg) out =
     Ok (VFunction
           [{| src := js_add (comboBase g) (js_add (root g) pa) |};
            {| src := js_add (base gb) pb |};
            {| src := js_add (comboBase g) (js_add (root g) pc) |}],
         initialised cfg reg, out')) ∧
  (∀ f, prevGroup f = Some gb →
        ∃ f', visit cfg (default ∅ reg) (default ∅ (groups cfg))
                (default_filter cfg) f c = Ok f' ∧
              stack f' = [js_add (root g) pc] ∧ prevGroup f' = Some g).
Proof.
  intros Hmods Ha Hb Hc Hg Hgb. split.
  - destruct (exposeSeed_spec cfg reg out) as (out' & He & _).
    exists out'. rewrite He. unfold resolved_seed. rewrite Hmods.
    rewrite (omap_cons_Some _ a _ _ Ha), (omap_cons_Some _ b _ _ Hb),
      (omap_cons_Some _ c _ _ Hc).
    change (omap _ []) with (@nil (Group * string)).
    rewrite render_cons_apart
      by (intros y [= <-]; by apply compatible_not_combine_r).
    rewrite render_cons_apart
      by (intros y [= <-]; by apply compatible_not_combine_l).
    rewrite render_single. unfold descriptor_of_run. by rewrite Hg, Hgb.
  - intros f Hprev. rewrite (visit_resolved _ _ _ _ _ _ _ _ Hc).
    rewrite isSimilarGroup_compatible, Hprev.
    rewrite compatible_not_combine_r by done.
    destruct (decide (stack f = [])) as [Hst|Hst].
    + rewrite (flush_empty _ _ Hst). eexists. split; [done|].
      unfold accepted. simpl. by rewrite Hg.
    + rewrite (flush_pending _ _ _ Hst Hprev). eexists. split; [done|].
      unfold accepted. simpl. by rewrite Hg.
Qed.

Lemma run_boundary_witness :
  (∃ out',
     exposeSeed (initialised (sample_config plain_group None ["a"; "c"; "d"])
                   (Some sample_registry)) [] =
     Ok (VFunction [{| src := "/combo?r/pathA" |};
                    {| src := "/static/pathC" |};
                    {| src := "/combo?r/pathD" |}],
         initialised (sample_config plain_group None ["a"; "c"; "d"])
           (Some sample_registry), out')) ∧
  (∀ f, prevGroup f = Some plain_group →
        ∃ f', visit (sample_config plain_group None ["a"; "c"; "d"])
                sample_registry sample_catalog "-min" f "d" = Ok f' ∧
              stack f' = ["r/pathD"] ∧ prevGroup f' = Some app_group).
Proof.
  apply (run_boundary (sample_config plain_group None ["a"; "c"; "d"])
           (Some sample_registry) [] "a" "c" "d" app_group plain_group
           "pathA" "pathC" "pathD");
    vm_compute; reflexivity.
Defined.

(** C8.  A skipped module does not end the pending run.  Its visit leaves
    the emitted descriptors, the buffer and the remembered group as they
    were; and when it sits between two resolved modules whose groups are
    combinable and agree on [comboBase] and [comboSep], the fragments of
    these two modules stand side by side in one combo URL among the
    descriptors exposed, which is the only descriptor when the seed holds
    nothing else. *)
Theorem skip_keeps_run cfg reg out l1 a u b l2 ga pa gb pb :
  modules_of cfg = l1 ++ a :: u :: b :: l2 →
  resolvedIn cfg reg a = Some (ga, pa) →
  resolvedIn cfg reg u = None →
  resolvedIn cfg reg b = Some (gb, pb) →
  combine ga = true → combine gb = true →
  comboBase ga = comboBase gb → comboSep ga = comboSep gb →
  (∀ f, ∃ f', visit cfg (default ∅ reg) (default ∅ (groups cfg))
                (default_filter cfg) f u = Ok f' ∧
              seedCache f' = seedCache f ∧ stack f' = stack f ∧
              prevGroup f' = prevGroup f) ∧
  ∃ ds out' pre post,
    exposeSeed (initialised cfg reg) out =
      Ok (VFunction ds, initialised cfg reg, out') ∧
    {| src := js_add (comboBase ga)
                (join (pre ++ js_add (root ga) pa :: js_add (root gb) pb :: post)
                   (comboSep ga)) |} ∈ ds ∧
    (l1 = [] → l2 = [] →
     ds = [{| src := js_add (comboBase ga)
                       (join [js_add (root ga) pa; js_add (root gb) pb]
                          (comboSep ga)) |}]).
Proof.
  intros Hmods Ha Hu Hb Hca Hcb Hbase Hsep.
  assert (Hcomp : compatible ga gb = true) by (by apply compatible_spec).
  split.
  - intros f. rewrite (visit_unresolved _ _ _ _ _ _ Hu). by eexists.
  - destruct (merged_across_skip cfg (default ∅ reg) (default ∅ (groups cfg))
                (default_filter cfg) l1 a u b l2 ga pa gb pb (fresh out)
                (fresh_ok out) Ha Hu Hb Hcomp) as (f & pre & post & Hf & Hin).
    rewrite <- Hmods in Hf.
    destruct (exposeSeed_emitted cfg reg out f _ Hf Hin) as (Hsc & out' & He).
    exists (seedCache f), out', pre, post. split_and!; [done|done|].
    intros -> ->. rewrite Hsc. unfold resolved_seed. rewrite Hmods. simpl app.
    rewrite (omap_cons_Some _ a _ _ Ha), (omap_cons_None _ u _ Hu),
      (omap_cons_Some _ b _ _ Hb).
    change (omap _ []) with (@nil (Group * string)).
    rewrite render_pair by done.
    unfold descriptor_of_run. by rewrite Hca.
Qed.

Lemma skip_keeps_run_witness :
  ∃ ds out' pre post,
    exposeSeed (initialised (sample_config plain_group None ["a"; "zz"; "b"])
                  (Some sample_registry)) [] =
      Ok (VFunction ds,
          initialised (sample_config plain_group None ["a"; "zz"; "b"])
            (Some sample_registry), out') ∧
    {| src := js_add (Some "/combo?")
                (join (pre ++ "r/pathA" :: "l/pathB" :: post) (Some "&")) |} ∈ ds ∧
    ([] = @nil string → [] = @nil string →
     ds = [{| src := "/combo?r/pathA&l/pathB" |}]).
Proof.
  apply (skip_keeps_run (sample_config plain_group None ["a"; "zz"; "b"])
           (Some sample_registry) [] [] "a" "zz" "b" [] app_group "pathA"
           lib_group "pathB");
    vm_compute; reflexivity.
Defined.

(** A module without registry entry whose name is not that of a property
    of [Object.prototype] is resolved against the configuration object
    itself.  When the configuration is combinable,
    visiting the module appends [config.root + path] to the buffer and
    emits nothing for it, and the descriptors exposed contain a combo URL
    built with [config.comboBase] and [config.comboSep] that carries this
    fragment; for a seed made of this module alone it is the only
    descriptor. *)
Lemma unregistered_uses_config cfg reg out l1 m l2 :
  modules_of cfg = l1 ++ m :: l2 →
  default ∅ reg !! m = None → m ∉ Object_prototype →
  combine (as_group cfg) = true →
  resolvedIn cfg reg m =
    Some (as_group cfg, m +:+ "/" +:+ m +:+ default_filter cfg +:+ ".js") ∧
  (∀ f, frame_ok f →
     ∃ f1,
       (if isSimilarGroup f (Some (as_group cfg)) then Ok f
        else flush (Some (as_group cfg)) f) = Ok f1 ∧
       visit cfg (default ∅ reg) (default ∅ (groups cfg)) (default_filter cfg) f m =
       Ok {| seedCache := seedCache f1;
             stack := stack f1 ++
                      [js_add (root (as_group cfg))
                         (m +:+ "/" +:+ m +:+ default_filter cfg +:+ ".js")];
             prevGroup := Some (as_group cfg);
             console := console f1 |}) ∧
  ∃ ds out' pre post,
    exposeSeed (initialised cfg reg) out =
      Ok (VFunction ds, initialised cfg reg, out') ∧
    {| src := js_add (comboBase (as_group cfg))
                (join (pre ++
                       js_add (root (as_group cfg))
                         (m +:+ "/" +:+ m +:+ default_filter cfg +:+ ".js")
                       :: post)
                   (comboSep (as_group cfg))) |} ∈ ds ∧
    (l1 = [] → l2 = [] →
     ds = [{| src := js_add (comboBase (as_group cfg))
                       (js_add (root (as_group cfg))
                          (m +:+ "/" +:+ m +:+ default_filter cfg +:+ ".js")) |}]).
Proof.
  intros Hmods Hm Hn Hc.
  pose proof (resolvedIn_unregistered cfg reg m Hm Hn) as Hr.
  split; [done|]. split.
  - intros f Hok. by apply visit_combinable.
  - destruct (combinable_emitted cfg (default ∅ reg) (default ∅ (groups cfg))
                (default_filter cfg) l1 m l2 _ _ (fresh out)
                (fresh_ok out) Hr Hc) as (f & pre & post & Hf & Hin).
    rewrite <- Hmods in Hf.
    destruct (exposeSeed_emitted cfg reg out f _ Hf Hin) as (Hsc & out' & He).
    exists (seedCache f), out', pre, post. split_and!; [done|done|].
    intros -> ->. rewrite Hsc. unfold resolved_seed. rewrite Hmods. simpl app.
    rewrite (omap_cons_Some _ m _ _ Hr).
    change (omap _ []) with (@nil (Group * string)).
    rewrite render_single. unfold descriptor_of_run. by rewrite Hc.
Qed.

Lemma unregistered_uses_config_witness :
  resolvedIn (sample_config app_group (Some "debug") ["a"; "foo"; "c"])
    (Some sample_registry) "foo" = Some (app_group, "foo/foo-debug.js") ∧
  exposeSeed (initialised (sample_config app_group (Some "debug") ["a"; "foo"; "c"])
                (Some sample_registry)) [] =
    Ok (VFunction [{| src := "/combo?r/pathA&r/foo/foo-debug.js" |};
                   {| src := "/static/pathC" |}],
        initialised (sample_config app_group (Some "debug") ["a"; "foo"; "c"])
          (Some sample_registry),
        [Log app_group]).
Proof.
  destruct (unregistered_uses_config
              (sample_config app_group (Some "debug") ["a"; "foo"; "c"])
              (Some sample_registry) [] ["a"] "foo" ["c"])
    as (Hr & _ & _).
  - reflexivity.
  - vm_compute. reflexivity.
  - decide_name.
  - reflexivity.
  - split; [exact Hr|]. vm_compute. reflexivity.
Defined.

(** C9, as the specification states it, fails for a module named like a
    property of [Object.prototype].  [map[m]] at line 250 is read without a
    [hasOwnProperty] test and finds the built-in, so the module is not
    resolved against the configuration: under a combinable configuration
    the unregistered [toString] is skipped with a warning and leaves no
    fragment in the combo URL, where the unregistered [foo] is appended
    to the run of [a]. *)
Theorem unregistered_inherited_name_skipped :
  sample_registry !! "toString" = None ∧
  combine (as_group (sample_config app_group None ["a"; "toString"; "c"])) = true ∧
  exposeSeed (initialised (sample_config app_group None ["a"; "toString"; "c"])
                (Some sample_registry)) [] =
    Ok (VFunction [{| src := "/combo?r/pathA" |}; {| src := "/static/pathC" |}],
        initialised (sample_config app_group None ["a"; "toString"; "c"])
          (Some sample_registry),
        [Warn (skip_message "toString"); Log app_group]) ∧
  exposeSeed (initialised (sample_config app_group None ["a"; "foo"; "c"])
                (Some sample_registry)) [] =
    Ok (VFunction [{| src := "/combo?r/pathA&r/foo/foo-min.js" |};
                   {| src := "/static/pathC" |}],
        initialised (sample_config app_group None ["a"; "foo"; "c"])
          (Some sample_registry),
        [Log app_group]).
Proof. split_and!; vm_compute; reflexivity. Qed.

(** ** Further properties of [exposeSeed] *)

Lemma runs_snoc_run l1 l2 :
  l1 ≠ [] →
  ∃ rs r, r ≠ [] ∧ runs l1 = rs ++ [r] ∧ runs (l1 ++ l2) = rs ++ runs (r ++ l2).
Proof.
  induction l1 as [|x l1 IH]; [done|]. intros _.
  destruct l1 as [|y l1].
  { exists [], [x]. by split_and!. }
  destruct IH as (rs & r & Hr & Hruns & Happ); [done|].
  destruct (compatible x.1 y.1) eqn:Hc.
  - destruct rs as [|r1 rs].
    + exists [], (x :: r). rewrite app_nil_l in Hruns.
      assert (r = y :: l1) as ->.
      { pose proof (concat_runs (y :: l1)) as Hcat. rewrite Hruns in Hcat.
        simpl in Hcat. by rewrite app_nil_r in Hcat. }
      split_and!; [done| |done].
      by rewrite (runs_cons_together x y l1 (y :: l1) []).
    + exists ((x :: r1) :: rs), r.
      change ((r1 :: rs) ++ [r]) with (r1 :: (rs ++ [r])) in Hruns.
      change ((r1 :: rs) ++ runs (r ++ l2)) with (r1 :: (rs ++ runs (r ++ l2)))
        in Happ.
      split_and!; [done| |].
      * by rewrite (runs_cons_together x y l1 r1 (rs ++ [r])).
      * change ((x :: y :: l1) ++ l2) with (x :: y :: (l1 ++ l2)).
        by rewrite (runs_cons_together x y (l1 ++ l2) r1 (rs ++ runs (r ++ l2))).
  - exists ([x] :: rs), r. split_and!; [done| |].
    + rewrite runs_cons_apart; [by rewrite Hruns|]. by intros ? [= <-].
    + change ((x :: y :: l1) ++ l2) with (x :: (y :: l1) ++ l2).
      rewrite runs_cons_apart; [by rewrite Happ|]. by intros ? [= <-].
Qed.

Lemma descriptor_of_run_length run :
  run ≠ [] → length (descriptor_of_run run) = 1.
Proof.
  destruct run as [|[g p] run]; [done|]. intros _. simpl. by destruct (combine g).
Qed.

Lemma render_length l : length (render l) = length (runs l).
Proof.
  pose proof (render_one_per_run l) as H. by apply Forall2_length in H.
Qed.

Lemma runs_length l : length (runs l) ≤ length l.
Proof.
  induction l as [|x rest IH]; simpl; [done|].
  destruct (runs rest) as [|run others]; simpl in *; [lia|].
  destruct (joins x run); simpl; lia.
Qed.

Lemma render_snoc l1 l2 :
  ∃ rest, render (l1 ++ l2) = removelast (render l1) ++ rest ∧
          (l1 ≠ [] → rest ≠ []).
Proof.
  destruct (decide (l1 = [])) as [->|Hne].
  { exists (render l2). by split. }
  destruct (runs_snoc_run l1 l2 Hne) as (rs & r & Hr & Hruns & Happ).
  exists (render (r ++ l2)). split.
  - unfold render at 1 2. rewrite Happ, Hruns, !fmap_app, !concat_app. simpl.
    rewrite app_nil_r. f_equal.
    destruct (descriptor_of_run r) as [|d [|d' ds]] eqn:Hd.
    + pose proof (descriptor_of_run_length r Hr) as Hl. by rewrite Hd in Hl.
    + by rewrite removelast_last.
    + pose proof (descriptor_of_run_length r Hr) as Hl. by rewrite Hd in Hl.
  - intros _ Hnil. apply render_nil_inv in Hnil. by destruct r.
Qed.

Lemma omap_length_le {A B} (f : A → option B) l : length (omap f l) ≤ length l.
Proof.
  induction l as [|x l IH]; [done|].
  destruct (f x) as [y|] eqn:Hx.
  - rewrite (omap_cons_Some f x y l Hx). simpl. lia.
  - rewrite (omap_cons_None f x l Hx). simpl. lia.
Qed.

Lemma exposeSeed_with_seed cfg reg out l :
  ∃ out',
    exposeSeed (initialised (with_seed l cfg) reg) out =
    Ok (returned (render (omap (resolvedIn cfg reg) l)),
        initialised (with_seed l cfg) reg, out').
Proof.
  destruct (exposeSeed_spec (with_seed l cfg) reg out) as (out' & He & _).
  by exists out'.
Qed.

(** X1.  [exposeSeed] fails in one situation only: [yui.locals] does not
    exist, and then it throws the error of [yui.config].  With
    [yui.locals] in place it returns, whatever the configuration, the
    registry and the catalog hold. *)
Theorem exposeSeed_failure s out :
  match locals s with
  | None => exposeSeed s out = Throw "yui() should happen before."
  | Some _ => ∃ v s' out', exposeSeed s out = Ok (v, s', out')
  end.
Proof.
  destruct s as [[[[cfg|]]|] reg]; simpl; [| |done].
  - destruct (exposeSeed_spec cfg reg out) as (out' & He & _).
    change {| locals := _; _map := reg |} with (initialised cfg reg). eauto.
  - destruct (exposeSeed_spec empty_config reg out) as (out' & He & _).
    change (exposeSeed _ out) with (exposeSeed (initialised empty_config reg) out).
    eauto.
Qed.

(** X2.  When every module of the seed that resolves does so to a group
    compatible with the group of the first one, the call exposes a single
    descriptor: the [comboBase] followed by the fragments of all resolved
    modules, in seed order, joined by the [comboSep].  Skipped modules in
    between do not split it. *)
Theorem all_compatible_one_descriptor cfg reg out x rest :
  resolved_seed cfg reg = x :: rest →
  Forall (λ y, compatible x.1 y.1 = true) (x :: rest) →
  ∃ out',
    exposeSeed (initialised cfg reg) out =
    Ok (VFunction
          [{| src := js_add (comboBase x.1)
                       (join (fragment <$> x :: rest) (comboSep x.1)) |}],
        initialised cfg reg, out').
Proof.
  intros Hseed Hall.
  destruct (exposeSeed_spec cfg reg out) as (out' & He & _).
  exists out'. rewrite He, Hseed.
  assert (Hall' : Forall (λ y, compatible y.1 x.1 = true) (x :: rest)).
  { eapply Forall_impl; [exact Hall|]. intros y Hy. by rewrite compatible_sym. }
  rewrite <- (app_nil_r (x :: rest)) at 1.
  rewrite (render_block x.1); [|done|done].
  rewrite (descriptor_of_block x.1); [|done|done].
  done.
Qed.

Lemma all_compatible_one_descriptor_witness :
  ∃ out',
    exposeSeed (initialised (sample_config plain_group None ["a"; "zz"; "b"; "e"; "d"])
                  (Some sample_registry)) [] =
    Ok (VFunction [{| src := "/combo?r/pathA&l/pathB&r/pathD" |}],
        initialised (sample_config plain_group None ["a"; "zz"; "b"; "e"; "d"])
          (Some sample_registry), out').
Proof.
  apply (all_compatible_one_descriptor
           (sample_config plain_group None ["a"; "zz"; "b"; "e"; "d"])
           (Some sample_registry) [] (app_group, "pathA")
           [(lib_group, "pathB"); (app_group, "pathD")]).
  - vm_compute. reflexivity.
  - repeat constructor.
Defined.

(** X3.  Appending modules to the seed keeps the descriptors exposed so
    far, except possibly the last one, which may grow: the descriptors
    for the longer seed start with all but the last descriptor of the
    shorter seed, and there are at least as many of them. *)
Theorem appended_modules_keep_descriptors cfg reg out l1 l2 :
  ∃ ds1 ds2 rest out1 out2,
    exposeSeed (initialised (with_seed l1 cfg) reg) out =
      Ok (returned ds1, initialised (with_seed l1 cfg) reg, out1) ∧
    exposeSeed (initialised (with_seed (l1 ++ l2) cfg) reg) out =
      Ok (returned ds2, initialised (with_seed (l1 ++ l2) cfg) reg, out2) ∧
    ds2 = removelast ds1 ++ rest ∧
    length ds1 ≤ length ds2.
Proof.
  destruct (exposeSeed_with_seed cfg reg out l1) as (out1 & He1).
  destruct (exposeSeed_with_seed cfg reg out (l1 ++ l2)) as (out2 & He2).
  rewrite omap_app in He2.
  destruct (render_snoc (omap (resolvedIn cfg reg) l1) (omap (resolvedIn cfg reg) l2))
    as (rest & Hrest & Hne).
  eexists _, _, rest, out1, out2. split_and!; [done|done|done|].
  rewrite Hrest, length_app.
  destruct (decide (omap (resolvedIn cfg reg) l1 = [])) as [->|Hl]; [simpl; lia|].
  specialize (Hne Hl).
  assert (length (removelast (render (omap (resolvedIn cfg reg) l1))) + 1 =
          length (render (omap (resolvedIn cfg reg) l1))) as <-.
  { destruct (render (omap (resolvedIn cfg reg) l1)) as [|d ds] eqn:Hr.
    - apply render_nil_inv in Hr. done.
    - rewrite (app_removelast_last d (l:=d :: ds)) at 2 by done.
      rewrite length_app. simpl. lia. }
  destruct rest; [done|simpl; lia].
Qed.

(** X4.  The filter only matters for modules without registry entry:
    when every module of the seed has one, the value returned is the same
    under any other filter. *)
Theorem filter_irrelevant_when_registered cfg reg out f :
  Forall (λ m, is_Some (default ∅ reg !! m)) (modules_of cfg) →
  ∃ v out1 out2,
    exposeSeed (initialised cfg reg) out = Ok (v, initialised cfg reg, out1) ∧
    exposeSeed (initialised (with_filter f cfg) reg) out =
      Ok (v, initialised (with_filter f cfg) reg, out2).
Proof.
  intros Hreg.
  destruct (exposeSeed_spec cfg reg out) as (out1 & He1 & _).
  destruct (exposeSeed_spec (with_filter f cfg) reg out) as (out2 & He2 & _).
  eexists _, out1, out2. split; [done|]. rewrite He2.
  replace (resolved_seed (with_filter f cfg) reg) with (resolved_seed cfg reg);
    [done|].
  unfold resolved_seed. change (modules_of (with_filter f cfg)) with (modules_of cfg).
  induction Hreg as [|m ms [entry Hm] _ IH]; [done|].
  assert (Hsame : resolvedIn (with_filter f cfg) reg m = resolvedIn cfg reg m).
  { unfold resolvedIn, resolved, lookup_module. simpl.
    by rewrite (read_own _ _ _ Hm). }
  destruct (resolvedIn cfg reg m) as [x|] eqn:Hr.
  - by rewrite (omap_cons_Some _ m x ms Hr), (omap_cons_Some _ m x ms Hsame), IH.
  - by rewrite (omap_cons_None _ m ms Hr), (omap_cons_None _ m ms Hsame), IH.
Qed.

Lemma filter_irrelevant_when_registered_witness :
  ∃ v out1 out2,
    exposeSeed (initialised (sample_config plain_group None ["a"; "c"; "zz"])
                  (Some sample_registry)) [] =
      Ok (v, initialised (sample_config plain_group None ["a"; "c"; "zz"])
               (Some sample_registry), out1) ∧
    exposeSeed (initialised
                  (with_filter (Some "debug")
                     (sample_config plain_group None ["a"; "c"; "zz"]))
                  (Some sample_registry)) [] =
      Ok (v, initialised
               (with_filter (Some "debug")
                  (sample_config plain_group None ["a"; "c"; "zz"]))
               (Some sample_registry), out2).
Proof.
  apply (filter_irrelevant_when_registered
           (sample_config plain_group None ["a"; "c"; "zz"])
           (Some sample_registry) [] (Some "debug")).
  repeat constructor; vm_compute; eauto.
Defined.

(** X5.  There are never more descriptors than modules in the seed: every
    descriptor stands for at least one module that resolved. *)
Theorem at_most_one_descriptor_per_module cfg reg out :
  ∃ ds out',
    exposeSeed (initialised cfg reg) out =
      Ok (returned ds, initialised cfg reg, out') ∧
    length ds ≤ length (resolved_seed cfg reg) ∧
    length (resolved_seed cfg reg) ≤ length (modules_of cfg).
Proof.
  destruct (exposeSeed_spec cfg reg out) as (out' & He & _).
  eexists _, out'. split; [done|]. split.
  - rewrite render_length. apply runs_length.
  - unfold resolved_seed. apply omap_length_le.
Qed.

(** *** What [flush] prints *)

Lemma logged_app out1 out2 : logged (out1 ++ out2) = logged out1 ++ logged out2.
Proof. apply omap_app. Qed.

Lemma logs_cons_apart x rest :
  (∀ y, head rest = Some y → compatible x.1 y.1 = false) →
  run_logs (x :: rest) =
  log_of_run [x] ++ run_logs rest.
Proof. intros H. unfold run_logs. by rewrite runs_cons_apart. Qed.

Lemma logs_block g block rest :
  Forall (λ y, compatible y.1 g = true) block →
  (∀ h, head rest = Some h → compatible h.1 g = false) →
  run_logs (block ++ rest) =
  log_of_run block ++ run_logs rest.
Proof.
  intros Hall Hrest. destruct (decide (block = [])) as [->|Hne]; [done|].
  unfold run_logs. by rewrite (runs_block g).
Qed.

Section Logs.

Variable cfg : Config.
Variable map : gmap string ModuleEntry.
Variable catalog : gmap string Group.
Variable suffix : string.

Local Abbreviation resolved := (resolved cfg map catalog suffix).
Local Abbreviation visit := (visit cfg map catalog suffix).
Local Abbreviation finish := (finish cfg map catalog suffix).

Lemma flush_logs ng f block :
  pending f block →
  ∃ f1, flush ng f = Ok f1 ∧
        logged (console f1) = logged (console f) ++ log_of_run block.
Proof.
  intros [Hst Hlast]. unfold log_of_run.
  destruct (last block) as [x|] eqn:Hl.
  - destruct Hlast as [Hpg Hall].
    assert (Hsne : stack f ≠ []).
    { rewrite Hst. destruct block; [done|done]. }
    rewrite (flush_pending _ _ _ Hsne Hpg). eexists; split; [done|]. simpl.
    rewrite logged_app. f_equal.
    assert (Hx : compatible x.1 x.1 = true).
    { apply last_Some in Hl as [l' ->].
      apply Forall_app in Hall as [_ Hx]. by inversion Hx. }
    apply compatible_spec in Hx as (-> & _). done.
  - apply last_None in Hl as ->. simpl in Hst.
    rewrite (flush_empty _ _ Hst). eexists; split; [done|]. simpl.
    by rewrite app_nil_r.
Qed.

Lemma finish_logs modules f block :
  pending f block →
  ∃ f', finish modules f = Ok f' ∧
        logged (console f') =
        logged (console f) ++
        run_logs (block ++ omap resolved modules).
Proof.
  revert f block. induction modules as [|m modules IH]; intros f block Hp.
  - rewrite finish_nil. rewrite app_nil_r.
    destruct (flush_logs None f block Hp) as (f1 & -> & Hlog).
    eexists; split; [done|]. rewrite Hlog. f_equal.
    destruct Hp as [_ Hlast]. destruct (last block) as [x|] eqn:Hl.
    + destruct Hlast as [_ Hall].
      rewrite <- (app_nil_r block) at 2.
      rewrite (logs_block x.1); [by rewrite app_nil_r|done|done].
    + by apply last_None in Hl as ->.
  - rewrite finish_cons.
    replace (omap resolved (m :: modules)) with
      (match resolved m with
       | Some x => x :: omap resolved modules
       | None => omap resolved modules
       end) by done.
    destruct (resolved m) as [[g p]|] eqn:Hr.
    2:{ rewrite (visit_unresolved _ _ _ _ _ _ Hr). cbn [bind].
        destruct (IH (warned f m) block (pending_warned f block m Hp))
          as (f' & -> & Hlog).
        eexists; split; [done|]. rewrite Hlog. unfold warned; simpl.
        rewrite logged_app. simpl. by rewrite app_nil_r. }
    rewrite (visit_resolved _ _ _ _ _ _ _ _ Hr).
    rewrite isSimilarGroup_compatible.
    destruct (flush_of_pending (Some g) f block Hp)
      as (f1 & Hflush & Hst1 & _ & _).
    assert (Hlog1 : logged (console f1) = logged (console f) ++ log_of_run block).
    { destruct (flush_logs (Some g) f block Hp) as (f1' & Hflush' & Hlog1).
      rewrite Hflush in Hflush'. by simplify_eq. }
    destruct Hp as [Hst Hlast].
    destruct (prevGroup f) as [pg|] eqn:Hpg;
      [destruct (compatible g pg) eqn:Hc|].
    + cbn [bind]. apply compatible_spec in Hc as Hc'.
      destruct Hc' as (Hg & Hcpg & _).
      destruct (last block) as [x|] eqn:Hl.
      2:{ rewrite (Hlast pg) in Hcpg; done. }
      destruct Hlast as [[= ->] Hall].
      destruct (IH (accepted f g p) (block ++ [(g, p)])) as (f' & -> & Hlog).
      { split.
        - unfold accepted; simpl. by rewrite Hg, Hst, fmap_app.
        - rewrite last_snoc. split; [done|]. simpl.
          apply Forall_app. split.
          + eapply Forall_impl; [exact Hall|]. simpl. intros y Hy.
            apply (compatible_trans _ x.1); [done|]. by rewrite compatible_sym.
          + constructor; [|done]. simpl. by apply compatible_refl. }
      eexists; split; [done|]. rewrite Hlog. unfold accepted; simpl.
      by rewrite <- app_assoc.
    + rewrite Hflush. cbn [bind].
      assert (Hsplit :
                run_logs (block ++ (g, p) :: omap resolved modules) =
                log_of_run block ++
                run_logs ((g, p) :: omap resolved modules)).
      { destruct (last block) as [x|] eqn:Hl.
        - destruct Hlast as [Hx Hall]. simplify_eq.
          apply (logs_block x.1); [done|]. by intros h [= <-].
        - by apply last_None in Hl as ->. }
      rewrite Hsplit. clear Hsplit.
      destruct (combine g) eqn:Hg.
      * destruct (IH (accepted f1 g p) [(g, p)]) as (f' & -> & Hlog).
        { split; [unfold accepted; simpl; by rewrite Hg, Hst1|].
          simpl. split; [done|]. constructor; [|done]. by apply compatible_refl. }
        eexists; split; [done|]. rewrite Hlog. unfold accepted; simpl.
        by rewrite Hlog1, <- app_assoc.
      * destruct (IH (accepted f1 g p) []) as (f' & -> & Hlog).
        { split; [unfold accepted; simpl; by rewrite Hg, Hst1|].
          simpl. by intros ? [= <-]. }
        eexists; split; [done|]. rewrite Hlog. unfold accepted; simpl.
        rewrite Hlog1, <- !app_assoc. do 2 f_equal.
        rewrite logs_cons_apart.
        -- unfold log_of_run. simpl. by rewrite Hg.
        -- intros y _. by apply compatible_not_combine_l.
    + rewrite Hflush. cbn [bind].
      assert (block = []) as ->.
      { destruct (last block) as [x|] eqn:Hl; [by destruct Hlast|].
        by apply last_None. }
      simpl in *. unfold log_of_run in Hlog1. simpl in Hlog1.
      rewrite app_nil_r in Hlog1.
      destruct (combine g) eqn:Hg.
      * destruct (IH (accepted f1 g p) [(g, p)]) as (f' & -> & Hlog).
        { split; [unfold accepted; simpl; by rewrite Hg, Hst1|].
          simpl. split; [done|]. constructor; [|done]. by apply compatible_refl. }
        eexists; split; [done|]. rewrite Hlog. unfold accepted; simpl.
        by rewrite Hlog1.
      * destruct (IH (accepted f1 g p) []) as (f' & -> & Hlog).
        { split; [unfold accepted; simpl; by rewrite Hg, Hst1|].
          simpl. by intros ? [= <-]. }
        eexists; split; [done|]. rewrite Hlog. unfold accepted; simpl.
        rewrite Hlog1. f_equal.
        rewrite logs_cons_apart.
        -- unfold log_of_run. simpl. by rewrite Hg.
        -- intros y _. by apply compatible_not_combine_l.
Qed.

End Logs.

(** X6.  The pass prints one group per combo URL and nothing else through
    [console.log]: the groups printed are, in order, the groups of the
    last modules of the combinable runs, so there are exactly as many
    lines as combined descriptors. *)
Theorem one_log_per_combo_descriptor cfg reg out :
  ∃ v out',
    exposeSeed (initialised cfg reg) out = Ok (v, initialised cfg reg, out') ∧
    logged out' =
      logged out ++ run_logs (resolved_seed cfg reg) ∧
    length (logged out') =
      length (logged out) +
      length (List.filter (λ run, match head run with
                                  | Some x => combine x.1
                                  | None => false
                                  end) (runs (resolved_seed cfg reg))).
Proof.
  rewrite exposeSeed_initialised, resolve_finish.
  destruct (finish_logs cfg (default ∅ reg) (default ∅ (groups cfg))
              (default_filter cfg) (modules_of cfg) (fresh out) []
              (pending_fresh out)) as (f & -> & Hlog).
  cbn [bind]. eexists _, _. split; [done|].
  change (omap _ (modules_of cfg)) with (resolved_seed cfg reg) in Hlog.
  simpl in Hlog. split; [done|].
  rewrite Hlog, length_app. f_equal. unfold run_logs.
  pose proof (runs_ok (resolved_seed cfg reg)) as Hok.
  induction Hok as [|run rs Hrun _ IH]; [done|].
  rewrite fmap_cons. cbn [concat List.filter]. rewrite length_app, IH. clear IH.
  destruct run as [|x run]; [done|].
  assert (Hsame : ∀ y, last (x :: run) = Some y → combine y.1 = combine x.1).
  { intros y Hy. destruct run as [|z run].
    - simpl in Hy. by simplify_eq.
    - simpl in Hrun. apply last_Some_elem_of in Hy.
      rewrite Forall_forall in Hrun. specialize (Hrun y Hy).
      apply compatible_spec in Hrun as (-> & -> & _). done. }
  unfold log_of_run. destruct (last (x :: run)) as [y|] eqn:Hl.
  - rewrite (Hsame y eq_refl). cbn [head]. by destruct (combine x.1).
  - by apply last_None in Hl.
Qed.

(** ** lib/yui.js and the rest of lib/seed.js *)

Lemma exposeSeed_returns s out :
  locals s ≠ None → ∃ v s' out', exposeSeed s out = Ok (v, s', out').
Proof.
  destruct s as [[[[cfg|]]|] reg]; simpl; [| |done]; intros _.
  - destruct (exposeSeed_spec cfg reg out) as (out' & He & _).
    change {| locals := _; _map := reg |} with (initialised cfg reg). eauto.
  - destruct (exposeSeed_spec empty_config reg out) as (out' & He & _).
    change (exposeSeed _ out) with (exposeSeed (initialised empty_config reg) out).
    eauto.
Qed.

Section AppFacts.

Context {Other Obj : Type}.
Variable no_other : Other.
Variable require : string → option Package.
Variable __dirname : string.
Variable extend :
  @App.Static Other → list (option (@App.Supplier Obj)) → @App.Static Other.

(** [yui.config()] as [exposeSeed] uses it and [yui.config] of lib/yui.js
    agree on the part of the object that [exposeSeed] works on. *)
Lemma config_agrees (y : @App.Yui Other) :
  config (App.store_of y) =
  match App.config no_other extend [] y with
  | Returns c y' => Ok (App.resolver c, App.store_of y')
  | Throws e _ => Throw e
  end.
Proof. by destruct y as [[[c|]|] reg Y v p o]. Qed.

Lemma store_of_configured (y : @App.Yui Other) c :
  App.y_locals y = Some (Some c) →
  App.store_of y = initialised (App.resolver c) (App.y_map y).
Proof. destruct y as [l reg Y v p o]. simpl. by intros ->. Qed.

Lemma yui_sets_locals config_arg path_arg (y : @App.Yui Other) :
  App.y_locals
    (state_after (App.yui no_other require __dirname extend config_arg path_arg y))
  ≠ None.
Proof.
  unfold App.yui. destruct (App.y_locals y) as [l|] eqn:Hl; simpl.
  - by rewrite Hl.
  - by destruct (require _).
Qed.

(** X7.  Before [yui()] has run, every configuration helper throws the
    same error and leaves the [yui] object as it was: [config],
    [applyConfig], [debugMode], [seed], [addModuleToSeed] and
    [exposeSeed]. *)
Theorem helpers_need_yui (y : @App.Yui Other) args config_arg modules m out :
  App.y_locals y = None →
  App.config no_other extend args y = Throws "yui() should happen before." y ∧
  App.applyConfig no_other extend args y = Throws "yui() should happen before." y ∧
  App.debugMode no_other extend config_arg y =
    Throws "yui() should happen before." y ∧
  App.seed no_other extend modules y = Throws "yui() should happen before." y ∧
  App.addModuleToSeed no_other extend m y =
    Throws "yui() should happen before." y ∧
  exposeSeed (App.store_of y) out = Throw "yui() should happen before.".
Proof.
  intros Hl.
  unfold App.debugMode, App.seed, App.addModuleToSeed, App.config,
    App.applyConfig, exposeSeed, config, App.store_of.
  rewrite Hl. by split_and!.
Qed.

(** X8.  [yui()] can be called once.  Whatever the first call did, also
    when it threw because the package could not be required, and whatever
    the arguments of the second call, the second call throws and changes
    nothing. *)
Theorem yui_only_once (y : @App.Yui Other) config1 path1 config2 path2 :
  App.yui no_other require __dirname extend config2 path2
    (state_after (App.yui no_other require __dirname extend config1 path1 y)) =
  Throws "Multiple attemps to call `yui()`.Only one `yui` is allow per app."
    (state_after (App.yui no_other require __dirname extend config1 path1 y)).
Proof.
  pose proof (yui_sets_locals config1 path1 y) as Hl.
  unfold App.yui at 1.
  by destruct (App.y_locals (state_after _)).
Qed.

(** X9.  After a call of [yui()], however it completed, the static
    configuration exists: [yui.config()] returns it and [exposeSeed]
    does not throw. *)
Theorem yui_leaves_configuration (y : @App.Yui Other) config_arg path_arg out :
  (∃ c y',
     App.config no_other extend []
       (state_after (App.yui no_other require __dirname extend config_arg path_arg y))
     = Returns c y') ∧
  (∃ v s out',
     exposeSeed
       (App.store_of
          (state_after (App.yui no_other require __dirname extend config_arg path_arg y)))
       out = Ok (v, s, out')).
Proof.
  pose proof (yui_sets_locals config_arg path_arg y) as Hl. split.
  - unfold App.config. destruct (App.y_locals (state_after _)); [eauto|done].
  - apply exposeSeed_returns. unfold App.store_of. simpl.
    by destruct (App.y_locals (state_after _)).
Qed.

(** One call, case by case. *)
Lemma addModuleToSeed_step (y : @App.Yui Other) c m :
  App.y_locals y = Some (Some c) →
  App.addModuleToSeed no_other extend m y =
  match App.core c, App.y_YUI y with
  | Some listed, _ =>
      Returns tt
        (App.set_static
           {| App.resolver :=
                with_seed (modules_of (App.resolver c) ++ [m]) (App.resolver c);
              App.core := Some (listed ++ [m]);
              App.version := App.version c; App.other := App.other c |} y)
  | None, Some Y =>
      Returns tt
        (App.set_static
           {| App.resolver :=
                with_seed (modules_of (App.resolver c) ++ [m]) (App.resolver c);
              App.core := Some (Env_core Y ++ [m]);
              App.version := App.version c; App.other := App.other c |} y)
  | None, None =>
      Throws "TypeError: Cannot read property 'Env' of undefined"
        (App.set_static
           {| App.resolver :=
                with_seed (modules_of (App.resolver c) ++ [m]) (App.resolver c);
              App.core := None;
              App.version := App.version c; App.other := App.other c |} y)
  end.
Proof.
  intros Hl. unfold App.addModuleToSeed, App.config. rewrite Hl. simpl.
  destruct (App.core c) as [listed|]; [done|].
  unfold App.getDefaultCore. simpl. by destruct (App.y_YUI y).
Qed.

Lemma addModulesToSeed_listed names (y : @App.Yui Other) c modules listed :
  App.y_locals y = Some (Some c) →
  seed (App.resolver c) = Some modules → App.core c = Some listed →
  App.addModulesToSeed no_other extend names y =
  Returns tt
    (if decide (names = []) then y
     else App.set_static
            {| App.resolver := with_seed (modules ++ names) (App.resolver c);
               App.core := Some (listed ++ names);
               App.version := App.version c; App.other := App.other c |} y).
Proof.
  revert y c modules listed.
  induction names as [|m names IH]; intros y c modules listed Hl Hs Hc; [done|].
  cbn [App.addModulesToSeed]. rewrite (addModuleToSeed_step y c m Hl), Hc.
  erewrite IH; [|reflexivity|reflexivity|reflexivity].
  f_equal. rewrite (decide_False (P := m :: names = [])) by done.
  unfold modules_of. rewrite Hs. cbn [default].
  destruct (decide (names = [])) as [->|Hne]; [done|].
  unfold App.set_static, with_seed. simpl. by rewrite <- !app_assoc.
Qed.

(** X10.  Modules added one after the other accumulate in call order, in
    the seed and in the core alike.  The first call materialises the
    defaults (the default seed, a copy of [YUI.Env.core]) when the
    configuration has none; nothing else on the [yui] object changes, and
    [YUI.Env.core] itself is not touched. *)
Theorem addModulesToSeed_accumulates (y : @App.Yui Other) c m names :
  App.y_locals y = Some (Some c) →
  is_Some (App.core c) ∨ is_Some (App.y_YUI y) →
  App.addModulesToSeed no_other extend (m :: names) y =
  Returns tt
    (App.set_static
       {| App.resolver :=
            with_seed (default getDefaultSeed (seed (App.resolver c)) ++ m :: names)
              (App.resolver c);
          App.core :=
            Some (match App.core c, App.y_YUI y with
                  | Some listed, _ => listed
                  | None, Some Y => Env_core Y
                  | None, None => []
                  end ++ m :: names);
          App.version := App.version c; App.other := App.other c |} y).
Proof.
  intros Hl Hcore.
  cbn [App.addModulesToSeed]. rewrite (addModuleToSeed_step y c m Hl).
  destruct (App.core c) as [listed|] eqn:Hc.
  - erewrite addModulesToSeed_listed; [|reflexivity|reflexivity|reflexivity].
    f_equal. destruct (decide (names = [])) as [->|Hne]; [done|].
    unfold App.set_static, with_seed. simpl. by rewrite <- !app_assoc.
  - destruct Hcore as [[? [=]]|[Y HY]]. rewrite HY.
    erewrite addModulesToSeed_listed; [|reflexivity|reflexivity|reflexivity].
    f_equal. destruct (decide (names = [])) as [->|Hne]; [done|].
    unfold App.set_static, with_seed. simpl. by rewrite <- !app_assoc.
Qed.

(** X11.  With a configuration that has no [core] and no package loaded,
    [addModuleToSeed] throws a [TypeError] after it has already appended
    the module to the seed: the seed keeps the module, the core stays
    unset, and [exposeSeed] afterwards resolves the longer seed. *)
Theorem addModuleToSeed_partial_failure (y : @App.Yui Other) c m out :
  App.y_locals y = Some (Some c) →
  App.core c = None → App.y_YUI y = None →
  App.addModuleToSeed no_other extend m y =
    Throws "TypeError: Cannot read property 'Env' of undefined"
      (App.set_static
         {| App.resolver :=
              with_seed (modules_of (App.resolver c) ++ [m]) (App.resolver c);
            App.core := None;
            App.version := App.version c; App.other := App.other c |} y) ∧
  ∃ out',
    exposeSeed
      (App.store_of (state_after (App.addModuleToSeed no_other extend m y))) out =
    Ok (returned
          (render (omap (resolvedIn (App.resolver c) (App.y_map y))
                     (modules_of (App.resolver c) ++ [m]))),
        App.store_of (state_after (App.addModuleToSeed no_other extend m y)),
        out').
Proof.
  intros Hl Hc HY.
  assert (Hthrow :
    App.addModuleToSeed no_other extend m y =
    Throws "TypeError: Cannot read property 'Env' of undefined"
      (App.set_static
         {| App.resolver :=
              with_seed (modules_of (App.resolver c) ++ [m]) (App.resolver c);
            App.core := None;
            App.version := App.version c; App.other := App.other c |} y)).
  { by rewrite (addModuleToSeed_step y c m Hl), Hc, HY. }
  split; [done|]. rewrite Hthrow. cbn [state_after].
  apply (exposeSeed_with_seed (App.resolver c) (App.y_map y) out).
Qed.

(** X12.  After [addModuleToSeed(m)] has returned, [exposeSeed] resolves
    the former seed followed by [m]: the descriptors exposed before, all
    but possibly the last, are still the first ones exposed, and when [m]
    does not resolve the descriptors are the same as before. *)
Theorem addModuleToSeed_then_exposeSeed (y y' : @App.Yui Other) c m out :
  App.y_locals y = Some (Some c) →
  App.addModuleToSeed no_other extend m y = Returns tt y' →
  ∃ ds ds' rest out1 out2,
    exposeSeed (App.store_of y) out = Ok (returned ds, App.store_of y, out1) ∧
    exposeSeed (App.store_of y') out = Ok (returned ds', App.store_of y', out2) ∧
    ds' = render (omap (resolvedIn (App.resolver c) (App.y_map y))
                    (modules_of (App.resolver c) ++ [m])) ∧
    ds' = removelast ds ++ rest ∧
    (resolvedIn (App.resolver c) (App.y_map y) m = None → ds' = ds).
Proof.
  intros Hl Hadd.
  assert (Hstore : App.store_of y' =
            initialised (with_seed (modules_of (App.resolver c) ++ [m])
                           (App.resolver c)) (App.y_map y)).
  { revert Hadd. rewrite (addModuleToSeed_step y c m Hl).
    destruct (App.core c) as [listed|]; [|destruct (App.y_YUI y); [|done]];
      intros [= <-]; reflexivity. }
  rewrite Hstore, (store_of_configured y c Hl).
  destruct (exposeSeed_spec (App.resolver c) (App.y_map y) out) as (out1 & He1 & _).
  destruct (exposeSeed_with_seed (App.resolver c) (App.y_map y) out
              (modules_of (App.resolver c) ++ [m])) as (out2 & He2).
  destruct (render_snoc (resolved_seed (App.resolver c) (App.y_map y))
              (omap (resolvedIn (App.resolver c) (App.y_map y)) [m]))
    as (rest & Hrest & _).
  eexists _, _, rest, out1, out2. split_and!; [done|done|done| |].
  - by rewrite omap_app.
  - intros Hm. rewrite omap_app, (omap_cons_None _ m [] Hm). simpl.
    by rewrite app_nil_r.
Qed.

(** X13.  After [yui()] has returned, [addModuleToSeed] cannot fail: the
    configuration and the package are in place, and any sequence of
    module names is added in call order, to the seed (after the seed
    configured, or the default seed) and to the core (after the core
    configured, or a copy of [YUI.Env.core] of the package loaded).
    Nothing else on the [yui] object changes. *)
Theorem yui_then_addModulesToSeed (y y' : @App.Yui Other) config_arg path_arg names :
  App.yui no_other require __dirname extend config_arg path_arg y = Returns tt y' →
  ∃ c Y,
    App.y_locals y' = Some (Some c) ∧ App.y_YUI y' = Some Y ∧
    App.addModulesToSeed no_other extend names y' =
    Returns tt
      (if decide (names = []) then y'
       else App.set_static
              {| App.resolver :=
                   with_seed
                     (default getDefaultSeed (seed (App.resolver c)) ++ names)
                     (App.resolver c);
                 App.core := Some (default (Env_core Y) (App.core c) ++ names);
                 App.version := App.version c; App.other := App.other c |} y').
Proof.
  unfold App.yui. destruct (App.y_locals y) as [l|] eqn:Hl; [done|]. simpl.
  destruct (require _) as [pkg|]; [|done]. intros [= <-].
  eexists _, _. split; [reflexivity|]. split; [reflexivity|].
  destruct names as [|m names]; [done|].
  cbn [App.addModulesToSeed].
  erewrite addModuleToSeed_step by reflexivity.
  cbn [App.y_YUI App.core].
  match goal with
  | |- context [match ?o with Some _ => _ | None => _ end] =>
      destruct o as [listed|] eqn:Hc
  end;
    (erewrite addModulesToSeed_listed; [|reflexivity|reflexivity|reflexivity]);
    f_equal; rewrite (decide_False (P := m :: names = [])) by done;
    (destruct (decide (names = [])) as [->|Hne]; [done|]);
    unfold App.set_static, with_seed, modules_of; simpl;
    by rewrite <- !app_assoc.
Qed.

End AppFacts.

Lemma helpers_need_yui_witness :
  App.config tt sample_extend [Some (App.supplied tt)] untouched =
    Throws "yui() should happen before." untouched ∧
  App.applyConfig tt sample_extend [Some (App.supplied tt)] untouched =
    Throws "yui() should happen before." untouched ∧
  App.debugMode tt sample_extend None untouched =
    Throws "yui() should happen before." untouched ∧
  App.seed tt sample_extend ["a"] untouched =
    Throws "yui() should happen before." untouched ∧
  App.addModuleToSeed tt sample_extend "a" untouched =
    Throws "yui() should happen before." untouched ∧
  exposeSeed (App.store_of untouched) [] = Throw "yui() should happen before.".
Proof.
  apply (helpers_need_yui tt sample_extend untouched
           [Some (App.supplied tt)] None ["a"] "a" []).
  reflexivity.
Defined.

Lemma addModulesToSeed_accumulates_witness :
  App.addModulesToSeed tt sample_extend ["a"; "b"]
    (App.mkYui (Some (Some (App.mkStatic empty_config None None tt))) None
       (Some (package_YUI sample_package)) None None []) =
  Returns tt
    (App.mkYui
       (Some (Some (App.mkStatic (with_seed ["yui-base"; "a"; "b"] empty_config)
                      (Some ["get"; "features"; "a"; "b"]) None tt)))
       None (Some (package_YUI sample_package)) None None []).
Proof.
  apply (addModulesToSeed_accumulates tt sample_extend
           (App.mkYui (Some (Some (App.mkStatic empty_config None None tt))) None
              (Some (package_YUI sample_package)) None None [])
           (App.mkStatic empty_config None None tt) "a" ["b"]).
  - reflexivity.
  - right. simpl. eauto.
Defined.

Lemma addModuleToSeed_partial_failure_witness :
  App.addModuleToSeed tt sample_extend "b"
    (configured (sample_config plain_group None ["a"]) None) =
    Throws "TypeError: Cannot read property 'Env' of undefined"
      (configured (sample_config plain_group None ["a"; "b"]) None) ∧
  ∃ out',
    exposeSeed
      (App.store_of
         (state_after
            (App.addModuleToSeed tt sample_extend "b"
               (configured (sample_config plain_group None ["a"]) None)))) [] =
    Ok (VFunction [{| src := "/combo?r/pathA&l/pathB" |}],
        App.store_of
          (state_after
             (App.addModuleToSeed tt sample_extend "b"
                (configured (sample_config plain_group None ["a"]) None))),
        out').
Proof.
  apply (addModuleToSeed_partial_failure tt sample_extend
           (configured (sample_config plain_group None ["a"]) None)
           (App.mkStatic (sample_config plain_group None ["a"]) None None tt)
           "b" []);
    reflexivity.
Defined.

Lemma addModuleToSeed_then_exposeSeed_witness :
  ∃ ds ds' rest out1 out2,
    exposeSeed
      (App.store_of (configured (sample_config plain_group None ["a"; "c"]) (Some [])))
      [] =
      Ok (returned ds,
          App.store_of
            (configured (sample_config plain_group None ["a"; "c"]) (Some [])),
          out1) ∧
    exposeSeed
      (App.store_of
         (configured (sample_config plain_group None ["a"; "c"; "zz"]) (Some ["zz"])))
      [] =
      Ok (returned ds',
          App.store_of
            (configured (sample_config plain_group None ["a"; "c"; "zz"])
               (Some ["zz"])),
          out2) ∧
    ds' = render (omap (resolvedIn (sample_config plain_group None ["a"; "c"])
                          (Some sample_registry)) (["a"; "c"] ++ ["zz"])) ∧
    ds' = removelast ds ++ rest ∧
    (resolvedIn (sample_config plain_group None ["a"; "c"]) (Some sample_registry)
       "zz" = None → ds' = ds).
Proof.
  apply (addModuleToSeed_then_exposeSeed tt sample_extend
           (configured (sample_config plain_group None ["a"; "c"]) (Some []))
           (configured (sample_config plain_group None ["a"; "c"; "zz"]) (Some ["zz"]))
           (App.mkStatic (sample_config plain_group None ["a"; "c"]) (Some []) None tt)
           "zz" []);
    reflexivity.
Defined.

Lemma yui_then_addModulesToSeed_witness :
  ∃ y',
    App.yui tt sample_require "/app/node_modules/express-yui/lib" sample_extend
      None (Some "custom") untouched = Returns tt y' ∧
    ∃ c Y,
      App.y_locals y' = Some (Some c) ∧ App.y_YUI y' = Some Y ∧
      App.addModulesToSeed tt sample_extend ["a"; "b"] y' =
      Returns tt
        (if decide (["a"; "b"] = []) then y'
         else App.set_static
                {| App.resolver :=
                     with_seed
                       (default getDefaultSeed (seed (App.resolver c)) ++ ["a"; "b"])
                       (App.resolver c);
                   App.core :=
                     Some (default (Env_core Y) (App.core c) ++ ["a"; "b"]);
                   App.version := App.version c; App.other := App.other c |} y').
Proof.
  eexists. split.
  - vm_compute. reflexivity.
  - apply (yui_then_addModulesToSeed tt sample_require
             "/app/node_modules/express-yui/lib" sample_extend untouched _
             None (Some "custom") ["a"; "b"]).
    vm_compute. reflexivity.
Defined.

(** The same calls, evaluated: the seed and the core after [yui()] and
    two modules added. *)
Example yui_then_two_modules :
  ∃ y' y'',
    App.yui tt sample_require "/app/node_modules/express-yui/lib" sample_extend
      None (Some "custom") untouched = Returns tt y' ∧
    App.addModulesToSeed tt sample_extend ["a"; "b"] y' = Returns tt y'' ∧
    App.y_locals y'' =
      Some (Some (App.mkStatic (with_seed ["yui-base"; "a"; "b"] empty_config)
                    (Some ["get"; "features"; "a"; "b"]) (Some "3.10.0") tt)).
Proof. eexists _, _. split_and!; vm_compute; reflexivity. Qed.

(** The calls of the example application: [yui({allowRollup: false},
    path)] prints one line and fills in the version. *)
Example yui_from_custom_path :
  App.yui tt sample_require "/app/node_modules/express-yui/lib" sample_extend
    (Some (App.supplied tt)) (Some "custom") untouched =
  Returns tt
    (App.mkYui
       (Some (Some (App.mkStatic empty_config None (Some "3.10.0") tt)))
       (Some sample_registry)
       (Some (package_YUI sample_package)) (Some "3.10.0")
       (Some "/node_modules/yui")
       ["Using yui@3.10.0 from [/node_modules/yui]. To customize this use " +:+
        "`modown.yui({}, " +:+ dquote +:+ "to/custom/yui/" +:+ dquote +:+
        ")` to control it."]).
Proof. vm_compute. reflexivity. Qed.

(** Without a path the package is looked up beside the middleware; when
    it is missing the call throws, and [yui.locals] stays set. *)
Example yui_without_package :
  App.yui tt sample_require "/app/node_modules/express-yui/lib" sample_extend
    None None untouched =
  Throws
    ("Error trying to require() yui from the app folder. " +:+
     "You can install yui at the app level or specify the path by doing " +:+
     "`modown.yui({}, " +:+ dquote +:+ "to/custom/yui/" +:+ dquote +:+ ")`")
    (App.mkYui (Some (Some (App.mkStatic empty_config None None tt)))
       (Some sample_registry) None None None []).
Proof. vm_compute. reflexivity. Qed.

(** ** lib/server.js *)

Lemma lookup_without {V} (gone : list string) (t : gmap string V) k :
  Server.without gone t !! k = if decide (k ∈ gone) then None else t !! k.
Proof.
  unfold Server.without. induction gone as [|g gone IH]; cbn [foldr].
  - rewrite decide_False; [done|]. apply not_elem_of_nil.
  - rewrite lookup_delete, IH.
    destruct (decide (g = k)) as [->|Hne].
    + rewrite decide_True; [done|]. apply elem_of_cons. by left.
    + destruct (decide (k ∈ gone)) as [Hin|Hnin].
      * rewrite decide_True; [done|]. apply elem_of_cons. by right.
      * rewrite decide_False; [done|]. rewrite elem_of_cons. by intros [?|?].
Qed.

Lemma without_ext {V} (gone1 gone2 : list string) (t : gmap string V) :
  (∀ k, k ∈ gone1 ↔ k ∈ gone2) →
  Server.without gone1 t = Server.without gone2 t.
Proof.
  intros H. apply map_eq. intros k. rewrite !lookup_without.
  destruct (decide (k ∈ gone1)) as [H1|H1].
  - rewrite decide_True; [done|]. by apply H.
  - rewrite decide_False; [done|]. by rewrite <- H.
Qed.

Lemma without_app {V} (gone1 gone2 : list string) (t : gmap string V) :
  Server.without gone2 (Server.without gone1 t) = Server.without (gone1 ++ gone2) t.
Proof.
  apply map_eq. intros k. rewrite !lookup_without.
  destruct (decide (k ∈ gone2)) as [H2|H2].
  - rewrite decide_True; [done|]. apply elem_of_app. by right.
  - destruct (decide (k ∈ gone1)) as [H1|H1].
    + rewrite decide_True; [done|]. apply elem_of_app. by left.
    + rewrite decide_False; [done|]. rewrite elem_of_app. tauto.
Qed.

Lemma without_nil {V} (t : gmap string V) : Server.without [] t = t.
Proof. reflexivity. Qed.

Lemma without_one {V} k (t : gmap string V) : Server.without [k] t = delete k t.
Proof. reflexivity. Qed.

Section CleanUp.

Context {Meta : Type}.

Lemma alter_as_insert {V} (f : V → V) v (t : V) (m : gmap string V) :
  m !! v = Some t → <[v := f t]> m = alter f v m.
Proof.
  intros Hv. apply map_eq. intros k. rewrite lookup_insert, lookup_alter.
  destruct (decide (v = k)) as [->|Hne]; by rewrite ?Hv.
Qed.

Lemma prune_nil ver (e : @Server.Envs Meta) : Server.prune ver [] e = e.
Proof.
  assert (Hopt : ∀ V (o : option (gmap string V)), Server.without [] <$> o = o).
  { by intros V [t|]. }
  assert (Halt : ∀ V (o : option (gmap string (gmap string V))),
             alter (Server.without []) (ToString ver) <$> o = o).
  { intros V [bv|]; [|done]. simpl. f_equal. apply map_eq. intros k.
    rewrite lookup_alter. destruct (decide (ToString ver = k)) as [->|]; [|done].
    by destruct (bv !! k). }
  destruct e as [[att used [[lo ins req]|]] [gl md]]; unfold Server.prune; simpl;
    by rewrite !Hopt, Halt.
Qed.

Lemma prune_prune ver gone1 gone2 (e : @Server.Envs Meta) :
  Server.prune ver gone2 (Server.prune ver gone1 e) =
  Server.prune ver (gone1 ++ gone2) e.
Proof.
  assert (Hopt : ∀ V (o : option (gmap string V)),
             Server.without gone2 <$> (Server.without gone1 <$> o) =
             Server.without (gone1 ++ gone2) <$> o).
  { intros V [t|]; [|done]. simpl. by rewrite without_app. }
  assert (Halt : ∀ V (o : option (gmap string (gmap string V))),
             alter (Server.without gone2) (ToString ver) <$>
               (alter (Server.without gone1) (ToString ver) <$> o) =
             alter (Server.without (gone1 ++ gone2)) (ToString ver) <$> o).
  { intros V [bv|]; [|done]. simpl. f_equal. apply map_eq. intros k.
    rewrite !lookup_alter. destruct (decide (ToString ver = k)) as [Hk|]; [|done].
    rewrite decide_True by done.
    destruct (bv !! ToString ver) as [t|]; [|done]. simpl. by rewrite without_app. }
  destruct e as [[att used [[lo ins req]|]] [gl md]]; unfold Server.prune; simpl;
    by rewrite !Hopt, Halt.
Qed.

Lemma prune_ext ver gone1 gone2 (e : @Server.Envs Meta) :
  (∀ k, k ∈ gone1 ↔ k ∈ gone2) →
  Server.prune ver gone1 e = Server.prune ver gone2 e.
Proof.
  intros H.
  assert (Hopt : ∀ V (o : option (gmap string V)),
             Server.without gone1 <$> o = Server.without gone2 <$> o).
  { intros V [t|]; [|done]. simpl. by rewrite (without_ext gone1 gone2). }
  assert (Halt : ∀ V (o : option (gmap string (gmap string V))),
             alter (Server.without gone1) (ToString ver) <$> o =
             alter (Server.without gone2) (ToString ver) <$> o).
  { intros V [bv|]; [|done]. simpl. f_equal. apply map_eq. intros k.
    rewrite !lookup_alter. destruct (decide (ToString ver = k)) as [->|]; [|done].
    destruct (bv !! k) as [t|]; [|done]. simpl.
    by rewrite (without_ext gone1 gone2). }
  destruct e as [[att used [[lo ins req]|]] [gl md]]; unfold Server.prune; simpl;
    by rewrite !Hopt, Halt.
Qed.

(** Deleting other keys does not change whether [k] is attached.  A key
    that is deleted may still read as attached, through
    [Object.prototype]. *)
Lemma is_attached_prune ver gone k (e : @Server.Envs Meta) :
  k ∉ gone →
  Server.is_attached k (Server.prune ver gone e) = Server.is_attached k e.
Proof.
  intros Hk.
  destruct e as [[[att|] used ld] [gl md]]; unfold Server.is_attached; simpl;
    [|done].
  unfold read. by rewrite lookup_without, decide_False.
Qed.

Lemma attached_of_spec k names (e : @Server.Envs Meta) :
  k ∈ Server.attached_of e names ↔ k ∈ names ∧ Server.is_attached k e = true.
Proof.
  unfold Server.attached_of.
  by rewrite list_elem_of_In, filter_In, <- list_elem_of_In.
Qed.

Lemma complete_prune ver gone (e : @Server.Envs Meta) :
  Server.complete ver e → Server.complete ver (Server.prune ver gone e).
Proof.
  destruct e as [[att used ld] [gl md]]. unfold Server.complete. simpl.
  intros ([u ->] & (l & -> & [lo Hlo] & [ins Hins] & [req Hreq]) &
          (bv & -> & [t Ht]) & [m ->]).
  split_and!; simpl.
  - by eexists.
  - eexists. split; [done|]. simpl. rewrite Hlo, Hins, Hreq. by split_and!.
  - eexists. split; [done|]. rewrite lookup_alter, decide_True by done.
    rewrite Ht. by eexists.
  - by eexists.
Qed.

Lemma forget_complete ver k (e : @Server.Envs Meta) :
  Server.complete ver e →
  Server.forget ver k e =
  Returns tt (Server.prune ver (if Server.is_attached k e then [k] else []) e).
Proof.
  intros Hc. unfold Server.forget.
  destruct (Server.is_attached k e) eqn:Hatt; [|by rewrite prune_nil].
  destruct e as [[att used ld] [gl md]]. unfold Server.complete in Hc.
  simpl in Hc.
  destruct Hc as ([u ->] & (l & -> & [lo Hlo] & [ins Hins] & [req Hreq]) &
                  (bv & -> & [t Ht]) & [m ->]).
  destruct l as [lo' ins' req']. simpl in Hlo, Hins, Hreq. subst.
  unfold Server.is_attached in Hatt. simpl in Hatt.
  destruct att as [att|]; [|done].
  unfold Server.prune. simpl.
  unfold Server.delete_global_loaded. simpl. rewrite (read_own _ _ _ Ht). simpl.
  unfold Server.with_loader. simpl.
  change (delete k t) with (Server.without [k] t).
  by rewrite (alter_as_insert (Server.without [k]) _ t bv Ht).
Qed.

Lemma forget_all ver names (e : @Server.Envs Meta) :
  Server.complete ver e →
  Server.in_sequence (Server.forget ver <$> names) e =
  Returns tt (Server.prune ver (Server.attached_of e names) e).
Proof.
  revert e. induction names as [|k names IH]; intros e Hc.
  - simpl. by rewrite prune_nil.
  - rewrite fmap_cons. cbn [Server.in_sequence].
    rewrite (forget_complete ver k e Hc).
    rewrite IH by by apply complete_prune.
    rewrite prune_prune. f_equal. apply prune_ext. intros x.
    rewrite elem_of_app, !attached_of_spec, elem_of_cons.
    destruct (Server.is_attached k e) eqn:Hk.
    + rewrite list_elem_of_singleton.
      destruct (decide (x = k)) as [->|Hne].
      * split; [intros _; split; [by left|done]|intros _; by left].
      * rewrite is_attached_prune by (by rewrite list_elem_of_singleton).
        split.
        -- intros [?|[? ?]]; [done|]. split; [by right|done].
        -- intros [[?|?] ?]; [done|]. by right.
    + rewrite prune_nil. split.
      * intros [Hin|[? ?]]; [by apply elem_of_nil in Hin|]. split; [by right|done].
      * intros ([->|?] & Hx); [by rewrite Hk in Hx|]. by right.
Qed.

End CleanUp.

Lemma filter_nil_forall {A} (P : A → bool) l :
  (∀ x, x ∈ l → P x = false) → List.filter P l = [].
Proof.
  induction l as [|x l IH]; [done|]. intros H. simpl.
  rewrite (H x) by (apply elem_of_cons; by left).
  apply IH. intros y Hy. apply H, elem_of_cons. by right.
Qed.

Section ServerFacts.

Context {Meta Err Rest : Type}.
Variable Y_use :
  list string → @Server.State Meta Err Rest →
  @Server.State Meta Err Rest * option Err.

(** With every table in place the call returns, and the tables have lost
    the attached modules of the group. *)
Lemma registerModules_complete (s : @Server.State Meta Err Rest) g ms yenv yuienv :
  Server.env_of (Server._Y s) = Some yenv →
  Server.env_of (Server.YUI s) = Some yuienv →
  Server.complete (Server.version s)
    {| Server.YEnv_of := yenv; Server.YUIEnv_of := yuienv |} →
  "hasOwnProperty" ∉ (default [] ms).*1 →
  Server.registerModules g ms s =
  Returns tt
    {| Server.groupsQueue := assign g ms (Server.groupsQueue s);
       Server.modulesQueue := Server.modulesQueue s;
       Server.YUI :=
         Some (Some (Server.YUIEnv_of
                       (Server.prune (Server.version s)
                          (Server.attached_of
                             {| Server.YEnv_of := yenv; Server.YUIEnv_of := yuienv |}
                             (default [] ms).*1)
                          {| Server.YEnv_of := yenv; Server.YUIEnv_of := yuienv |})));
       Server.version := Server.version s;
       Server._Y :=
         Some (Some (Server.YEnv_of
                       (Server.prune (Server.version s)
                          (Server.attached_of
                             {| Server.YEnv_of := yenv; Server.YUIEnv_of := yuienv |}
                             (default [] ms).*1)
                          {| Server.YEnv_of := yenv; Server.YUIEnv_of := yuienv |})));
       Server.rest := Server.rest s; Server.errors := Server.errors s |}.
Proof.
  intros HY HYUI Hc Hown. unfold Server.registerModules. rewrite HY, HYUI.
  rewrite bool_decide_false by done.
  by rewrite (forget_all _ _ _ Hc).
Qed.

(** A group with a module named [hasOwnProperty] makes the first test of
    the loop throw, before anything is deleted. *)
Lemma registerModules_shadowed (s : @Server.State Meta Err Rest) g ms yenv yuienv :
  Server.env_of (Server._Y s) = Some yenv →
  Server.env_of (Server.YUI s) = Some yuienv →
  "hasOwnProperty" ∈ (default [] ms).*1 →
  Server.registerModules g ms s =
  Throws "TypeError"
    {| Server.groupsQueue := assign g ms (Server.groupsQueue s);
       Server.modulesQueue := Server.modulesQueue s;
       Server.YUI := Some (Some yuienv);
       Server.version := Server.version s;
       Server._Y := Some (Some yenv);
       Server.rest := Server.rest s; Server.errors := Server.errors s |}.
Proof.
  intros HY HYUI Hown. unfold Server.registerModules. rewrite HY, HYUI.
  by rewrite bool_decide_true by done.
Qed.

(** X14.  [registerModules] for a group without a module named
    [hasOwnProperty], on a runtime whose tables all exist, returns
    normally and forgets exactly the modules of the group that read as
    attached, that is for which [Y.Env._attached[module]] is truthy, be it
    through [Object.prototype]: each of the seven tables loses its own
    entries for these modules and keeps every other entry (modules of the
    group that are not attached, and modules of other groups).  The group
    is stored in [groupsQueue], unless its name is [__proto__] and
    [groupsQueue] has no own property of that name. *)
Theorem registerModules_forgets_attached
  (s : @Server.State Meta Err Rest) g ms yenv yuienv :
  Server.env_of (Server._Y s) = Some yenv →
  Server.env_of (Server.YUI s) = Some yuienv →
  Server.complete (Server.version s)
    {| Server.YEnv_of := yenv; Server.YUIEnv_of := yuienv |} →
  "hasOwnProperty" ∉ (default [] ms).*1 →
  ∃ gone,
    (∀ k, k ∈ gone ↔
          k ∈ (default [] ms).*1 ∧
          Server.is_attached k
            {| Server.YEnv_of := yenv; Server.YUIEnv_of := yuienv |} = true) ∧
    (∀ V (t : gmap string V) k,
       Server.without gone t !! k = if decide (k ∈ gone) then None else t !! k) ∧
    Server.registerModules g ms s =
    Returns tt
      {| Server.groupsQueue :=
           if bool_decide (g = "__proto__" ∧ Server.groupsQueue s !! g = None)
           then Server.groupsQueue s
           else <[g := ms]> (Server.groupsQueue s);
         Server.modulesQueue := Server.modulesQueue s;
         Server.YUI :=
           Some (Some
                   {| Server._loaded :=
                        alter (Server.without gone) (ToString (Server.version s)) <$>
                        Server._loaded yuienv;
                      Server.mods := Server.without gone <$> Server.mods yuienv |});
         Server.version := Server.version s;
         Server._Y :=
           Some (Some
                   {| Server._attached :=
                        Server.without gone <$> Server._attached yenv;
                      Server._used := Server.without gone <$> Server._used yenv;
                      Server._loader :=
                        (λ l, {| Server.loaded :=
                                   Server.without gone <$> Server.loaded l;
                                 Server.inserted :=
                                   Server.without gone <$> Server.inserted l;
                                 Server.required :=
                                   Server.without gone <$> Server.required l |})
                        <$> Server._loader yenv |});
         Server.rest := Server.rest s; Server.errors := Server.errors s |}.
Proof.
  intros HY HYUI Hc Hown.
  exists (Server.attached_of
            {| Server.YEnv_of := yenv; Server.YUIEnv_of := yuienv |}
            (default [] ms).*1).
  split_and!.
  - intros k. apply attached_of_spec.
  - intros V t k. apply lookup_without.
  - by rewrite (registerModules_complete s g ms yenv yuienv HY HYUI Hc Hown).
Qed.

(** X15.  Registering the same group twice in a row is the same as
    registering it once: the second call finds nothing left to delete
    and leaves the state of the first. *)
Theorem registerModules_idempotent
  (s : @Server.State Meta Err Rest) g ms yenv yuienv :
  Server.env_of (Server._Y s) = Some yenv →
  Server.env_of (Server.YUI s) = Some yuienv →
  Server.complete (Server.version s)
    {| Server.YEnv_of := yenv; Server.YUIEnv_of := yuienv |} →
  Server.registerModules g ms (state_after (Server.registerModules g ms s)) =
  Server.registerModules g ms s.
Proof.
  intros HY HYUI Hc.
  destruct (decide ("hasOwnProperty" ∈ (default [] ms).*1)) as [Hown|Hown].
  { rewrite (registerModules_shadowed s g ms yenv yuienv HY HYUI Hown).
    cbn [state_after].
    erewrite registerModules_shadowed; [|reflexivity|reflexivity|done].
    cbn [Server.version Server.groupsQueue Server.modulesQueue Server.rest
           Server.errors].
    by rewrite assign_assign. }
  rewrite (registerModules_complete s g ms yenv yuienv HY HYUI Hc Hown).
  cbn [state_after].
  set (e := {| Server.YEnv_of := yenv; Server.YUIEnv_of := yuienv |}) in *.
  set (gone := Server.attached_of e (default [] ms).*1).
  erewrite registerModules_complete; [|reflexivity|reflexivity| |done].
  2:{ cbn [Server.version].
      replace {| Server.YEnv_of := _; Server.YUIEnv_of := _ |}
        with (Server.prune (Server.version s) gone e)
        by (by destruct (Server.prune (Server.version s) gone e)).
      by apply complete_prune. }
  cbn [Server.version Server.groupsQueue Server.modulesQueue Server.rest
         Server.errors].
  replace {| Server.YEnv_of := Server.YEnv_of (Server.prune (Server.version s) gone e);
             Server.YUIEnv_of := _ |}
    with (Server.prune (Server.version s) gone e)
    by (by destruct (Server.prune (Server.version s) gone e)).
  assert (Hsame : Server.prune (Server.version s)
                    (Server.attached_of (Server.prune (Server.version s) gone e)
                       (default [] ms).*1)
                    (Server.prune (Server.version s) gone e) =
                  Server.prune (Server.version s) gone e).
  { rewrite prune_prune. apply prune_ext. intros k.
    rewrite elem_of_app, attached_of_spec. split; [|by left].
    intros [Hk|[Hk Hatt]]; [done|].
    destruct (decide (k ∈ gone)) as [Hin|Hnin]; [done|].
    rewrite is_attached_prune in Hatt by done.
    by apply attached_of_spec. }
  by rewrite Hsame, assign_assign.
Qed.

(** X16.  However [registerModules] ends, the own entries of
    [groupsQueue] are the former ones with the group stored under its
    name (replacing an earlier registration of that name, leaving other
    groups alone), except that the name [__proto__] stores nothing
    unless [groupsQueue] has an own property of that name; and
    [modulesQueue], [this.version] and the console are untouched.
    Without a Y instance, or without [YUI], it does nothing else and
    cannot throw.  With both, a group that has a module named
    [hasOwnProperty] makes it throw a [TypeError] before anything is
    deleted. *)
Theorem registerModules_always_queues (s : @Server.State Meta Err Rest) g ms :
  Server.groupsQueue (state_after (Server.registerModules g ms s)) =
    (if bool_decide (g = "__proto__" ∧ Server.groupsQueue s !! g = None)
     then Server.groupsQueue s
     else <[g := ms]> (Server.groupsQueue s)) ∧
  (g ≠ "__proto__" →
   Server.groupsQueue (state_after (Server.registerModules g ms s)) !! g = Some ms) ∧
  (∀ g', g' ≠ g →
         Server.groupsQueue (state_after (Server.registerModules g ms s)) !! g' =
         Server.groupsQueue s !! g') ∧
  Server.modulesQueue (state_after (Server.registerModules g ms s)) =
    Server.modulesQueue s ∧
  Server.version (state_after (Server.registerModules g ms s)) = Server.version s ∧
  Server.errors (state_after (Server.registerModules g ms s)) = Server.errors s ∧
  match Server.env_of (Server._Y s), Server.env_of (Server.YUI s) with
  | Some yenv, Some yuienv =>
      "hasOwnProperty" ∈ (default [] ms).*1 →
      Server.registerModules g ms s =
      Throws "TypeError"
        {| Server.groupsQueue :=
             if bool_decide (g = "__proto__" ∧ Server.groupsQueue s !! g = None)
             then Server.groupsQueue s
             else <[g := ms]> (Server.groupsQueue s);
           Server.modulesQueue := Server.modulesQueue s;
           Server.YUI := Some (Some yuienv); Server.version := Server.version s;
           Server._Y := Some (Some yenv); Server.rest := Server.rest s;
           Server.errors := Server.errors s |}
  | _, _ =>
      Server.registerModules g ms s =
      Returns tt
        {| Server.groupsQueue :=
             if bool_decide (g = "__proto__" ∧ Server.groupsQueue s !! g = None)
             then Server.groupsQueue s
             else <[g := ms]> (Server.groupsQueue s);
           Server.modulesQueue := Server.modulesQueue s;
           Server.YUI := Server.YUI s; Server.version := Server.version s;
           Server._Y := Server._Y s; Server.rest := Server.rest s;
           Server.errors := Server.errors s |}
  end.
Proof.
  assert (Hq : Server.groupsQueue (state_after (Server.registerModules g ms s)) =
               assign g ms (Server.groupsQueue s)).
  { unfold Server.registerModules.
    destruct (Server.env_of (Server._Y s)), (Server.env_of (Server.YUI s));
      try done.
    case_bool_decide; [done|]. by destruct (Server.in_sequence _ _). }
  rewrite Hq. split_and!.
  - done.
  - intros Hg. rewrite assign_ordinary by done. apply lookup_insert_eq.
  - intros g' Hne. rewrite assign_lookup. case_bool_decide; [done|].
    by rewrite decide_False.
  - unfold Server.registerModules.
    destruct (Server.env_of (Server._Y s)), (Server.env_of (Server.YUI s));
      try done.
    case_bool_decide; [done|]. by destruct (Server.in_sequence _ _).
  - unfold Server.registerModules.
    destruct (Server.env_of (Server._Y s)), (Server.env_of (Server.YUI s));
      try done.
    case_bool_decide; [done|]. by destruct (Server.in_sequence _ _).
  - unfold Server.registerModules.
    destruct (Server.env_of (Server._Y s)), (Server.env_of (Server.YUI s));
      try done.
    case_bool_decide; [done|]. by destruct (Server.in_sequence _ _).
  - destruct (Server.env_of (Server._Y s)) as [yenv|] eqn:HY;
      [destruct (Server.env_of (Server.YUI s)) as [yuienv|] eqn:HYUI|].
    + intros Hown.
      by rewrite (registerModules_shadowed s g ms yenv yuienv HY HYUI Hown).
    + unfold Server.registerModules. by rewrite HY, HYUI.
    + unfold Server.registerModules. by rewrite HY.
Qed.

(** X17.  While there is no Y instance, [attachModules] only queues: after
    any number of calls the queue holds what it held before followed by
    the modules of the calls, in call order ([attachModules()] without
    argument adds nothing), and nothing else has changed. *)
Theorem attachModules_queues (s : @Server.State Meta Err Rest) calls :
  Server._Y s = None →
  Server.attachAll Y_use calls s =
  {| Server.groupsQueue := Server.groupsQueue s;
     Server.modulesQueue :=
       Server.modulesQueue s ++ concat (default [] <$> calls);
     Server.YUI := Server.YUI s; Server.version := Server.version s;
     Server._Y := None; Server.rest := Server.rest s;
     Server.errors := Server.errors s |}.
Proof.
  revert s. induction calls as [|mods calls IH]; intros s HY.
  - simpl. rewrite app_nil_r. destruct s; simpl in *. by subst.
  - change (Server.attachAll Y_use (mods :: calls) s)
      with (Server.attachAll Y_use calls (Server.attachModules Y_use mods s)).
    assert (Hstep : Server.attachModules Y_use mods s =
              {| Server.groupsQueue := Server.groupsQueue s;
                 Server.modulesQueue := Server.modulesQueue s ++ default [] mods;
                 Server.YUI := Server.YUI s; Server.version := Server.version s;
                 Server._Y := None; Server.rest := Server.rest s;
                 Server.errors := Server.errors s |}).
    { unfold Server.attachModules. by rewrite HY. }
    rewrite Hstep, IH by done. simpl. by rewrite <- app_assoc.
Qed.

(** X18.  Once there is a Y instance, a call hands [Y.use] the whole
    queue followed by its own modules, and afterwards nothing is pending,
    whether [Y.use] returned or threw: a module that failed to attach is
    not kept for a later attempt.  An error is not propagated; it is
    reported on the console in three lines, the first of which names the
    modules of this call only, not the queued ones that were passed along
    with them. *)
Theorem attachModules_delivers_and_empties
  (s : @Server.State Meta Err Rest) mods instance :
  Server._Y s = Some instance →
  ∃ s2 thrown,
    Y_use (Server.modulesQueue s ++ default [] mods)
      {| Server.groupsQueue := Server.groupsQueue s;
         Server.modulesQueue := Server.modulesQueue s ++ default [] mods;
         Server.YUI := Server.YUI s; Server.version := Server.version s;
         Server._Y := Server._Y s; Server.rest := Server.rest s;
         Server.errors := Server.errors s |} = (s2, thrown) ∧
    Server.modulesQueue (Server.attachModules Y_use mods s) = [] ∧
    Server._Y (Server.attachModules Y_use mods s) = Server._Y s2 ∧
    Server.YUI (Server.attachModules Y_use mods s) = Server.YUI s2 ∧
    Server.groupsQueue (Server.attachModules Y_use mods s) = Server.groupsQueue s2 ∧
    match thrown with
    | None => Server.errors (Server.attachModules Y_use mods s) = Server.errors s2
    | Some e =>
        Server.errors (Server.attachModules Y_use mods s) =
        Server.errors s2 ++
        [Server.message_line
           ("error attaching modules: " +:+
            match mods with
            | Some l => join_with "," l
            | None => "undefined"
            end);
         Server.error_line e; Server.stack_line e]
    end.
Proof.
  intros HY. unfold Server.attachModules. rewrite HY.
  destruct (Y_use _ _) as [s2 thrown]. exists s2, thrown.
  split_and!; try done. by destruct thrown.
Qed.

End ServerFacts.

Lemma sample_envs_complete : Server.complete (Some "3.10.0") sample_envs.
Proof.
  unfold Server.complete, sample_envs. simpl. split_and!.
  - by eexists.
  - eexists. split; [done|]. simpl. split_and!; by eexists.
  - eexists. split; [done|]. by eexists.
  - by eexists.
Qed.

Lemma registerModules_forgets_attached_witness :
  ∃ gone,
    (∀ k, k ∈ gone ↔
          k ∈ (default [] (Some [("app-a", 4); ("app-b", 5)])).*1 ∧
          Server.is_attached k
            {| Server.YEnv_of := Server.YEnv_of sample_envs;
               Server.YUIEnv_of := Server.YUIEnv_of sample_envs |} = true) ∧
    (∀ V (t : gmap string V) k,
       Server.without gone t !! k = if decide (k ∈ gone) then None else t !! k) ∧
    Server.registerModules "app" (Some [("app-a", 4); ("app-b", 5)])
      (sample_server true ["queued"]) =
    Returns tt
      {| Server.groupsQueue :=
           <["app" := Some [("app-a", 4); ("app-b", 5)] ]>
             (Server.groupsQueue (sample_server true ["queued"]));
         Server.modulesQueue := Server.modulesQueue (sample_server true ["queued"]);
         Server.YUI :=
           Some (Some
                   {| Server._loaded :=
                        alter (Server.without gone)
                          (ToString (Server.version (sample_server true ["queued"])))
                        <$> Server._loaded (Server.YUIEnv_of sample_envs);
                      Server.mods :=
                        Server.without gone <$>
                        Server.mods (Server.YUIEnv_of sample_envs) |});
         Server.version := Server.version (sample_server true ["queued"]);
         Server._Y :=
           Some (Some
                   {| Server._attached :=
                        Server.without gone <$>
                        Server._attached (Server.YEnv_of sample_envs);
                      Server._used :=
                        Server.without gone <$>
                        Server._used (Server.YEnv_of sample_envs);
                      Server._loader :=
                        (λ l, {| Server.loaded :=
                                   Server.without gone <$> Server.loaded l;
                                 Server.inserted :=
                                   Server.without gone <$> Server.inserted l;
                                 Server.required :=
                                   Server.without gone <$> Server.required l |})
                        <$> Server._loader (Server.YEnv_of sample_envs) |});
         Server.rest := Server.rest (sample_server true ["queued"]);
         Server.errors := Server.errors (sample_server true ["queued"]) |}.
Proof.
  apply (registerModules_forgets_attached (sample_server true ["queued"]) "app"
           (Some [("app-a", 4); ("app-b", 5)])
           (Server.YEnv_of sample_envs) (Server.YUIEnv_of sample_envs)).
  - reflexivity.
  - reflexivity.
  - exact sample_envs_complete.
  - decide_name.
Defined.

(** The run of the example: [app-a] is attached and is forgotten,
    [app-b] is not attached and [lib-c] is not in the group. *)
Example registerModules_sample :
  Server.registerModules "app" (Some [("app-a", 4); ("app-b", 5)])
    (sample_server true ["queued"]) =
  Returns tt
    {| Server.groupsQueue := {[ "app" := Some [("app-a", 4); ("app-b", 5)] ]};
       Server.modulesQueue := ["queued"];
       Server.YUI :=
         Some (Some {| Server._loaded :=
                         Some (<["3.10.0" := delete "app-a" sample_table]> ∅);
                       Server.mods := Some (delete "app-a" sample_table) |});
       Server.version := Some "3.10.0";
       Server._Y :=
         Some (Some
                 {| Server._attached :=
                      Some (<["app-b" := false]> (<["lib-c" := true]> ∅));
                    Server._used := Some (delete "app-a" sample_table);
                    Server._loader :=
                      Some {| Server.loaded := Some (delete "app-a" sample_table);
                              Server.inserted := Some (delete "app-a" sample_table);
                              Server.required := Some (delete "app-a" sample_table) |}
                 |});
       Server.rest := tt; Server.errors := [] |}.
Proof. vm_compute. reflexivity. Qed.

(** A runtime without [_loader]: the call throws in the middle of the
    clean-up of [app-a], after it has queued the group and deleted the
    module from [_attached] and [_used]. *)
Example registerModules_without_loader :
  Server.registerModules "app" (Some [("app-a", 4)])
    {| Server.groupsQueue := ∅; Server.modulesQueue := [];
       Server.YUI := Some (Some (Server.YUIEnv_of sample_envs));
       Server.version := Some "3.10.0";
       Server._Y :=
         Some (Some {| Server._attached := Some {["app-a" := true]};
                       Server._used := Some sample_table;
                       Server._loader := None |});
       Server.rest := tt; Server.errors := @nil (@Server.ErrorLine string) |} =
  Throws "TypeError"
    {| Server.groupsQueue := {[ "app" := Some [("app-a", 4)] ]};
       Server.modulesQueue := [];
       Server.YUI := Some (Some (Server.YUIEnv_of sample_envs));
       Server.version := Some "3.10.0";
       Server._Y :=
         Some (Some {| Server._attached := Some ∅;
                       Server._used := Some (delete "app-a" sample_table);
                       Server._loader := None |});
       Server.rest := tt; Server.errors := [] |}.
Proof. vm_compute. reflexivity. Qed.

(** A group with a module named [hasOwnProperty]: the first test of the
    loop throws, the group is queued and no table has changed, although
    [app-a] is attached. *)
Example registerModules_shadowed_sample :
  Server.registerModules "app" (Some [("app-a", 4); ("hasOwnProperty", 5)])
    (sample_server true []) =
  Throws "TypeError"
    {| Server.groupsQueue :=
         {[ "app" := Some [("app-a", 4); ("hasOwnProperty", 5)] ]};
       Server.modulesQueue := [];
       Server.YUI := Some (Some (Server.YUIEnv_of sample_envs));
       Server.version := Some "3.10.0";
       Server._Y := Some (Some (Server.YEnv_of sample_envs));
       Server.rest := tt; Server.errors := [] |}.
Proof. vm_compute. reflexivity. Qed.

(** A module named [constructor] reads as attached although
    [_attached] has no entry for it, and the tables lose their entries of
    that name.  The group name [__proto__] queues nothing. *)
Example registerModules_inherited_names :
  Server.registerModules "__proto__" (Some [("constructor", 4)])
    {| Server.groupsQueue := ∅; Server.modulesQueue := [];
       Server.YUI :=
         Some (Some {| Server._loaded :=
                         Some {[ "3.10.0" := {[ "constructor" := 1 ]} ]};
                       Server.mods := Some {[ "constructor" := 1 ]} |});
       Server.version := Some "3.10.0";
       Server._Y :=
         Some (Some {| Server._attached := Some {[ "app-a" := true ]};
                       Server._used := Some {[ "constructor" := 1 ]};
                       Server._loader :=
                         Some {| Server.loaded := Some {[ "constructor" := 1 ]};
                                 Server.inserted := Some ∅;
                                 Server.required := Some ∅ |} |});
       Server.rest := tt; Server.errors := @nil (@Server.ErrorLine string) |} =
  Returns tt
    {| Server.groupsQueue := ∅; Server.modulesQueue := [];
       Server.YUI :=
         Some (Some {| Server._loaded := Some {[ "3.10.0" := ∅ ]};
                       Server.mods := Some ∅ |});
       Server.version := Some "3.10.0";
       Server._Y :=
         Some (Some {| Server._attached := Some {[ "app-a" := true ]};
                       Server._used := Some ∅;
                       Server._loader :=
                         Some {| Server.loaded := Some ∅;
                                 Server.inserted := Some ∅;
                                 Server.required := Some ∅ |} |});
       Server.rest := tt; Server.errors := [] |}.
Proof. vm_compute. reflexivity. Qed.

Lemma registerModules_idempotent_witness :
  Server.registerModules "app" (Some [("app-a", 4); ("lib-c", 5)])
    (state_after
       (Server.registerModules "app" (Some [("app-a", 4); ("lib-c", 5)])
          (sample_server true []))) =
  Server.registerModules "app" (Some [("app-a", 4); ("lib-c", 5)])
    (sample_server true []).
Proof.
  apply (registerModules_idempotent (sample_server true []) "app"
           (Some [("app-a", 4); ("lib-c", 5)])
           (Server.YEnv_of sample_envs) (Server.YUIEnv_of sample_envs)).
  - reflexivity.
  - reflexivity.
  - exact sample_envs_complete.
Defined.

Lemma attachModules_queues_witness :
  Server.attachAll sample_Y_use [Some ["a"; "b"]; None; Some []; Some ["c"]]
    (sample_server false ["z"]) =
  {| Server.groupsQueue := Server.groupsQueue (sample_server false ["z"]);
     Server.modulesQueue :=
       Server.modulesQueue (sample_server false ["z"]) ++
       concat (default [] <$> [Some ["a"; "b"]; None; Some []; Some ["c"]]);
     Server.YUI := Server.YUI (sample_server false ["z"]);
     Server.version := Server.version (sample_server false ["z"]);
     Server._Y := None; Server.rest := Server.rest (sample_server false ["z"]);
     Server.errors := Server.errors (sample_server false ["z"]) |}.
Proof.
  apply (attachModules_queues sample_Y_use (sample_server false ["z"])
           [Some ["a"; "b"]; None; Some []; Some ["c"]]).
  reflexivity.
Defined.

Lemma attachModules_delivers_and_empties_witness :
  ∃ s2 thrown,
    sample_Y_use (Server.modulesQueue (sample_server true ["z"]) ++
                  default [] (Some ["broken"; "a"]))
      {| Server.groupsQueue := Server.groupsQueue (sample_server true ["z"]);
         Server.modulesQueue :=
           Server.modulesQueue (sample_server true ["z"]) ++
           default [] (Some ["broken"; "a"]);
         Server.YUI := Server.YUI (sample_server true ["z"]);
         Server.version := Server.version (sample_server true ["z"]);
         Server._Y := Server._Y (sample_server true ["z"]);
         Server.rest := Server.rest (sample_server true ["z"]);
         Server.errors := Server.errors (sample_server true ["z"]) |} =
      (s2, thrown) ∧
    Server.modulesQueue
      (Server.attachModules sample_Y_use (Some ["broken"; "a"])
         (sample_server true ["z"])) = [] ∧
    Server._Y
      (Server.attachModules sample_Y_use (Some ["broken"; "a"])
         (sample_server true ["z"])) = Server._Y s2 ∧
    Server.YUI
      (Server.attachModules sample_Y_use (Some ["broken"; "a"])
         (sample_server true ["z"])) = Server.YUI s2 ∧
    Server.groupsQueue
      (Server.attachModules sample_Y_use (Some ["broken"; "a"])
         (sample_server true ["z"])) = Server.groupsQueue s2 ∧
    match thrown with
    | None =>
        Server.errors
          (Server.attachModules sample_Y_use (Some ["broken"; "a"])
             (sample_server true ["z"])) = Server.errors s2
    | Some e =>
        Server.errors
          (Server.attachModules sample_Y_use (Some ["broken"; "a"])
             (sample_server true ["z"])) =
        Server.errors s2 ++
        [Server.message_line
           ("error attaching modules: " +:+ join_with "," ["broken"; "a"]);
         Server.error_line e; Server.stack_line e]
    end.
Proof.
  apply (attachModules_delivers_and_empties sample_Y_use (sample_server true ["z"])
           (Some ["broken"; "a"]) (Some (Server.YEnv_of sample_envs))).
  reflexivity.
Defined.

(** The failed attachment of the example, as the console shows it. *)
Example attachModules_broken :
  Server.errors
    (Server.attachModules sample_Y_use (Some ["broken"; "a"])
       (sample_server true ["z"])) =
  [Server.message_line "error attaching modules: broken,a";
   Server.error_line "cannot attach broken";
   Server.stack_line "cannot attach broken"].
Proof. vm_compute. reflexivity. Qed.

(** ** lib/hashfiles.js *)

Section HashfilesFacts.

Context {Hash Code ReaddirError Algo : Type}.
Variable path_join : string → string → string → string.
Variable hashfile : string → Algo → option (@Hashfiles.Done Hash Code).

Local Abbreviation Job := (@Hashfiles.Job Hash Code ReaddirError).

Lemma forEach_deferred dir suffix algo files (j : Job) :
  (∀ p, hashfile p algo = None) →
  Hashfiles.forEach (Hashfiles.eachFile path_join hashfile dir suffix algo) files j =
  Returns tt
    {| Hashfiles.hashes := Hashfiles.hashes j;
       Hashfiles.invalid := Hashfiles.invalid j;
       Hashfiles.count := (Hashfiles.count j + Z.of_nat (length files))%Z;
       Hashfiles.started :=
         Hashfiles.started j ++
         ((λ item, path_join dir item (item +:+ suffix)) <$> files);
       Hashfiles.calls := Hashfiles.calls j |}.
Proof.
  intros Hdefer. revert j. induction files as [|item files IH]; intros j.
  - simpl. rewrite Z.add_0_r, app_nil_r. by destruct j.
  - cbn [Hashfiles.forEach]. unfold Hashfiles.eachFile at 1. rewrite Hdefer.
    rewrite IH. cbn [Hashfiles.hashes Hashfiles.invalid Hashfiles.count
                       Hashfiles.started Hashfiles.calls].
    rewrite fmap_cons, <- app_assoc. cbn [length]. do 2 f_equal. lia.
Qed.

Lemma afterHash_recorded d (j : Job) k :
  Hashfiles.key_of d = Some k →
  Hashfiles.afterHash d j =
  Returns tt
    {| Hashfiles.hashes :=
         (Hashfiles.record (Hashfiles.hashes j, Hashfiles.invalid j) d).1;
       Hashfiles.invalid :=
         (Hashfiles.record (Hashfiles.hashes j, Hashfiles.invalid j) d).2;
       Hashfiles.count := (Hashfiles.count j - 1)%Z;
       Hashfiles.started := Hashfiles.started j;
       Hashfiles.calls :=
         if bool_decide ((Hashfiles.count j - 1)%Z = 0%Z) then
           Hashfiles.calls j ++
           [Hashfiles.result_call
              (Hashfiles.record (Hashfiles.hashes j, Hashfiles.invalid j) d).1
              (Hashfiles.record (Hashfiles.hashes j, Hashfiles.invalid j) d).2]
         else Hashfiles.calls j |}.
Proof.
  intros Hk. unfold Hashfiles.afterHash, Hashfiles.record. rewrite Hk.
  by destruct (Hashfiles.err d).
Qed.

Lemma deliver_tally cs (j : Job) :
  Forall (λ d, is_Some (Hashfiles.key_of d)) cs →
  (Z.of_nat (length cs) ≤ Hashfiles.count j)%Z →
  Hashfiles.deliver cs j =
  Returns tt
    {| Hashfiles.hashes :=
         (foldl Hashfiles.record (Hashfiles.hashes j, Hashfiles.invalid j) cs).1;
       Hashfiles.invalid :=
         (foldl Hashfiles.record (Hashfiles.hashes j, Hashfiles.invalid j) cs).2;
       Hashfiles.count := (Hashfiles.count j - Z.of_nat (length cs))%Z;
       Hashfiles.started := Hashfiles.started j;
       Hashfiles.calls :=
         Hashfiles.calls j ++
         if bool_decide (cs ≠ [] ∧ Hashfiles.count j = Z.of_nat (length cs))
         then [Hashfiles.result_call
                 (foldl Hashfiles.record
                    (Hashfiles.hashes j, Hashfiles.invalid j) cs).1
                 (foldl Hashfiles.record
                    (Hashfiles.hashes j, Hashfiles.invalid j) cs).2]
         else [] |}.
Proof.
  clear path_join hashfile.
  revert j. induction cs as [|d cs IH]; intros j Hok Hlen.
  - simpl. rewrite Z.sub_0_r, app_nil_r. by destruct j.
  - inversion Hok as [|? ? [k Hk] Hok']; subst.
    cbn [Hashfiles.deliver]. rewrite (afterHash_recorded d j k Hk).
    cbn [length] in Hlen.
    rewrite IH; [|done|cbn [Hashfiles.count]; lia].
    cbn [Hashfiles.hashes Hashfiles.invalid Hashfiles.count Hashfiles.started
           Hashfiles.calls foldl].
    set (r := Hashfiles.record (Hashfiles.hashes j, Hashfiles.invalid j) d).
    replace (r.1, r.2) with r by (by destruct r).
    f_equal. f_equal; [cbn [length]; lia|].
    destruct cs as [|d' cs].
    + cbn [foldl length].
      repeat case_bool_decide; rewrite ?app_nil_r; try done;
        exfalso; intuition (done || lia).
    + cbn [length] in *.
      repeat case_bool_decide; rewrite ?app_nil_r; try done;
        exfalso; intuition (done || lia).
Qed.

Lemma record_commute (acc : gmap string Hash * gmap string Code) x y :
  Hashfiles.key_of x ≠ Hashfiles.key_of y →
  Hashfiles.record (Hashfiles.record acc x) y =
  Hashfiles.record (Hashfiles.record acc y) x.
Proof.
  clear path_join hashfile. intros Hne. unfold Hashfiles.record.
  destruct (Hashfiles.key_of x) as [kx|], (Hashfiles.key_of y) as [ky|];
    try done.
  assert (kx ≠ ky) by congruence.
  destruct (Hashfiles.err x), (Hashfiles.err y); simpl; try done;
    f_equal; by apply assign_commute.
Qed.

Lemma tally_permutation cs1 cs2 (acc : gmap string Hash * gmap string Code) :
  cs1 ≡ₚ cs2 → NoDup (Hashfiles.key_of <$> cs1) →
  foldl Hashfiles.record acc cs1 = foldl Hashfiles.record acc cs2.
Proof.
  clear path_join hashfile. intros Hperm. revert acc.
  induction Hperm as [|x l l' Hperm IH|x y l|l l' l'' H1 IH1 H2 IH2];
    intros acc Hnd.
  - done.
  - rewrite fmap_cons in Hnd. apply NoDup_cons in Hnd as [_ Hnd].
    simpl. by apply IH.
  - rewrite !fmap_cons in Hnd. apply NoDup_cons in Hnd as [Hy _].
    simpl. rewrite (record_commute acc y x); [done|].
    intros Heq. apply Hy. rewrite Heq. apply elem_of_cons. by left.
  - rewrite IH1 by done. apply IH2.
    assert (Hp : Hashfiles.key_of <$> l ≡ₚ Hashfiles.key_of <$> l')
      by (by apply fmap_Permutation).
    by rewrite <- Hp.
Qed.

(** The run when every hash is deferred and every completion names a
    file. *)
Lemma process_deferred dir suffix algo error files cs :
  (∀ p, hashfile p algo = None) →
  Forall (λ d, is_Some (Hashfiles.key_of d)) cs →
  length cs ≤ length files →
  Hashfiles.process path_join hashfile dir suffix algo error (Some files) cs =
  Returns tt
    {| Hashfiles.hashes := (Hashfiles.tally cs).1;
       Hashfiles.invalid := (Hashfiles.tally cs).2;
       Hashfiles.count := (Z.of_nat (length files) - Z.of_nat (length cs))%Z;
       Hashfiles.started := (λ item, path_join dir item (item +:+ suffix)) <$> files;
       Hashfiles.calls :=
         match error with
         | Some e => [@Hashfiles.error_call Hash Code ReaddirError e]
         | None => []
         end ++
         if bool_decide (cs ≠ [] ∧ length cs = length files)
         then [Hashfiles.result_call (Hashfiles.tally cs).1 (Hashfiles.tally cs).2]
         else [] |}.
Proof.
  intros Hdefer Hok Hlen. unfold Hashfiles.process, Hashfiles.afterReaddir.
  rewrite forEach_deferred by done.
  rewrite deliver_tally; [|done|destruct error; simpl; lia].
  unfold Hashfiles.tally.
  assert (Hb : ∀ z : Z, z = 0%Z →
    bool_decide (cs ≠ [] ∧ (z + Z.of_nat (length files))%Z = Z.of_nat (length cs)) =
    bool_decide (cs ≠ [] ∧ length cs = length files)).
  { intros z ->. apply bool_decide_ext.
    split; intros [? ?]; (split; [done|lia]). }
  destruct error as [e|]; simpl; rewrite Hb by done; do 2 f_equal; lia.
Qed.

(** X19.  When [hashfile] defers its callback, the caller's [callback]
    is called with the results exactly once, by the completion that
    brings [count] back to zero, that is the last one: while hashes are
    outstanding it has not been called, and for an empty directory, where
    no hash is started, it is never called.  [hashes] and [invalid] hold
    what the completions delivered so far recorded, and one hash was
    started per entry, for [path.join(buildDir, item, item + suffix)]. *)
Theorem callback_after_last_hash dir suffix algo files cs :
  (∀ p, hashfile p algo = None) →
  Forall (λ d, is_Some (Hashfiles.key_of d)) cs →
  length cs ≤ length files →
  ∃ j : Job,
    Hashfiles.process path_join hashfile dir suffix algo
      (@None ReaddirError) (Some files) cs = Returns tt j ∧
    Hashfiles.started j = (λ item, path_join dir item (item +:+ suffix)) <$> files ∧
    Hashfiles.count j = (Z.of_nat (length files) - Z.of_nat (length cs))%Z ∧
    (Hashfiles.hashes j, Hashfiles.invalid j) = Hashfiles.tally cs ∧
    Hashfiles.calls j =
      if bool_decide (files ≠ [] ∧ length cs = length files)
      then [Hashfiles.result_call (Hashfiles.hashes j) (Hashfiles.invalid j)]
      else [].
Proof.
  intros Hdefer Hok Hlen.
  rewrite (process_deferred dir suffix algo None files cs Hdefer Hok Hlen).
  eexists. split; [done|]. simpl. split_and!; try done.
  - by destruct (Hashfiles.tally cs).
  - apply (f_equal (λ b : bool, if b then _ else _)).
    apply bool_decide_ext. split.
    + intros [Hcs Hl]. split; [|done]. intros ->. destruct cs; [done|].
      simpl in Hl. lia.
    + intros [Hf Hl]. split; [|done]. intros ->. destruct files; [done|].
      simpl in Hl. lia.
Qed.

(** X20.  The order in which the hashes complete does not matter when
    the completions name different files: the run ends in the same state
    and the callback receives the same [hashes] and [invalid]. *)
Theorem completion_order_irrelevant dir suffix algo
    (error : option ReaddirError) files cs1 cs2 :
  (∀ p, hashfile p algo = None) →
  Forall (λ d, is_Some (Hashfiles.key_of d)) cs1 →
  length cs1 ≤ length files →
  NoDup (Hashfiles.key_of <$> cs1) →
  cs1 ≡ₚ cs2 →
  Hashfiles.process path_join hashfile dir suffix algo error (Some files) cs1 =
  Hashfiles.process path_join hashfile dir suffix algo error (Some files) cs2.
Proof.
  intros Hdefer Hok Hlen Hnd Hperm.
  assert (Hok2 : Forall (λ d, is_Some (Hashfiles.key_of d)) cs2).
  { by rewrite <- Hperm. }
  assert (Hl : length cs2 = length cs1) by (by rewrite Hperm).
  rewrite (process_deferred dir suffix algo error files cs1 Hdefer Hok Hlen).
  rewrite (process_deferred dir suffix algo error files cs2 Hdefer Hok2)
    by (by rewrite Hl).
  assert (Ht : Hashfiles.tally cs1 = Hashfiles.tally cs2).
  { by apply tally_permutation. }
  rewrite Ht, Hl. do 3 f_equal.
  apply (f_equal (λ b : bool, if b then _ else _)).
  apply bool_decide_ext. split; intros [Hne ?]; (split; [|done]); intros ->.
  - apply Permutation_nil_r in Hperm. done.
  - apply Permutation_nil_l in Hperm. done.
Qed.

Lemma forEach_immediate dir suffix algo files (j : Job) :
  Forall (λ item, ∃ d,
    hashfile (path_join dir item (item +:+ suffix)) algo = Some d ∧
    is_Some (Hashfiles.key_of d)) files →
  Hashfiles.count j = 0%Z →
  ∃ (j' : Job) cs,
    Hashfiles.forEach (Hashfiles.eachFile path_join hashfile dir suffix algo)
      files j = Returns tt j' ∧
    Hashfiles.count j' = 0%Z ∧
    Hashfiles.calls j' = Hashfiles.calls j ++ cs ∧
    length cs = length files ∧
    Forall (λ c, ∃ h i, c = @Hashfiles.result_call Hash Code ReaddirError h i) cs.
Proof.
  intros Hnow. revert j.
  induction Hnow as [|item more (d & Hd & k & Hk) _ IH]; intros j Hcount.
  - exists j, []. simpl. rewrite app_nil_r. by split_and!.
  - simpl. unfold Hashfiles.eachFile at 1. rewrite Hd.
    rewrite (afterHash_recorded d _ k Hk). simpl.
    rewrite Hcount. simpl.
    match goal with
    | |- context [Hashfiles.forEach _ more ?j1] =>
        destruct (IH j1) as (j' & cs & Hrun & Hzero & Hcalls & Hlen & Hall);
          [done|]
    end.
    simpl in Hcalls. rewrite <- (assoc_L (++)) in Hcalls.
    eexists j', _. split; [exact Hrun|]. split; [exact Hzero|].
    split; [exact Hcalls|]. split; [simpl; by rewrite Hlen|].
    constructor; [eauto|done].
Qed.

(** X21.  [process] relies on [hashfile] deferring its callback.  With a
    [hashfile] that calls it before returning, [count] is back at zero
    after every entry of the directory, and the caller's [callback] is
    called with results once for each entry instead of once. *)
Theorem immediate_hashfile_calls_back_per_file dir suffix algo files :
  Forall (λ item, ∃ d,
    hashfile (path_join dir item (item +:+ suffix)) algo = Some d ∧
    is_Some (Hashfiles.key_of d)) files →
  ∃ j : Job,
    Hashfiles.process path_join hashfile dir suffix algo
      (@None ReaddirError) (Some files) [] = Returns tt j ∧
    Hashfiles.count j = 0%Z ∧
    length (Hashfiles.calls j) = length files ∧
    Forall (λ c, ∃ h i, c = Hashfiles.result_call h i) (Hashfiles.calls j).
Proof.
  intros Hnow. unfold Hashfiles.process, Hashfiles.afterReaddir.
  destruct (forEach_immediate dir suffix algo files Hashfiles.start Hnow)
    as (j & cs & Hrun & Hzero & Hcalls & Hlen & Hall); [done|].
  rewrite Hrun. simpl in Hcalls. exists j. simpl. rewrite Hcalls.
  by split_and!.
Qed.

(** X22.  An error of [fs.readdir] does not end the run: after
    [callback(err, null)] the handler goes on to the listing, as there is
    no [return].  Without a listing, which is what Node passes along with
    an error, it throws a [TypeError] and no hash is started.  With a
    listing the hashes are started all the same, and once they have
    completed the callback has been called a second time, with the
    results. *)
Theorem readdir_error_not_final dir suffix algo e files cs :
  (∀ p, hashfile p algo = None) →
  Forall (λ d, is_Some (Hashfiles.key_of d)) cs →
  length cs = length files →
  Hashfiles.process path_join hashfile dir suffix algo (Some e) None cs =
    Throws "TypeError"
      {| Hashfiles.hashes := ∅; Hashfiles.invalid := ∅; Hashfiles.count := 0;
         Hashfiles.started := [];
         Hashfiles.calls := [@Hashfiles.error_call Hash Code ReaddirError e] |} ∧
  ∃ j : Job,
    Hashfiles.process path_join hashfile dir suffix algo (Some e) (Some files) cs =
      Returns tt j ∧
    Hashfiles.started j = (λ item, path_join dir item (item +:+ suffix)) <$> files ∧
    Hashfiles.calls j =
      Hashfiles.error_call e ::
      if decide (files = []) then []
      else [Hashfiles.result_call (Hashfiles.hashes j) (Hashfiles.invalid j)].
Proof.
  intros Hdefer Hok Hlen. split; [reflexivity|].
  rewrite (process_deferred dir suffix algo (Some e) files cs Hdefer Hok)
    by (by rewrite Hlen).
  eexists. split; [done|]. simpl. split; [done|]. f_equal.
  destruct (decide (files = [])) as [->|Hne].
  - destruct cs; [|done]. by rewrite bool_decide_false by (by intros [? _]).
  - rewrite bool_decide_true; [done|]. split; [|done].
    intros ->. by destruct files.
Qed.

End HashfilesFacts.

Lemma callback_after_last_hash_witness :
  ∃ j : @Hashfiles.Job string string string,
    Hashfiles.process sample_path_join sample_hashfile "build" "-min.js" "md5"
      (@None string) (Some ["a"; "b"]) sample_completions = Returns tt j ∧
    Hashfiles.started j =
      (λ item, sample_path_join "build" item (item +:+ "-min.js")) <$> ["a"; "b"] ∧
    Hashfiles.count j =
      (Z.of_nat (length ["a"; "b"]) - Z.of_nat (length sample_completions))%Z ∧
    (Hashfiles.hashes j, Hashfiles.invalid j) = Hashfiles.tally sample_completions ∧
    Hashfiles.calls j =
      if bool_decide (["a"; "b"] ≠ [] ∧ length sample_completions = length ["a"; "b"])
      then [Hashfiles.result_call (Hashfiles.hashes j) (Hashfiles.invalid j)]
      else [].
Proof.
  apply (callback_after_last_hash sample_path_join sample_hashfile
           "build" "-min.js" "md5" ["a"; "b"] sample_completions).
  - reflexivity.
  - repeat constructor; eexists; reflexivity.
  - simpl. lia.
Defined.

Lemma completion_order_irrelevant_witness :
  Hashfiles.process sample_path_join sample_hashfile "build" "-min.js" "md5"
    (@None string) (Some ["a"; "b"]) sample_completions =
  Hashfiles.process sample_path_join sample_hashfile "build" "-min.js" "md5"
    (@None string) (Some ["a"; "b"]) (reverse sample_completions).
Proof.
  apply (completion_order_irrelevant sample_path_join sample_hashfile
           "build" "-min.js" "md5" None ["a"; "b"] sample_completions
           (reverse sample_completions)).
  - reflexivity.
  - repeat constructor; eexists; reflexivity.
  - simpl. lia.
  - vm_compute. repeat constructor; rewrite ?elem_of_cons, ?elem_of_nil;
      intros H; repeat destruct H as [H|H]; by inversion H.
  - vm_compute. apply perm_swap.
Defined.

Lemma immediate_hashfile_calls_back_per_file_witness :
  ∃ j : @Hashfiles.Job string string string,
    Hashfiles.process sample_path_join sample_immediate_hashfile
      "build" "-min.js" "md5" (@None string) (Some ["a"; "b"]) [] =
      Returns tt j ∧
    Hashfiles.count j = 0%Z ∧
    length (Hashfiles.calls j) = length ["a"; "b"] ∧
    Forall (λ c, ∃ h i, c = Hashfiles.result_call h i) (Hashfiles.calls j).
Proof.
  apply (immediate_hashfile_calls_back_per_file sample_path_join
           sample_immediate_hashfile "build" "-min.js" "md5" ["a"; "b"]).
  repeat constructor; eexists; (split; [reflexivity|]); by eexists.
Defined.

Lemma readdir_error_not_final_witness :
  Hashfiles.process sample_path_join sample_hashfile "build" "-min.js" "md5"
    (Some "ENOENT") None sample_completions =
    Throws "TypeError"
      {| Hashfiles.hashes := ∅; Hashfiles.invalid := ∅; Hashfiles.count := 0;
         Hashfiles.started := [];
         Hashfiles.calls := [Hashfiles.error_call "ENOENT"] |} ∧
  ∃ j : @Hashfiles.Job string string string,
    Hashfiles.process sample_path_join sample_hashfile "build" "-min.js" "md5"
      (Some "ENOENT") (Some ["a"; "b"]) sample_completions = Returns tt j ∧
    Hashfiles.started j =
      (λ item, sample_path_join "build" item (item +:+ "-min.js")) <$> ["a"; "b"] ∧
    Hashfiles.calls j =
      Hashfiles.error_call "ENOENT" ::
      if decide (["a"; "b"] = []) then []
      else [Hashfiles.result_call (Hashfiles.hashes j) (Hashfiles.invalid j)].
Proof.
  apply (readdir_error_not_final sample_path_join sample_hashfile
           "build" "-min.js" "md5" "ENOENT" ["a"; "b"] sample_completions).
  - reflexivity.
  - repeat constructor; eexists; reflexivity.
  - reflexivity.
Defined.

(** Two hashes, the second one failed: the callback is called once, with
    the hash of the first and the error code of the second. *)
Example process_sample :
  ∃ j : @Hashfiles.Job string string string,
    Hashfiles.process sample_path_join sample_hashfile "build" "-min.js" "md5"
      (@None string) (Some ["a"; "b"]) sample_completions = Returns tt j ∧
    Hashfiles.calls j =
      [Hashfiles.result_call {[ "build/a/a-min.js" := "4e55" ]}
                             {[ "build/b/b-min.js" := "ENOTDIR" ]}].
Proof. eexists. split; [reflexivity|]. reflexivity. Qed.
